(** * The [Interp] kernel of exoplanet (ops/interp/interp_op.cc)

    A shallow embedding of the CPU kernel [InterpOp<T>::Compute], of its
    helper [search_sorted] and of the shape function of the op, followed by
    the properties of the kernel.

    Modelling choices.
    - The element type [T] is one of the two types the kernel is registered
      for, [float] and [double].  Their values are those of IEEE 754
      binary32 and binary64, as [spec_float] describes them: signed zeros,
      infinities, one NaN, and finite numbers [(-1)^s * m * 2^e].  The
      arithmetic is that of [SpecFloat] at the precision of the type, every
      operation rounded to nearest-even; comparisons are those of
      [SFcompare], false whenever an operand is NaN.  An expression is
      evaluated operation by operation in the type the language gives it
      ([FLT_EVAL_METHOD] 0, no contraction into fused operations): in line
      137 the literal [1.0] is a [double], which makes [InterpOp<float>] do
      one product in [float] and the rest in [double], and round the sum
      to [float] when it is stored.
    - [int64] is [Z]; every index the kernel computes stays far below 2^63
      for buffers that fit in memory, so no wrap-around is modelled.
    - A buffer is a [list]; a pointer into it is the buffer with an offset.
      Reading or writing outside the buffer has no defined behaviour in the
      source: the model returns [None] ([Undefined] at kernel level).
    - [std::fmod] and TensorFlow's [Shard], [OP_REQUIRES], [OP_REQUIRES_OK],
      [allocate_output], [flat_inner_dims] and the calls on the inference
      context are library code; they are modelled from their documented
      contracts. *)

From Equations Require Import Equations.
From Stdlib Require Import ZArith Lia String SpecFloat.
From stdpp Require Import base list option.

Local Open Scope Z_scope.

(** * The kernel *)

(** ** Scalars *)

(** The types of the attribute [T] (line 11). *)
Inductive DataType : Type := DT_FLOAT | DT_DOUBLE.

(** The number of bits of the mantissa, the implicit one included, and the
    exponent of the infinities. *)
Definition prec (T : DataType) : Z :=
  match T with DT_FLOAT => 24 | DT_DOUBLE => 53 end.
Definition emax (T : DataType) : Z :=
  match T with DT_FLOAT => 128 | DT_DOUBLE => 1024 end.

(** [a <= b], [a >= b] and [a > b]. *)
Definition Tle (a b : spec_float) : bool := SFleb a b.
Definition Tge (a b : spec_float) : bool := SFleb b a.
Definition Tgt (a b : spec_float) : bool := SFltb b a.

(** [T(0)]. *)
Definition Tzero : spec_float := S754_zero false.

(** The literal [1.0], a [double]. *)
Definition one : spec_float := SFone (prec DT_DOUBLE) (emax DT_DOUBLE).

(** A conversion to the type [to]: exact when the value is one of [to],
    rounded otherwise. *)
Definition convert (to : DataType) (a : spec_float) : spec_float :=
  match a with
  | S754_finite s m e => binary_round (prec to) (emax to) s m e
  | _ => a
  end.

(** The arithmetic of [double]. *)
Definition Dadd : spec_float → spec_float → spec_float :=
  SFadd (prec DT_DOUBLE) (emax DT_DOUBLE).
Definition Dsub : spec_float → spec_float → spec_float :=
  SFsub (prec DT_DOUBLE) (emax DT_DOUBLE).
Definition Dmul : spec_float → spec_float → spec_float :=
  SFmul (prec DT_DOUBLE) (emax DT_DOUBLE).

Section Scalars.
Variable T : DataType.

(** The arithmetic of [T]. *)
Definition Tadd : spec_float → spec_float → spec_float := SFadd (prec T) (emax T).
Definition Tsub : spec_float → spec_float → spec_float := SFsub (prec T) (emax T).
Definition Tmul : spec_float → spec_float → spec_float := SFmul (prec T) (emax T).
Definition Tdiv : spec_float → spec_float → spec_float := SFdiv (prec T) (emax T).

(** The conversions between [T] and [double] that the language inserts. *)
Definition to_double (a : spec_float) : spec_float :=
  match T with DT_DOUBLE => a | DT_FLOAT => convert DT_DOUBLE a end.
Definition of_double (a : spec_float) : spec_float :=
  match T with DT_DOUBLE => a | DT_FLOAT => convert DT_FLOAT a end.

(** [std::fmod x y]: NaN when an argument is NaN, [x] is infinite or [y] is
    zero; [x] when [x] is a zero or [y] is infinite; otherwise the exact
    value [x - n * y], where [n] is [x / y] with its fractional part cut
    off, which has the sign of [x] and is a value of the type. *)
Definition fmod (x y : spec_float) : spec_float :=
  match x, y with
  | S754_nan, _ | _, S754_nan => S754_nan
  | S754_infinity _, _ => S754_nan
  | _, S754_zero _ => S754_nan
  | S754_zero _, _ => x
  | S754_finite _ _ _, S754_infinity _ => x
  | S754_finite sx mx ex, S754_finite _ my ey =>
      let e := Z.min ex ey in
      let r := (Zpos mx * 2 ^ (ex - e)) mod (Zpos my * 2 ^ (ey - e)) in
      binary_normalize (prec T) (emax T) (cond_Zopp sx r) e sx
  end.

End Scalars.

(** ** Memory *)

(** A pointer to constant data: a buffer and an offset into it. *)
Record cptr (A : Type) : Type := Cptr { buf : list A; off : Z }.
Arguments Cptr {A} _ _.
Arguments buf {A} _.
Arguments off {A} _.

Definition rd {A} (l : list A) (i : Z) : option A :=
  if i <? 0 then None else l !! Z.to_nat i.

Definition wr {A} (l : list A) (i : Z) (a : A) : option (list A) :=
  if (0 <=? i) && (i <? Z.of_nat (length l))
  then Some (<[Z.to_nat i := a]> l) else None.

(** [p[i]] for a pointer to constant data. *)
Definition load {A} (p : cptr A) (i : Z) : option A := rd (buf p) (off p + i).

(** The three output buffers of the kernel. *)
Record Out : Type :=
  MkOut { v_buf : list spec_float; a_buf : list spec_float; inds_buf : list Z }.

Definition store_v (st : Out) (i : Z) (e : spec_float) : option Out :=
  l ← wr (v_buf st) i e; Some (MkOut l (a_buf st) (inds_buf st)).
Definition store_a (st : Out) (i : Z) (e : spec_float) : option Out :=
  l ← wr (a_buf st) i e; Some (MkOut (v_buf st) l (inds_buf st)).
Definition store_inds (st : Out) (i : Z) (e : Z) : option Out :=
  l ← wr (inds_buf st) i e; Some (MkOut (v_buf st) (a_buf st) l).

(** A counted loop: the body is run for each index of the list in turn. *)
Fixpoint for_each {I S} (body : I → S → option S) (ns : list I) (s : S)
  : option S :=
  match ns with
  | [] => Some s
  | n :: ns' => s' ← body n s; for_each body ns' s'
  end.

(** ** [search_sorted] (lines 41-53) *)

(** The [while] loop, from the state [(low, high)].  The recursion follows
    the measure [high - low]. *)
Equations? search_loop (x : cptr spec_float) (value : spec_float) (low high : Z)
  : option Z by wf (Z.to_nat (high - low)) lt :=
search_loop x value low high with Z_lt_dec 1 (high - low) => {
  | left Hc :=
      let probe := (low + high) ÷ 2 in
      match load x probe with
      | Some v => if Tgt v value then search_loop x value low probe
                  else search_loop x value probe high
      | None => None
      end
  | right _ := Some high }.
Proof.
  all: pose proof (Z.quot_rem' (low + high) 2);
    pose proof (Z.rem_bound_abs (low + high) 2); lia.
Qed.

Definition search_sorted (N : Z) (x : cptr spec_float) (value : spec_float)
  : option Z :=
  search_loop x value (-1) N.

(** One iteration of the loop body, as a function on the loop state. *)
Definition search_body (x : cptr spec_float) (value : spec_float) (s : Z * Z)
  : option (Z * Z) :=
  let '(low, high) := s in
  let probe := (low + high) ÷ 2 in
  v ← load x probe;
  Some (if Tgt v value then (low, probe) else (probe, high)).

(** ** The [work] lambda (lines 119-140) *)

(** What the lambda captures.  The output pointers [vk], [ak], [indsk] are
    offsets into the output buffers. *)
Record Captures : Type := MkCaptures {
  flag : bool; cM : Z; period : spec_float;
  tk : cptr spec_float; xk : cptr spec_float; yk : cptr spec_float;
  vk : Z; ak : Z; indsk : Z }.

Section Work.
Variable T : DataType.

(** Lines 123-126: wrap into the required period. *)
Definition wrap (flag : bool) (period value : spec_float) : spec_float :=
  if flag then
    let trunc_mod := fmod T value period in
    if Tge value Tzero then trunc_mod
    else fmod T (Tadd T trunc_mod period) period
  else value.

(** Line 136: [(value - xk[ind-1]) / (xk[ind] - xk[ind-1])]. *)
Definition fraction (value xlo xhi : spec_float) : spec_float :=
  Tdiv T (Tsub T value xlo) (Tsub T xhi xlo).

(** Line 137: [a0 * yk[ind] + (1.0 - a0) * yk[ind-1]].  The first product
    is one of [T]; [1.0 - a0], the second product and the sum are of
    [double]; the sum is converted to [T] by the assignment. *)
Definition blend (a0 yhi ylo : spec_float) : spec_float :=
  of_double T
    (Dadd (to_double T (Tmul T a0 yhi))
          (Dmul (Dsub one (to_double T a0)) (to_double T ylo))).

(** Lines 121-138: the body of the loop over [n]. *)
Definition work_body (c : Captures) (n : Z) (st : Out) : option Out :=
  value ← load (tk c) n;
  let value := wrap (flag c) (period c) value in
  x0 ← load (xk c) 0;
  if Tle value x0 then
    y0 ← load (yk c) 0;
    st ← store_v st (vk c + n) y0;
    store_inds st (indsk c + n) 0
  else
    xl ← load (xk c) (cM c - 1);
    if Tge value xl then
      yl ← load (yk c) (cM c - 1);
      st ← store_v st (vk c + n) yl;
      store_inds st (indsk c + n) (cM c + 1)
    else
      ind ← search_sorted (cM c) (xk c) value;
      st ← store_inds st (indsk c + n) ind;
      xlo ← load (xk c) (ind - 1);
      xhi ← load (xk c) ind;
      let a0 := fraction value xlo xhi in
      st ← store_a st (ak c + n) a0;
      yhi ← load (yk c) ind;
      ylo ← load (yk c) (ind - 1);
      store_v st (vk c + n) (blend a0 yhi ylo).

Definition work (c : Captures) (begin end_ : Z) (st : Out) : option Out :=
  for_each (work_body c) (seqZ begin (end_ - begin)) st.

End Work.

(** ** [Shard] *)

(** [Shard] splits [[0, total)] into blocks [(start, limit)] and calls
    [work start limit] on each; the list gives the blocks in the order in
    which they are run. *)
Definition Shard (blocks : list (Z * Z)) (work : Z → Z → Out → option Out)
    (st : Out) : option Out :=
  for_each (λ b, work b.1 b.2) blocks st.

(** [tiling a b blocks]: the blocks, in this order, are contiguous and cover
    [[a, b)] exactly. *)
Fixpoint tiling (a b : Z) (blocks : list (Z * Z)) : bool :=
  match blocks with
  | [] => a =? b
  | (s, e) :: rest => (s =? a) && (s <=? e) && tiling e b rest
  end.

(** A sharding of [[0, total)]: contiguous disjoint blocks that cover the
    range, run in any order. *)
Definition sharding (total : Z) (blocks : list (Z * Z)) : Prop :=
  ∃ sorted, blocks ≡ₚ sorted ∧ tiling 0 total sorted = true.

(** ** Tensors and the kernel context *)

Record Tensor (A : Type) : Type := MkTensor { shape : list Z; flat : list A }.
Arguments MkTensor {A} _ _.
Arguments shape {A} _.
Arguments flat {A} _.

Definition dims {A} (t : Tensor A) : Z := Z.of_nat (length (shape t)).
Definition dim_size {A} (t : Tensor A) (k : Z) : option Z := rd (shape t) k.
Definition num_elements (sh : list Z) : Z := foldr Z.mul 1 sh.

(** The statuses the kernel meets: its own errors are [InvalidArgument];
    the runtime may answer a request with an error of any other code. *)
Inductive Status : Type :=
  | OK
  | InvalidArgument (msg : string)
  | OtherError (code : Z) (msg : string).

(** The part of [OpKernelContext] the kernel touches: its four inputs, the
    three output slots (empty until [allocate_output] fills them), the
    status, and three services of the runtime: the status with which
    [allocate_output] answers for the output [i], the contents of freshly
    allocated memory, [fresh_T i j] being cell [j] of output [i], and the
    blocks into which the thread pool shards [total] units of work of the
    given cost. *)
Record OpKernelContext : Type := MkContext {
  input_t : Tensor spec_float; input_p : Tensor spec_float;
  input_x : Tensor spec_float; input_y : Tensor spec_float;
  output_v : option (Tensor spec_float);
  output_a : option (Tensor spec_float);
  output_inds : option (Tensor Z);
  status : Status;
  allocator : Z → Status;
  fresh_T : Z → nat → spec_float;
  fresh_int64 : Z → nat → Z;
  shard_blocks : Z → Z → list (Z * Z) }.

Definition set_status (s : Status) (c : OpKernelContext) : OpKernelContext :=
  MkContext (input_t c) (input_p c) (input_x c) (input_y c)
    (output_v c) (output_a c) (output_inds c) s
    (allocator c) (fresh_T c) (fresh_int64 c) (shard_blocks c).

Definition set_outputs (ov oa : option (Tensor spec_float))
    (oi : option (Tensor Z)) (c : OpKernelContext) : OpKernelContext :=
  MkContext (input_t c) (input_p c) (input_x c) (input_y c)
    ov oa oi (status c)
    (allocator c) (fresh_T c) (fresh_int64 c) (shard_blocks c).

(** A statement of [Compute] either falls through to the next statement,
    leaves [Compute] by [return], or has no defined behaviour. *)
Inductive outcome (A : Type) : Type :=
  | Next (a : A) (c : OpKernelContext)
  | Return (c : OpKernelContext)
  | Undefined.
Arguments Next {A} _ _.
Arguments Return {A} _.
Arguments Undefined {A}.

Definition K (A : Type) : Type := OpKernelContext → outcome A.

Definition ret {A} (a : A) : K A := λ c, Next a c.
Definition bind {A B} (m : K A) (f : A → K B) : K B :=
  λ c, match m c with
       | Next a c' => f a c'
       | Return c' => Return c'
       | Undefined => Undefined
       end.

Declare Scope kernel_scope.
Delimit Scope kernel_scope with K.
Notation "x <- m ;; k" := (bind m (λ x, k))
  (at level 100, m at next level, right associativity) : kernel_scope.
Notation "m ;; k" := (bind m (λ _, k))
  (at level 100, right associativity) : kernel_scope.

Definition get : K OpKernelContext := λ c, Next c c.

(** A value that must exist: its absence is an access out of bounds. *)
Definition defined {A} (o : option A) : K A :=
  λ c, match o with Some a => Next a c | None => Undefined end.

(** [OP_REQUIRES(context, cond, error)]: when the condition fails, record
    the error in the context and return from [Compute]. *)
Definition OP_REQUIRES (cond : bool) (err : Status) : K unit :=
  λ c, if cond then Next tt c else Return (set_status err c).

(** [OP_REQUIRES_OK(context, status)]: when the status is an error, record
    it in the context and return from [Compute]. *)
Definition OP_REQUIRES_OK (s : Status) : K unit :=
  λ c, match s with
       | OK => Next tt c
       | _ => Return (set_status s c)
       end.

Definition fresh {A} (cell : nat → A) (sh : list Z) : Tensor A :=
  MkTensor sh (cell <$> seq 0 (Z.to_nat (num_elements sh))).

(** [allocate_output(i, shape, &tensor)] for the three outputs: the slot is
    filled when the runtime answers [OK], and left alone otherwise. *)
Definition allocate_output_0 (sh : list Z) : K Status :=
  λ c, match allocator c 0 with
       | OK => Next OK (set_outputs (Some (fresh (fresh_T c 0) sh))
                          (output_a c) (output_inds c) c)
       | err => Next err c
       end.
Definition allocate_output_1 (sh : list Z) : K Status :=
  λ c, match allocator c 1 with
       | OK => Next OK (set_outputs (output_v c)
                          (Some (fresh (fresh_T c 1) sh)) (output_inds c) c)
       | err => Next err c
       end.
Definition allocate_output_2 (sh : list Z) : K Status :=
  λ c, match allocator c 2 with
       | OK => Next OK (set_outputs (output_v c) (output_a c)
                          (Some (fresh (fresh_int64 c 2) sh)) c)
       | err => Next err c
       end.

(** Code that writes through the views [v], [a] and [inds] of the three
    output tensors. *)
Definition on_outputs (f : Out → option Out) : K unit :=
  λ c, match output_v c, output_a c, output_inds c with
       | Some tv, Some ta, Some ti =>
           match f (MkOut (flat tv) (flat ta) (flat ti)) with
           | Some o =>
               Next tt (set_outputs (Some (MkTensor (shape tv) (v_buf o)))
                          (Some (MkTensor (shape ta) (a_buf o)))
                          (Some (MkTensor (shape ti) (inds_buf o))) c)
           | None => Undefined
           end
       | _, _, _ => Undefined
       end.

(** A counted loop of [Compute] with a loop-carried value. *)
Fixpoint for_K {S} (body : Z → S → K S) (ks : list Z) (s : S) : K S :=
  match ks with
  | [] => ret s
  | k :: ks' => (s' <- body k s ;; for_K body ks' s')%K
  end.

(** ** [InterpOp::Compute] (lines 60-147) *)

(** Lines 80-85: the body of the loop over the outer dimensions.  The
    dimension of [p] is read only when that of [x] agrees, as [&&] does. *)
Definition check_dim (t p x : Tensor spec_float) (k : Z) (size : Z) : K Z :=
  (dim <- defined (dim_size t k) ;;
   let size := size * dim in
   xd <- defined (dim_size x k) ;;
   pd <- (if xd =? dim then defined (dim_size p k) else ret 0) ;;
   OP_REQUIRES ((xd =? dim) && (pd =? dim))
     (InvalidArgument "incompatible dimensions") ;;
   ret size)%K.

(** Lines 109-117: what the row [k] captures. *)
Definition row_captures (t p x y : Tensor spec_float) (N M : Z) (k : Z)
    (period : spec_float) : Captures :=
  MkCaptures (Tgt period Tzero) M period
    (Cptr (flat t) (k * N)) (Cptr (flat x) (k * M)) (Cptr (flat y) (k * M))
    (k * N) (k * N) (k * N).

Section Compute.
Variable T : DataType.

(** Lines 109-144: one row [k] of the batch. *)
Definition row (t p x y : Tensor spec_float) (N M : Z) (k : Z) (_ : unit)
  : K unit :=
  (period <- defined (rd (flat p) k) ;;
   c <- get ;;
   let cost := 5 * M in
   on_outputs (Shard (shard_blocks c N cost)
                 (work T (row_captures t p x y N M k period))))%K.

Definition Compute : K unit :=
  (c <- get ;;
   let t_tensor := input_t c in
   let p_tensor := input_p c in
   let x_tensor := input_x c in
   let y_tensor := input_y c in
   let ndim := dims t_tensor in
   OP_REQUIRES (ndim >=? 1)
     (InvalidArgument "t must be at least 1D") ;;
   OP_REQUIRES (dims p_tensor =? ndim - 1)
     (InvalidArgument "p must have the dimension len(t.shape) - 1") ;;
   OP_REQUIRES (dims x_tensor =? ndim)
     (InvalidArgument "x and t must have the same number of dimensions") ;;
   OP_REQUIRES (bool_decide (shape y_tensor = shape x_tensor))
     (InvalidArgument "x and y must be the same shape") ;;
   size <- for_K (check_dim t_tensor p_tensor x_tensor)
             (seqZ 0 (ndim - 1)) 1 ;;
   N <- defined (dim_size t_tensor (ndim - 1)) ;;
   M <- defined (dim_size x_tensor (ndim - 1)) ;;
   s <- allocate_output_0 (shape t_tensor) ;;
   OP_REQUIRES_OK s ;;
   s <- allocate_output_1 (shape t_tensor) ;;
   OP_REQUIRES_OK s ;;
   s <- allocate_output_2 (shape t_tensor) ;;
   OP_REQUIRES_OK s ;;
   for_K (row t_tensor p_tensor x_tensor y_tensor N M) (seqZ 0 size) tt)%K.

End Compute.

(** ** The shape function (lines 19-37)

    The calls on the inference context are library code, modelled from
    their contract: a handle is a shape whose rank, or some of whose
    dimensions, may be unknown.  A dimension or a rank that is not known
    is [None]. *)

Abbreviation DimensionHandle := (option Z) (only parsing).
Abbreviation ShapeHandle := (option (list (option Z))) (only parsing).

(** The errors of the shape inference context; each is an
    [InvalidArgument] status. *)
Inductive ShapeError : Type :=
  | RankBelow (rank existing : Z)
  | RankMismatch (rank0 rank1 : Z)
  | DimMismatch (i : Z) (d0 d1 : Z)
  | SubshapeOutOfBounds.

Definition Inferred (A : Type) : Type := ShapeError + A.

(** [TF_RETURN_IF_ERROR]. *)
Definition and_then {A B} (m : Inferred A) (f : A → Inferred B) : Inferred B :=
  match m with inl e => inl e | inr a => f a end.

Declare Scope shape_scope.
Delimit Scope shape_scope with S.
Notation "x <~ m ;; k" := (and_then m (λ x, k))
  (at level 100, m at next level, right associativity) : shape_scope.

Definition Rank (s : ShapeHandle) : option Z :=
  ds ← s; Some (Z.of_nat (length ds)).

(** [c->WithRankAtLeast(shape, rank, &out)]. *)
Definition WithRankAtLeast (s : ShapeHandle) (rank : Z) : Inferred ShapeHandle :=
  match Rank s with
  | None => inr s
  | Some existing => if existing >=? rank then inr s
                     else inl (RankBelow rank existing)
  end.

(** [c->Merge(d0, d1, &out)] on the dimension [i] of two shapes. *)
Definition merge_dim (i : Z) (d0 d1 : DimensionHandle) : Inferred DimensionHandle :=
  match d0, d1 with
  | _, None => inr d0
  | None, Some _ => inr d1
  | Some a, Some b => if a =? b then inr d0 else inl (DimMismatch i a b)
  end.

Fixpoint merge_dims (i : Z) (l0 l1 : list (option Z))
  : Inferred (list (option Z)) :=
  match l0, l1 with
  | d0 :: r0, d1 :: r1 =>
      (d <~ merge_dim i d0 d1 ;;
       r <~ merge_dims (i + 1) r0 r1 ;;
       inr (d :: r))%S
  | _, _ => inr []
  end.

(** [c->Merge(s0, s1, &out)]. *)
Definition Merge (s0 s1 : ShapeHandle) : Inferred ShapeHandle :=
  match s0, s1 with
  | _, None => inr s0
  | None, Some _ => inr s1
  | Some l0, Some l1 =>
      let rank0 := Z.of_nat (length l0) in
      let rank1 := Z.of_nat (length l1) in
      if rank0 =? rank1
      then (l <~ merge_dims 0 l0 l1 ;; inr (Some l))%S
      else inl (RankMismatch rank0 rank1)
  end.

(** [c->Subshape(s, start, end, &out)]: the dimensions from [start] to
    [end], a negative position counting from the rank. *)
Definition Subshape (s : ShapeHandle) (start end_ : Z) : Inferred ShapeHandle :=
  match s with
  | None => inr None
  | Some ds =>
      let rank := Z.of_nat (length ds) in
      if (start =? 0) && (end_ >=? rank) then inr s else
      let start := if start >? rank then rank else start in
      let end_ := if end_ >? rank then rank else end_ in
      let start := if start <? 0 then rank + start else start in
      let end_ := if end_ <? 0 then rank + end_ else end_ in
      if (start <? 0) || (end_ <? 0) || (start >? end_)
      then inl SubshapeOutOfBounds
      else inr (Some (take (Z.to_nat (end_ - start)) (drop (Z.to_nat start) ds)))
  end.

(** The function given to [SetShapeFn]: from the shapes of the four
    inputs to the shapes of the three outputs. *)
Definition shape_fn (input0 input1 input2 input3 : ShapeHandle)
  : Inferred (ShapeHandle * ShapeHandle * ShapeHandle) :=
  (t <~ WithRankAtLeast input0 1 ;;
   p <~ WithRankAtLeast input1 1 ;;
   x <~ WithRankAtLeast input2 1 ;;
   y <~ WithRankAtLeast input3 1 ;;
   x <~ Merge x y ;;
   t <~ Subshape t 0 (-1) ;;
   x <~ Subshape x 0 (-1) ;;
   t <~ Merge t x ;;
   t <~ Merge t p ;;
   inr (input0, input0, input0))%S.

(** * Auxiliary definitions

    Nothing below is part of the kernel: these are the predicates the
    statements use and the devices of the proofs. *)

(** ** Numbers *)

Definition is_nan (a : spec_float) : bool :=
  match a with S754_nan => true | _ => false end.

(** [a == b], the numeric equality of the language. *)
Definition Teq (a b : spec_float) : bool := SFeqb a b.

(** The place of a number in the order of [SFcompare]: its class, from
    the negative infinity to the positive one, then its exponent and its
    mantissa, negated for the negative numbers.  NaN has no place. *)
Definition key (a : spec_float) : Z * Z * Z :=
  match a with
  | S754_infinity true => (-2, 0, 0)
  | S754_finite true m e => (-1, - e, - Zpos m)
  | S754_zero _ | S754_nan => (0, 0, 0)
  | S754_finite false m e => (1, e, Zpos m)
  | S754_infinity false => (2, 0, 0)
  end.

Definition key_lt (a b : Z * Z * Z) : Prop :=
  a.1.1 < b.1.1 ∨
  (a.1.1 = b.1.1 ∧ (a.1.2 < b.1.2 ∨ (a.1.2 = b.1.2 ∧ a.2 < b.2))).
Definition key_le (a b : Z * Z * Z) : Prop :=
  a.1.1 < b.1.1 ∨
  (a.1.1 = b.1.1 ∧ (a.1.2 < b.1.2 ∨ (a.1.2 = b.1.2 ∧ a.2 ≤ b.2))).

(** Some bit has been shifted out of the mantissa. *)
Definition inexact (r : shr_record) : bool := shr_r r || shr_s r.

(** A number of the type [T]: a zero or a finite value in its format. *)
Definition finite (T : DataType) (a : spec_float) : bool :=
  match a with
  | S754_zero _ => true
  | S754_finite _ m e => bounded (prec T) (emax T) m e
  | _ => false
  end.

(** The value of a number of [T], counted in units of the smallest
    positive value [2 ^ emin] of the type. *)
Definition Zval (T : DataType) (a : spec_float) : Z :=
  match a with
  | S754_finite s m e => cond_Zopp s (Zpos m * 2 ^ (e - emin (prec T) (emax T)))
  | _ => 0
  end.

(** The number [m * 2 ^ e] in the type [T], rounded when it is not one of
    its values. *)
Definition lit (T : DataType) (m e : Z) : spec_float :=
  binary_normalize (prec T) (emax T) m e false.

(** ** Arrays and views *)

(** The pointer [p] points to an array whose elements are [row]. *)
Definition array_at {A} (p : cptr A) (row : list A) : Prop :=
  0 ≤ off p ∧ take (length row) (drop (Z.to_nat (off p)) (buf p)) = row.

(** The index [i] is inside the buffer [l]. *)
Definition inb {A} (l : list A) (i : Z) : Prop := 0 ≤ i < Z.of_nat (length l).

(** Knots sorted ascending: each one is less than the next. *)
Fixpoint ascending (xs : list spec_float) : bool :=
  match xs with
  | a :: (b :: _) as rest => Tgt b a && ascending rest
  | _ => true
  end.

(** Numbers in an order that allows repetitions: none is NaN and each one
    is at most the next. *)
Fixpoint nondecreasing (xs : list spec_float) : bool :=
  match xs with
  | [] => true
  | a :: rest =>
      negb (is_nan a) &&
      match rest with b :: _ => Tle a b | [] => true end &&
      nondecreasing rest
  end.

(** The element [(k, n)] of the two-dimensional view of a tensor whose
    rows have [d] elements, as [flat_inner_dims] lays it out. *)
Definition at2 {A} (t : Tensor A) (d k n : Z) : option A :=
  rd (flat t) (k * d + n).

(** ** One iteration of [work], as a value and its writes *)

(** What an iteration leaves in the cell [n] of the three buffers; the
    buffer [a] is written in the interior branch only. *)
Record Cell : Type :=
  MkCell { cell_v : spec_float; cell_a : option spec_float; cell_inds : Z }.

Section Cells.
Variable T : DataType.

(** The reads and the arithmetic of [work_body], without its writes. *)
Definition eval (c : Captures) (n : Z) : option Cell :=
  value ← load (tk c) n;
  let value := wrap T (flag c) (period c) value in
  x0 ← load (xk c) 0;
  if Tle value x0 then
    y0 ← load (yk c) 0; Some (MkCell y0 None 0)
  else
    xl ← load (xk c) (cM c - 1);
    if Tge value xl then
      yl ← load (yk c) (cM c - 1); Some (MkCell yl None (cM c + 1))
    else
      ind ← search_sorted (cM c) (xk c) value;
      xlo ← load (xk c) (ind - 1);
      xhi ← load (xk c) ind;
      let a0 := fraction T value xlo xhi in
      yhi ← load (yk c) ind;
      ylo ← load (yk c) (ind - 1);
      Some (MkCell (blend T a0 yhi ylo) (Some a0) ind).

(** The cell of the interior branch. *)
Definition interp (w xlo xhi ylo yhi : spec_float) (ind : Z) : Cell :=
  let a0 := fraction T w xlo xhi in
  MkCell (blend T a0 yhi ylo) (Some a0) ind.

End Cells.

(** An optional write. *)
Definition wr_opt {A} (l : list A) (i : Z) (o : option A) : option (list A) :=
  match o with Some a => wr l i a | None => Some l end.

(** An update of each of the three buffers. *)
Definition upd3 (f g : list spec_float → option (list spec_float))
    (h : list Z → option (list Z)) (st : Out) : option Out :=
  lv ← f (v_buf st); la ← g (a_buf st); li ← h (inds_buf st);
  Some (MkOut lv la li).

(** The writes of [work_body] for the cell [r] of the query [n]. *)
Definition commit (c : Captures) (n : Z) (r : Cell) : Out → option Out :=
  upd3 (λ l, wr l (vk c + n) (cell_v r))
       (λ l, wr_opt l (ak c + n) (cell_a r))
       (λ l, wr l (indsk c + n) (cell_inds r)).

(** The buffers of [st'] have the sizes of those of [st]. *)
Definition same_size (st st' : Out) : Prop :=
  length (v_buf st') = length (v_buf st) ∧
  length (a_buf st') = length (a_buf st) ∧
  length (inds_buf st') = length (inds_buf st).

(** The input pointers of a row reach [N] queries and [cM c >= 1] knots. *)
Definition inputs_ok (c : Captures) (N : Z) : Prop :=
  1 ≤ cM c ∧
  (∀ n, 0 ≤ n < N → is_Some (load (tk c) n)) ∧
  (∀ i, 0 ≤ i < cM c → is_Some (load (xk c) i)) ∧
  (∀ i, 0 ≤ i < cM c → is_Some (load (yk c) i)).

(** The numbers the branches of the query [n] compare are not NaN: the
    wrapped query and the last knot of the row. *)
Definition comparable (T : DataType) (c : Captures) (n : Z) : bool :=
  match load (tk c) n, load (xk c) (cM c - 1) with
  | Some tv, Some xl =>
      negb (is_nan (wrap T (flag c) (period c) tv)) && negb (is_nan xl)
  | _, _ => true
  end.

(** The output pointers of a row reach [N] cells of each buffer. *)
Definition outputs_ok (c : Captures) (N : Z) (st : Out) : Prop :=
  ∀ n, 0 ≤ n < N →
    inb (v_buf st) (vk c + n) ∧ inb (a_buf st) (ak c + n) ∧
    inb (inds_buf st) (indsk c + n).

(** ** Sharding *)

(** The query indices of the blocks, in the order in which they are run. *)
Definition ranges (blocks : list (Z * Z)) : list Z :=
  blocks ≫= λ b, seqZ b.1 (b.2 - b.1).

(** ** Calls *)

(** The outer dimension [k] agrees in [t], [x] and [p]. *)
Definition dims_agree (t p x : Tensor spec_float) (k : Z) : Prop :=
  dim_size x k = dim_size t k ∧ dim_size p k = dim_size t k.

Definition incompatible : Status := InvalidArgument "incompatible dimensions".

(** The outcome of a call stopped by a failed requirement. *)
Definition failed (msg : string) (c : OpKernelContext) : outcome unit :=
  Return (set_status (InvalidArgument msg) c).

(** The context once the three outputs hold the buffers [st]. *)
Definition with_out (c : OpKernelContext) (sh : list Z) (st : Out)
  : OpKernelContext :=
  set_outputs (Some (MkTensor sh (v_buf st))) (Some (MkTensor sh (a_buf st)))
    (Some (MkTensor sh (inds_buf st))) c.

(** The buffers of the three outputs as [allocate_output] leaves them. *)
Definition allocated (c : OpKernelContext) (sh : list Z) : Out :=
  MkOut (flat (fresh (fresh_T c 0) sh)) (flat (fresh (fresh_T c 1) sh))
        (flat (fresh (fresh_int64 c 2) sh)).

(** The size of the three buffers of a call on [size] rows of [N] queries. *)
Definition sized (size N : Z) (st : Out) : Prop :=
  Z.of_nat (length (v_buf st)) = size * N ∧
  Z.of_nat (length (a_buf st)) = size * N ∧
  Z.of_nat (length (inds_buf st)) = size * N.

(** The row [k] of the inputs can be read, and its queries compare with
    its knots. *)
Definition row_ok (T : DataType) (t p x y : Tensor spec_float) (N M k : Z)
  : Prop :=
  ∃ pk, rd (flat p) k = Some pk ∧
    inputs_ok (row_captures t p x y N M k pk) N ∧
    ∀ n, 0 ≤ n < N → comparable T (row_captures t p x y N M k pk) n = true.

(** What the cell [n] of row [k] holds in [st'] when the row has run from
    the buffers [st]. *)
Definition cell_done (T : DataType) (t p x y : Tensor spec_float)
    (N M k n : Z) (st st' : Out) : Prop :=
  ∃ pk, rd (flat p) k = Some pk ∧
    let cap := row_captures t p x y N M k pk in
    rd (v_buf st') (k * N + n) = cell_v <$> eval T cap n ∧
    rd (a_buf st') (k * N + n) =
      from_option Some (rd (a_buf st) (k * N + n)) (eval T cap n ≫= cell_a) ∧
    rd (inds_buf st') (k * N + n) = cell_inds <$> eval T cap n.

(** The cell [n] of row [k] is in [st'] what it is in [st]. *)
Definition cell_kept (N k n : Z) (st st' : Out) : Prop :=
  rd (v_buf st') (k * N + n) = rd (v_buf st) (k * N + n) ∧
  rd (a_buf st') (k * N + n) = rd (a_buf st) (k * N + n) ∧
  rd (inds_buf st') (k * N + n) = rd (inds_buf st) (k * N + n).

(** The wrapped query [n] of the row [k] and the last knot of that row are
    not NaN. *)
Definition no_nan (T : DataType) (c : OpKernelContext) (N M k n : Z) : bool :=
  match at2 (input_t c) N k n, rd (flat (input_p c)) k,
        at2 (input_x c) M k (M - 1) with
  | Some tv, Some pk, Some xl =>
      negb (is_nan (wrap T (Tgt pk Tzero) pk tv)) && negb (is_nan xl)
  | _, _, _ => true
  end.

(** A call on well-formed tensors that passes validation, whatever the
    number [M] of knots of a row: the batch shape is shared, each buffer
    holds as many elements as its shape says, the runtime allocates the
    three outputs and the thread pool shards [[0, N)] into blocks that
    cover it. *)
Record shaped_call (c : OpKernelContext) (batch : list Z) (N M : Z) : Prop := {
  sc_shape_t : shape (input_t c) = batch ++ [N];
  sc_shape_p : shape (input_p c) = batch;
  sc_shape_x : shape (input_x c) = batch ++ [M];
  sc_shape_y : shape (input_y c) = batch ++ [M];
  sc_batch : Forall (λ d, 0 ≤ d) batch;
  sc_N : 0 ≤ N;
  sc_M : 0 ≤ M;
  sc_flat_t : Z.of_nat (length (flat (input_t c))) = num_elements (batch ++ [N]);
  sc_flat_p : Z.of_nat (length (flat (input_p c))) = num_elements batch;
  sc_flat_x : Z.of_nat (length (flat (input_x c))) = num_elements (batch ++ [M]);
  sc_flat_y : Z.of_nat (length (flat (input_y c))) = num_elements (batch ++ [M]);
  sc_alloc : ∀ i, allocator c i = OK;
  sc_shards : ∀ cost, sharding N (shard_blocks c N cost) }.

(** A valid call of the kernel for the type [T]: well-formed tensors that
    pass validation, rows of [M >= 1] knots, and queries that compare with
    the knots: no query wraps to NaN and no row ends on a NaN knot. *)
Record valid_call (T : DataType) (c : OpKernelContext) (batch : list Z)
    (N M : Z) : Prop := {
  shapes : shaped_call c batch N M;
  M_pos : 1 ≤ M;
  numbers : ∀ k n, 0 ≤ k < num_elements batch → 0 ≤ n < N →
            no_nan T c N M k n = true }.

(** The call ran to its end, with the status it started with and these
    three outputs. *)
Definition returns (T : DataType) (c : OpKernelContext)
    (v a : Tensor spec_float) (inds : Tensor Z) : Prop :=
  ∃ c', Compute T c = Next tt c' ∧ status c' = status c ∧
        output_v c' = Some v ∧ output_a c' = Some a ∧
        output_inds c' = Some inds.

(** The product of the outer dimensions of [t], as the loop of lines 79-85
    computes it. *)
Definition batch_size (t : Tensor spec_float) : Z :=
  foldl (λ s k, s * default 0 (dim_size t k)) 1 (seqZ 0 (dims t - 1)).

(** Lines 92-146: what [Compute] does once the shapes are accepted. *)
Definition allocate_and_run (T : DataType) (t p x y : Tensor spec_float)
    (size N M : Z) : K unit :=
  (s <- allocate_output_0 (shape t) ;;
   OP_REQUIRES_OK s ;;
   s <- allocate_output_1 (shape t) ;;
   OP_REQUIRES_OK s ;;
   s <- allocate_output_2 (shape t) ;;
   OP_REQUIRES_OK s ;;
   for_K (row T t p x y N M) (seqZ 0 size) tt)%K.

(** ** Further predicates *)

(** The loop of [search_sorted] stopped after at most [k] iterations. *)
Fixpoint search_iter (k : nat) (x : cptr spec_float) (value : spec_float)
    (s : Z * Z) : option (Z * Z) :=
  match k with
  | O => Some s
  | S k' =>
      if decide (1 < s.2 - s.1)
      then s' ← search_body x value s; search_iter k' x value s'
      else Some s
  end.

(** The interior branch on the knots [idx - 1] and [idx] of row [k]: the
    search has seen that [xhi > w] holds and that [xlo > w] does not. *)
Definition interior_at (T : DataType) (x y v a : Tensor spec_float)
    (inds : Tensor Z) (N M k n : Z) (w : spec_float) (idx : Z)
    (xlo xhi ylo yhi : spec_float) : Prop :=
  1 ≤ idx ≤ M - 1 ∧
  search_sorted M (Cptr (flat x) (k * M)) w = Some idx ∧
  at2 x M k (idx - 1) = Some xlo ∧ at2 x M k idx = Some xhi ∧
  at2 y M k (idx - 1) = Some ylo ∧ at2 y M k idx = Some yhi ∧
  Tgt xlo w = false ∧ Tgt xhi w = true ∧
  let frac := fraction T w xlo xhi in
  at2 a N k n = Some frac ∧
  at2 v N k n = Some (blend T frac yhi ylo) ∧
  at2 inds N k n = Some idx.

(** The three branches of the query [n] of row [k], on the outputs, for
    the value [w] the branches compare. *)
Definition point_cases (T : DataType) (c : OpKernelContext)
    (v a : Tensor spec_float) (inds : Tensor Z)
    (N M k n : Z) (w x0 xl y0 yl : spec_float) : Prop :=
  (Tle w x0 = true ∧ at2 v N k n = Some y0 ∧ at2 inds N k n = Some 0 ∧
   at2 a N k n = Some (fresh_T c 1 (Z.to_nat (k * N + n)))) ∨
  (Tle w x0 = false ∧ Tge w xl = true ∧ at2 v N k n = Some yl ∧
   at2 inds N k n = Some (M + 1) ∧
   at2 a N k n = Some (fresh_T c 1 (Z.to_nat (k * N + n)))) ∨
  (Tle w x0 = false ∧ Tge w xl = false ∧
   ∃ idx xlo xhi ylo yhi,
     interior_at T (input_x c) (input_y c) v a inds N M k n w idx
       xlo xhi ylo yhi).

(** The five requirements of the kernel on the shapes of a call. *)
Definition requirements (c : OpKernelContext) : Prop :=
  let t := input_t c in let p := input_p c in
  let x := input_x c in let y := input_y c in
  1 ≤ dims t ∧ dims p = dims t - 1 ∧ dims x = dims t ∧ shape y = shape x ∧
  ∀ k, 0 ≤ k < dims t - 1 → dims_agree t p x k.

(** A shape that is fully known. *)
Definition known (sh : list Z) : ShapeHandle := Some (Some <$> sh).

(** The dimension [d] stands for the size [z]. *)
Definition dim_for (d : option Z) (z : Z) : Prop := d = None ∨ d = Some z.

(** The handle [s] stands for the shape [sh], among others. *)
Definition stands_for (s : ShapeHandle) (sh : list Z) : Prop :=
  match s with
  | None => True
  | Some ds => Forall2 dim_for ds sh
  end.

(** ** Sample calls *)

Section Samples.
Variable T : DataType.

(** The integer [z] and the half-integer [z / 2] in the type [T]. *)
Definition num (z : Z) : spec_float := lit T z 0.
Definition half (z : Z) : spec_float := lit T z (-1).

(** A runtime that allocates whatever is asked. *)
Definition plenty : Z → Status := λ _, OK.

(** A call on two rows of three queries and three knots; the first row has
    period 2, the second none.  The thread pool runs the block [[1, 3)]
    before the block [[0, 1)]. *)
Definition demo : OpKernelContext :=
  MkContext
    (MkTensor [2; 3] [half 5; half (-1); num 1; num (-1); half 1; num 7])
    (MkTensor [2] [num 2; num 0])
    (MkTensor [2; 3] [num 0; num 1; num 2; num 0; num 1; num 2])
    (MkTensor [2; 3] [num 0; num 1; num 2; num 0; num 10; num 20])
    None None None OK plenty
    (λ _ _, num (-7)) (λ _ _, -9)
    (λ total _, [(1, total); (0, 1)]).

(** One row of seven queries on four knots, without a period, run by one
    worker. *)
Definition scenario : OpKernelContext :=
  MkContext
    (MkTensor [1; 7] [num (-1); num 0; half 1; num 1; half 5; num 3; num 10])
    (MkTensor [1] [num 0])
    (MkTensor [1; 4] [num 0; num 1; num 2; num 3])
    (MkTensor [1; 4] [num 0; num 10; num 20; num 30])
    None None None OK plenty
    (λ _ _, num 0) (λ _ _, 0)
    (λ total _, [(0, total)]).

(** A call whose periods have the rank of the queries. *)
Definition bad_rank : OpKernelContext :=
  MkContext
    (MkTensor [1; 2] [half 5; half (-1)])
    (MkTensor [1; 1] [num 2])
    (MkTensor [1; 3] [num 0; num 1; num 2])
    (MkTensor [1; 3] [num 0; num 1; num 2])
    None None None OK plenty
    (λ _ _, num 0) (λ _ _, 0)
    (λ total _, [(0, total)]).

(** The rows of [demo] in the other order, run by one worker on other
    fresh memory. *)
Definition demo_swapped : OpKernelContext :=
  MkContext
    (MkTensor [2; 3] [num (-1); half 1; num 7; half 5; half (-1); num 1])
    (MkTensor [2] [num 0; num 2])
    (MkTensor [2; 3] [num 0; num 1; num 2; num 0; num 1; num 2])
    (MkTensor [2; 3] [num 0; num 10; num 20; num 0; num 1; num 2])
    None None None OK plenty
    (λ _ _, num 0) (λ _ _, 0)
    (λ total _, [(0, total)]).

(** One row of two queries on a single knot. *)
Definition one_knot : OpKernelContext :=
  MkContext
    (MkTensor [1; 2] [num 5; num (-3)]) (MkTensor [1] [num 0])
    (MkTensor [1; 1] [num 1]) (MkTensor [1; 1] [num 7])
    None None None OK plenty
    (λ _ _, num 0) (λ _ _, 0)
    (λ total _, [(0, total)]).

(** One row of two queries without a knot. *)
Definition no_knots : OpKernelContext :=
  MkContext
    (MkTensor [1; 2] [num 5; num (-3)]) (MkTensor [1] [num 0])
    (MkTensor [1; 0] []) (MkTensor [1; 0] [])
    None None None OK plenty
    (λ _ _, num 0) (λ _ _, 0)
    (λ total _, [(0, total)]).

(** Two rows without a query and without a knot. *)
Definition no_query : OpKernelContext :=
  MkContext
    (MkTensor [2; 0] []) (MkTensor [2] [num 1; num 0])
    (MkTensor [2; 0] []) (MkTensor [2; 0] [])
    None None None OK plenty
    (λ _ _, num 0) (λ _ _, 0)
    (λ total _, [(0, total)]).

(** Three queries of rank 1 with a scalar period. *)
Definition scalar_p : OpKernelContext :=
  MkContext
    (MkTensor [3] [half 5; half (-1); num 1]) (MkTensor [] [num 2])
    (MkTensor [3] [num 0; num 1; num 2]) (MkTensor [3] [num 0; num 1; num 2])
    None None None OK plenty
    (λ _ _, num 0) (λ _ _, 0)
    (λ total _, [(0, total)]).

(** One row with an infinite query and the period 2. *)
Definition inf_query : OpKernelContext :=
  MkContext
    (MkTensor [1; 1] [S754_infinity false]) (MkTensor [1] [num 2])
    (MkTensor [1; 3] [num 0; num 1; num 2])
    (MkTensor [1; 3] [num 0; num 1; num 2])
    None None None OK plenty
    (λ _ _, num 0) (λ _ _, 0)
    (λ total _, [(0, total)]).

(** The call [demo] on a runtime that allocates the first output and has
    no memory left for the second. *)
Definition out_of_memory : OpKernelContext :=
  MkContext
    (input_t demo) (input_p demo) (input_x demo) (input_y demo)
    None None None OK
    (λ i, if i =? 1 then OtherError 8 "OOM when allocating tensor" else OK)
    (λ _ _, num (-7)) (λ _ _, -9)
    (λ total _, [(0, total)]).

End Samples.

(** * Lemmas *)

(** Closes a side condition on concrete data by evaluation. *)
Ltac by_evaluation :=
  solve [ reflexivity
        | vm_compute; repeat split; (reflexivity || discriminate)
        | lia ].

(** Runs the [OP_REQUIRES] at the head of a sequence of statements. *)
Ltac require_step := unfold bind at 1; unfold OP_REQUIRES at 1.

(** ** Indices *)

Lemma probe_between low high :
  1 < high - low → low < (low + high) ÷ 2 < high.
Proof.
  intros Hgap. pose proof (Z.quot_rem' (low + high) 2) as Hqr.
  pose proof (Z.rem_bound_abs (low + high) 2) as Hr. lia.
Qed.

(** The probe and the sum it is computed from fit in [int64] for every
    array that fits in memory. *)
Lemma probe_in_int64 N low high :
  N < 2 ^ 62 → -1 ≤ low → high ≤ N → 1 < high - low →
  - 2 ^ 63 ≤ low + high < 2 ^ 63 ∧ 0 ≤ (low + high) ÷ 2 < N.
Proof.
  intros HN Hlow Hhigh Hgap. pose proof (probe_between low high Hgap). lia.
Qed.

(** ** The order of the numbers *)

(** The cases of a comparison of two numbers. *)
Ltac compare_cases a b :=
  destruct a as [[|]|[|]| |[|] ?m ?e], b as [[|]|[|]| |[|] ?m ?e];
  cbn -[Z.compare Z.lt Z.le Z.opp];
  try match goal with
      | |- context [(?e1 ?= ?e2)] =>
          destruct (Z.compare_spec e1 e2);
          [ match goal with
            | |- context [Pos.compare_cont Eq ?m1 ?m2] =>
                change (Pos.compare_cont Eq m1 m2) with (Pos.compare m1 m2);
                destruct (Pos.compare_spec m1 m2)
            end | | ]
      end;
  cbn -[Z.lt Z.le Z.opp].

Lemma SFltb_key a b :
  SFltb a b = true ↔ is_nan a = false ∧ is_nan b = false ∧ key_lt (key a) (key b).
Proof.
  unfold SFltb, SFcompare, key_lt. compare_cases a b;
    (split; [intros; try discriminate; repeat split; try reflexivity; lia
            | intros (? & ? & ?); try discriminate; try reflexivity; lia]).
Qed.

Lemma SFleb_key a b :
  SFleb a b = true ↔ is_nan a = false ∧ is_nan b = false ∧ key_le (key a) (key b).
Proof.
  unfold SFleb, SFcompare, key_le. compare_cases a b;
    (split; [intros; try discriminate; repeat split; try reflexivity; lia
            | intros (? & ? & ?); try discriminate; try reflexivity; lia]).
Qed.

Lemma SFeqb_key a b :
  SFeqb a b = true ↔ is_nan a = false ∧ is_nan b = false ∧ key a = key b.
Proof.
  unfold SFeqb, SFcompare. compare_cases a b;
    (split; [intros; try discriminate; repeat split; try reflexivity;
             repeat f_equal; lia
            | intros (? & ? & [= ]); try discriminate; try reflexivity; lia]).
Qed.

(** Decides a fact about the order of numbers from the facts at hand. *)
Ltac order :=
  unfold Tle, Tge, Tgt, Teq in *;
  repeat match goal with
         | H : SFltb _ _ = false |- _ => apply not_true_iff_false in H
         | H : SFleb _ _ = false |- _ => apply not_true_iff_false in H
         | H : SFeqb _ _ = false |- _ => apply not_true_iff_false in H
         | |- SFltb _ _ = false => apply not_true_iff_false
         | |- SFleb _ _ = false => apply not_true_iff_false
         | |- SFeqb _ _ = false => apply not_true_iff_false
         end;
  rewrite ?SFltb_key, ?SFleb_key, ?SFeqb_key in *;
  unfold key_lt, key_le in *;
  repeat match goal with
         | |- context [key ?a] =>
             let k := fresh "k" in let E := fresh "E" in
             remember (key a) as k eqn:E; clear E; destruct k as [[? ?] ?]
         | H : context [key ?a] |- _ =>
             let k := fresh "k" in let E := fresh "E" in
             remember (key a) as k eqn:E; clear E; destruct k as [[? ?] ?]
         end;
  repeat match goal with
         | |- context [is_nan ?a] =>
             let b := fresh "b" in let E := fresh "E" in
             remember (is_nan a) as b eqn:E; clear E; destruct b
         | H : context [is_nan ?a] |- _ =>
             let b := fresh "b" in let E := fresh "E" in
             remember (is_nan a) as b eqn:E; clear E; destruct b
         end;
  cbn [fst snd] in *;
  intuition (simplify_eq; try discriminate; try lia; try (repeat f_equal; lia)).

Lemma Tgt_Tle a b : Tgt a b = true → Tle a b = false.
Proof. intros. order. Qed.

Lemma Tgt_Tge a b : Tgt a b = true → Tge a b = true.
Proof. intros. order. Qed.

(** Two numbers that are not NaN compare one way or the other. *)
Lemma Tle_total a b :
  is_nan a = false → is_nan b = false → Tle a b = false → Tgt a b = true.
Proof. intros. order. Qed.

Lemma Tgt_total a b :
  is_nan a = false → is_nan b = false → Tgt a b = false → Tle a b = true.
Proof. intros. order. Qed.

Lemma Tgt_not_nan a b : Tgt a b = true → is_nan a = false ∧ is_nan b = false.
Proof. intros. order. Qed.

Lemma Tle_not_nan a b : Tle a b = true → is_nan a = false ∧ is_nan b = false.
Proof. intros. order. Qed.

Lemma Tle_refl a : is_nan a = false → Tle a a = true.
Proof. intros. order. Qed.

Lemma Tle_trans a b c : Tle a b = true → Tle b c = true → Tle a c = true.
Proof. intros. order. Qed.

Lemma Tgt_trans a b c : Tgt b a = true → Tgt c b = true → Tgt c a = true.
Proof. intros. order. Qed.

Lemma Tle_Tgt_trans a b c : Tle a b = true → Tgt c b = true → Tgt c a = true.
Proof. intros. order. Qed.

Lemma Tgt_Tle_trans a b c : Tgt b a = true → Tle b c = true → Tgt c a = true.
Proof. intros. order. Qed.

Lemma Teq_Tgt_l a b c : Teq a b = true → Tgt a c = Tgt b c.
Proof. intros. destruct (Tgt b c) eqn:E; order. Qed.

Lemma Teq_Tgt_r a b c : Teq a b = true → Tgt c a = Tgt c b.
Proof. intros. destruct (Tgt c b) eqn:E; order. Qed.


Lemma Teq_nan a b : is_nan a = true → Teq a b = false.
Proof. intros. order. Qed.

(** ** Memory *)

Lemma load_array_at {A} (p : cptr A) row i :
  array_at p row → 0 ≤ i < Z.of_nat (length row) →
  load p i = row !! Z.to_nat i.
Proof.
  intros [Hoff Hrow] Hi. unfold load, rd.
  destruct (Z.ltb_spec (off p + i) 0) as [|_]; [lia|].
  transitivity (take (length row) (drop (Z.to_nat (off p)) (buf p))
                  !! Z.to_nat i); [|rewrite Hrow; reflexivity].
  rewrite lookup_take_lt by lia.
  rewrite lookup_drop. f_equal. lia.
Qed.

Lemma load_array_at_Some {A} (p : cptr A) row i :
  array_at p row → 0 ≤ i < Z.of_nat (length row) → is_Some (load p i).
Proof.
  intros Ha Hi. rewrite (load_array_at p row i Ha Hi).
  apply lookup_lt_is_Some. lia.
Qed.

Lemma rd_list {A} (xs : list A) i : 0 ≤ i → rd xs i = xs !! Z.to_nat i.
Proof. intros Hi. unfold rd. destruct (Z.ltb_spec i 0); [lia | reflexivity]. Qed.

Lemma load_array_rd {A} (x : cptr A) xs i :
  array_at x xs → 0 ≤ i < Z.of_nat (length xs) → load x i = rd xs i.
Proof.
  intros Ha Hi. rewrite (load_array_at x xs i Ha Hi), rd_list by lia. reflexivity.
Qed.

Lemma array_at_list {A} (xs : list A) : array_at (Cptr xs 0) xs.
Proof. split; [simpl; lia|]. simpl. apply firstn_all. Qed.

(** ** The search *)

Section Search.
Variables (x : cptr spec_float) (value : spec_float).

Lemma search_loop_eq low high :
  search_loop x value low high =
    if decide (1 < high - low) then
      s ← search_body x value (low, high); search_loop x value s.1 s.2
    else Some high.
Proof.
  rewrite search_loop_equation_1. unfold search_body.
  destruct (Z_lt_dec 1 (high - low)) as [Hc|Hc]; simpl.
  - rewrite decide_True by assumption.
    destruct (load x ((low + high) ÷ 2)) as [v|]; simpl; [|reflexivity].
    destruct (Tgt v value); reflexivity.
  - rewrite decide_False by assumption. reflexivity.
Qed.

(** From a state inside the array the loop returns an index [r] of
    [(low, high]]; the test [x[r] > value] has held unless [r] is the
    initial [high], the test [x[r-1] > value] has failed unless [r - 1] is
    the initial [low]. *)
Lemma search_loop_spec N :
  (∀ i, 0 ≤ i < N → is_Some (load x i)) →
  ∀ low high, -1 ≤ low → low < high → high ≤ N →
  ∃ r, search_loop x value low high = Some r ∧ low < r ≤ high ∧
       (r = high ∨ ∃ v, load x r = Some v ∧ Tgt v value = true) ∧
       (r - 1 = low ∨ ∃ v, load x (r - 1) = Some v ∧ Tgt v value = false).
Proof.
  intros Hx low high. remember (Z.to_nat (high - low)) as d eqn:Hd.
  revert low high Hd.
  induction d as [d IH] using lt_wf_ind. intros low high Hd Hlow Hlt Hhigh.
  rewrite search_loop_eq. destruct (decide (1 < high - low)) as [Hc|Hc].
  - pose proof (probe_between low high Hc) as Hp. unfold search_body.
    destruct (Hx ((low + high) ÷ 2)) as [v Hv]; [lia|]. rewrite Hv. simpl.
    destruct (Tgt v value) eqn:Hcmp; simpl.
    + destruct (IH (Z.to_nat ((low + high) ÷ 2 - low))) with (low := low)
        (high := (low + high) ÷ 2) as (r & Hr & Hb & Hhi & Hlo);
        [lia | reflexivity | lia | lia | lia |].
      exists r. repeat split; [exact Hr | lia | lia | | exact Hlo].
      destruct Hhi as [->|Hhi]; [|right; exact Hhi].
      right. exists v. split; assumption.
    + destruct (IH (Z.to_nat (high - (low + high) ÷ 2)))
        with (low := (low + high) ÷ 2) (high := high)
        as (r & Hr & Hb & Hhi & Hlo);
        [lia | reflexivity | lia | lia | lia |].
      exists r. repeat split; [exact Hr | lia | lia | exact Hhi |].
      destruct Hlo as [Hlo|Hlo]; [|right; exact Hlo].
      right. exists v. rewrite Hlo. split; assumption.
  - exists high. repeat split; [lia | lia | left; reflexivity | left; lia].
Qed.

Lemma search_iter_bound N :
  (∀ i, 0 ≤ i < N → is_Some (load x i)) →
  ∀ k low high, -1 ≤ low → low < high → high ≤ N →
    high - low ≤ 2 ^ Z.of_nat k →
    ∃ l r, search_iter k x value (low, high) = Some (l, r) ∧ r - l ≤ 1 ∧
           search_loop x value low high = Some r.
Proof.
  intros Hx k. induction k as [|k IH]; intros low high Hlow Hlt Hhigh Hgap.
  - exists low, high. simpl in *. split; [reflexivity|]. split; [lia|].
    rewrite search_loop_eq, decide_False by lia. reflexivity.
  - rewrite search_loop_eq. cbn [search_iter fst snd].
    destruct (decide (1 < high - low)) as [Hc|Hc].
    + pose proof (probe_between low high Hc) as Hp.
      pose proof (Z.quot_rem' (low + high) 2) as Hqr.
      pose proof (Z.rem_bound_abs (low + high) 2) as Hrem.
      assert (2 ^ Z.of_nat (S k) = 2 * 2 ^ Z.of_nat k) as Hpow
        by (rewrite Nat2Z.inj_succ, Z.pow_succ_r by lia; reflexivity).
      unfold search_body.
      destruct (Hx ((low + high) ÷ 2)) as [v Hv]; [lia|]. rewrite Hv. simpl.
      destruct (Tgt v value); simpl; apply IH; lia.
    + exists low, high. split; [reflexivity|]. split; [lia | reflexivity].
Qed.

End Search.

(** The search reads the array between [low] and [high] only. *)
Lemma search_loop_ext (x x' : cptr spec_float) (value : spec_float) :
  ∀ low high,
  (∀ i, low < i < high → load x i = load x' i) →
  search_loop x value low high = search_loop x' value low high.
Proof.
  intros low high. remember (Z.to_nat (high - low)) as d eqn:Hd.
  revert low high Hd. induction d as [d IH] using lt_wf_ind.
  intros low high Hd Hx. rewrite !search_loop_eq.
  destruct (decide (1 < high - low)) as [Hc|Hc]; [|reflexivity].
  pose proof (probe_between low high Hc) as Hp. unfold search_body.
  rewrite <- (Hx _ Hp). destruct (load x ((low + high) ÷ 2)) as [v|]; simpl;
    [|reflexivity].
  destruct (Tgt v value); simpl.
  - apply (IH (Z.to_nat ((low + high) ÷ 2 - low))); [lia | reflexivity|].
    intros i Hi. apply Hx. lia.
  - apply (IH (Z.to_nat (high - (low + high) ÷ 2))); [lia | reflexivity|].
    intros i Hi. apply Hx. lia.
Qed.

(** The search started by the kernel stays inside the row when the value
    compares with the first or the last knot, whether or not the knots are
    sorted. *)
Lemma search_sorted_bracket x value M x0 xl :
  (∀ i, 0 ≤ i < M → is_Some (load x i)) → 1 ≤ M →
  load x 0 = Some x0 → load x (M - 1) = Some xl →
  Tle value x0 = false → Tgt xl value = true →
  ∃ ind xlo xhi, search_sorted M x value = Some ind ∧ 1 ≤ ind ≤ M - 1 ∧
    load x (ind - 1) = Some xlo ∧ load x ind = Some xhi ∧
    Tgt xlo value = false ∧ Tgt xhi value = true.
Proof.
  intros Hx HM H0 Hl Hlo Hhi.
  destruct (search_loop_spec x value M Hx (-1) M) as (r & Hr & Hb & Hup & Hdn);
    [lia | lia | lia |].
  assert (r ≠ 0) as Hr0.
  { intros ->. destruct Hup as [?|(v & Hv & Hgt)]; [lia|].
    rewrite H0 in Hv. injection Hv as <-.
    apply Tgt_Tge in Hgt. unfold Tge, Tle in *. congruence. }
  assert (r ≠ M) as HrM.
  { intros ->. destruct Hdn as [?|(v & Hv & Hle)]; [lia|].
    rewrite Hl in Hv. injection Hv as <-. congruence. }
  destruct Hup as [?|(xhi & Hxhi & Hgt)]; [lia|].
  destruct Hdn as [?|(xlo & Hxlo & Hle)]; [lia|].
  exists r, xlo, xhi. unfold search_sorted. repeat split; auto; lia.
Qed.

(** ** Reads and writes *)

Lemma wr_Some {A} (l l' : list A) i a :
  wr l i a = Some l' ↔ inb l i ∧ l' = <[Z.to_nat i := a]> l.
Proof.
  unfold wr, inb.
  destruct (Z.leb_spec 0 i), (Z.ltb_spec i (Z.of_nat (length l))); simpl;
    split; try (intros [? ?]; lia); try discriminate.
  - intros [= <-]. split; [lia | reflexivity].
  - intros [_ ->]. reflexivity.
Qed.

Lemma wr_inb {A} (l : list A) i a : inb l i → wr l i a = Some (<[Z.to_nat i := a]> l).
Proof. intros H. apply wr_Some. split; [exact H | reflexivity]. Qed.

Lemma wr_None {A} (l : list A) i a : ¬ inb l i → wr l i a = None.
Proof.
  intros H. destruct (wr l i a) as [l'|] eqn:E; [|reflexivity].
  apply wr_Some in E. tauto.
Qed.

Lemma inb_dec {A} (l : list A) i : {inb l i} + {¬ inb l i}.
Proof. unfold inb. destruct (decide (0 ≤ i < Z.of_nat (length l))); [left|right]; assumption. Qed.

Lemma length_wr {A} (l l' : list A) i a : wr l i a = Some l' → length l' = length l.
Proof. intros [_ ->]%wr_Some. apply length_insert. Qed.

Lemma rd_wr {A} (l l' : list A) i a j :
  wr l i a = Some l' → rd l' j = if decide (j = i) then Some a else rd l j.
Proof.
  intros [Hi ->]%wr_Some. unfold rd, inb in *.
  destruct (decide (j = i)) as [->|Hne].
  - destruct (Z.ltb_spec i 0); [lia|].
    apply list_lookup_insert_eq. lia.
  - destruct (Z.ltb_spec j 0); [reflexivity|].
    apply list_lookup_insert_ne. lia.
Qed.

Lemma rd_inb {A} (l : list A) i : inb l i ↔ is_Some (rd l i).
Proof.
  unfold rd, inb. destruct (Z.ltb_spec i 0).
  - split; [lia | intros [? [=]]].
  - rewrite lookup_lt_is_Some. lia.
Qed.

Lemma rd_ext {A} (l l' : list A) : (∀ j, rd l j = rd l' j) → l = l'.
Proof.
  intros H. apply list_eq. intros i. specialize (H (Z.of_nat i)).
  unfold rd in H. destruct (Z.ltb_spec (Z.of_nat i) 0); [lia|].
  rewrite Nat2Z.id in H. exact H.
Qed.

Lemma rd_ext_length {A} (l l' : list A) :
  length l = length l' →
  (∀ j, 0 ≤ j < Z.of_nat (length l') → rd l j = rd l' j) → l = l'.
Proof.
  intros Hlen H. apply rd_ext. intros j.
  destruct (decide (0 ≤ j < Z.of_nat (length l'))) as [Hj|Hj]; [apply H, Hj|].
  destruct (rd l j) eqn:E1.
  { exfalso. apply Hj. rewrite <- Hlen. apply rd_inb. eauto. }
  destruct (rd l' j) eqn:E2; [|reflexivity].
  exfalso. apply Hj. apply rd_inb. eauto.
Qed.

(** Writes at distinct indices commute. *)
Lemma wr_comm {A} (l : list A) i a j b :
  i ≠ j → (wr l i a ≫= λ l', wr l' j b) = (wr l j b ≫= λ l', wr l' i a).
Proof.
  intros Hne.
  destruct (inb_dec l i) as [Hi|Hi], (inb_dec l j) as [Hj|Hj].
  - rewrite (wr_inb l i a Hi), (wr_inb l j b Hj). simpl.
    rewrite !wr_inb by (unfold inb in *; rewrite length_insert; lia).
    f_equal. symmetry. apply list_insert_insert_ne. unfold inb in *. lia.
  - rewrite (wr_inb l i a Hi), (wr_None l j b Hj). simpl.
    apply wr_None. unfold inb in *. rewrite length_insert. exact Hj.
  - rewrite (wr_None l i a Hi), (wr_inb l j b Hj). simpl.
    symmetry. apply wr_None. unfold inb in *. rewrite length_insert. exact Hi.
  - rewrite (wr_None l i a Hi), (wr_None l j b Hj). reflexivity.
Qed.

Lemma wr_opt_comm {A} (l : list A) i a j b :
  i ≠ j → (wr_opt l i a ≫= λ l', wr_opt l' j b) = (wr_opt l j b ≫= λ l', wr_opt l' i a).
Proof.
  intros Hne. destruct a as [a|], b as [b|]; simpl.
  - apply wr_comm, Hne.
  - destruct (wr l i a); reflexivity.
  - destruct (wr l j b); reflexivity.
  - reflexivity.
Qed.

Lemma upd3_seq f g h f' g' h' st :
  upd3 f g h st ≫= upd3 f' g' h' =
  upd3 (λ l, f l ≫= f') (λ l, g l ≫= g') (λ l, h l ≫= h') st.
Proof.
  unfold upd3. destruct (f (v_buf st)) as [lv|]; simpl.
  - destruct (g (a_buf st)) as [la|]; simpl.
    + destruct (h (inds_buf st)) as [li|]; simpl; [reflexivity|].
      destruct (f' lv); simpl; [|reflexivity]. destruct (g' la); reflexivity.
    + destruct (f' lv); reflexivity.
  - reflexivity.
Qed.

Lemma upd3_ext f g h f' g' h' st :
  f (v_buf st) = f' (v_buf st) → g (a_buf st) = g' (a_buf st) →
  h (inds_buf st) = h' (inds_buf st) → upd3 f g h st = upd3 f' g' h' st.
Proof. unfold upd3. intros -> -> ->. reflexivity. Qed.

Lemma upd3_Some f g h st st' :
  upd3 f g h st = Some st' →
  f (v_buf st) = Some (v_buf st') ∧ g (a_buf st) = Some (a_buf st') ∧
  h (inds_buf st) = Some (inds_buf st').
Proof.
  unfold upd3. destruct (f _), (g _), (h _); simpl; try discriminate.
  intros [= <-]. auto.
Qed.

Lemma wr_opt_length {A} (l l' : list A) i o :
  wr_opt l i o = Some l' → length l' = length l.
Proof. destruct o; simpl; [apply length_wr | intros [= ->]; reflexivity]. Qed.

Lemma rd_wr_opt {A} (l l' : list A) i o j :
  wr_opt l i o = Some l' →
  rd l' j = if decide (j = i) then from_option Some (rd l j) o else rd l j.
Proof.
  destruct o as [a|]; simpl.
  - apply rd_wr.
  - intros [= ->]. destruct (decide (j = i)); reflexivity.
Qed.

Lemma commit_comm c n r m r' st :
  n ≠ m →
  commit c n r st ≫= commit c m r' = commit c m r' st ≫= commit c n r.
Proof.
  intros Hne. unfold commit. rewrite !upd3_seq.
  apply upd3_ext; [apply wr_comm | apply wr_opt_comm | apply wr_comm]; lia.
Qed.

Lemma commit_spec c n r st st' :
  commit c n r st = Some st' →
  same_size st st' ∧
  (∀ j, rd (v_buf st') j =
        if decide (j = vk c + n) then Some (cell_v r) else rd (v_buf st) j) ∧
  (∀ j, rd (a_buf st') j =
        if decide (j = ak c + n) then from_option Some (rd (a_buf st) j) (cell_a r)
        else rd (a_buf st) j) ∧
  (∀ j, rd (inds_buf st') j =
        if decide (j = indsk c + n) then Some (cell_inds r)
        else rd (inds_buf st) j).
Proof.
  unfold commit. intros (Hv & Ha & Hi)%upd3_Some. repeat split.
  - eapply length_wr, Hv.
  - eapply wr_opt_length, Ha.
  - eapply length_wr, Hi.
  - intros j. eapply rd_wr, Hv.
  - intros j. eapply rd_wr_opt, Ha.
  - intros j. eapply rd_wr, Hi.
Qed.

Lemma commit_is_Some c n r st :
  inb (v_buf st) (vk c + n) → inb (a_buf st) (ak c + n) →
  inb (inds_buf st) (indsk c + n) → is_Some (commit c n r st).
Proof.
  intros Hv Ha Hi. unfold commit, upd3.
  rewrite (wr_inb _ _ _ Hv). simpl.
  destruct (cell_a r) as [a|]; simpl; [rewrite (wr_inb _ _ _ Ha)|];
    simpl; rewrite (wr_inb _ _ _ Hi); simpl; eauto.
Qed.

Lemma outputs_ok_same_size c N st st' :
  same_size st st' → outputs_ok c N st → outputs_ok c N st'.
Proof.
  intros (L1 & L2 & L3) Ho n Hn. destruct (Ho n Hn) as (? & ? & ?).
  unfold inb in *. rewrite L1, L2, L3. auto.
Qed.

(** ** Loops *)

Lemma for_each_app {I S} (body : I → S → option S) l1 l2 s :
  for_each body (l1 ++ l2) s = for_each body l1 s ≫= for_each body l2.
Proof.
  revert s. induction l1 as [|n l1 IH]; intros s; simpl; [reflexivity|].
  destruct (body n s) as [s'|]; simpl; [apply IH | reflexivity].
Qed.

(** A loop whose iterations commute does not depend on their order. *)
Lemma for_each_perm {I S} (body : I → S → option S) l1 l2 :
  (∀ n m s, n ∈ l1 → m ∈ l1 → n ≠ m → body n s ≫= body m = body m s ≫= body n) →
  NoDup l1 → l1 ≡ₚ l2 → ∀ s, for_each body l1 s = for_each body l2 s.
Proof.
  intros Hcomm Hnd Hp. revert Hcomm Hnd.
  induction Hp as [|x l l' Hp IH|x y l|l l' l'' Hp1 IH1 Hp2 IH2];
    intros Hcomm Hnd s.
  - reflexivity.
  - simpl. destruct (body x s) as [s'|]; simpl; [|reflexivity].
    apply IH.
    + intros n m s0 Hn Hm. apply Hcomm; right; assumption.
    + eapply NoDup_cons_1_2, Hnd.
  - simpl. 
    assert (y ≠ x) as Hne.
    { apply NoDup_cons_1_1 in Hnd. intros ->. apply Hnd. left. }
    pose proof (Hcomm y x s ltac:(left) ltac:(right; left) Hne) as Hc.
    destruct (body y s) as [s1|] eqn:E1, (body x s) as [s2|] eqn:E2; simpl in *.
    + destruct (body x s1) as [s3|] eqn:E3, (body y s2) as [s4|] eqn:E4;
        simpl; try discriminate; try reflexivity.
      injection Hc as ->. reflexivity.
    + rewrite Hc. reflexivity.
    + rewrite <- Hc. reflexivity.
    + reflexivity.
  - rewrite IH1 by assumption. apply IH2.
    + intros n m s0 Hn Hm. apply Hcomm; rewrite Hp1; assumption.
    + rewrite <- Hp1. exact Hnd.
Qed.

Lemma elem_of_seqZ k m n : k ∈ seqZ m n ↔ m ≤ k < m + n.
Proof.
  rewrite list_elem_of_lookup. split.
  - intros [i Hi]. apply lookup_seqZ in Hi. lia.
  - intros Hk. exists (Z.to_nat (k - m)). apply lookup_seqZ. lia.
Qed.

(** ** Sharding *)

Lemma ranges_cons b blocks :
  ranges (b :: blocks) = seqZ b.1 (b.2 - b.1) ++ ranges blocks.
Proof. reflexivity. Qed.

Lemma tiling_ranges sorted : ∀ a b,
  tiling a b sorted = true → a ≤ b ∧ ranges sorted = seqZ a (b - a).
Proof.
  induction sorted as [|[s e] rest IH]; intros a b Ht; simpl in Ht.
  - apply Z.eqb_eq in Ht as ->. rewrite Z.sub_diag. split; [lia | reflexivity].
  - apply andb_true_iff in Ht as [Ht Hrest]. apply andb_true_iff in Ht as [Hs He].
    apply Z.eqb_eq in Hs as ->. apply Z.leb_le in He.
    destruct (IH e b Hrest) as [Hle Hr]. split; [lia|].
    rewrite ranges_cons, Hr. simpl.
    replace (b - a) with ((e - a) + (b - e)) by lia.
    rewrite seqZ_app by lia. do 2 f_equal. lia.
Qed.

Lemma sharding_ranges total blocks :
  sharding total blocks → ranges blocks ≡ₚ seqZ 0 total.
Proof.
  intros (sorted & Hp & Ht). apply tiling_ranges in Ht as [_ Hr].
  rewrite Z.sub_0_r in Hr. rewrite <- Hr. unfold ranges. rewrite Hp. reflexivity.
Qed.

Lemma one_block N : 0 ≤ N → sharding N [(0, N)].
Proof.
  intros HN. exists [(0, N)]. split; [reflexivity|]. simpl.
  rewrite Z.eqb_refl. destruct (Z.leb_spec 0 N); [reflexivity | lia].
Qed.

(** ** The body of [work] as a value and its writes *)

Section Body.
Variable T : DataType.

(** The body is its reads and arithmetic followed by its writes. *)
Lemma work_body_eval c n st :
  work_body T c n st = r ← eval T c n; commit c n r st.
Proof.
  unfold work_body, eval, commit, upd3, wr_opt, store_v, store_a, store_inds.
  repeat (simpl; match goal with
          | |- context [load ?p ?i] => destruct (load p i); simpl; try reflexivity
          | |- context [search_sorted ?a ?b ?d] => destruct (search_sorted a b d); simpl; try reflexivity
          | |- context [if ?b then _ else _] => destruct b; simpl; try reflexivity
          | |- context [wr ?l ?i ?a] => destruct (wr l i a); simpl; try reflexivity
          end).
Qed.

(** Two iterations of the body on distinct queries commute, also when one
    of them reads or writes out of bounds. *)
Lemma work_body_comm c n m st :
  n ≠ m →
  work_body T c n st ≫= work_body T c m = work_body T c m st ≫= work_body T c n.
Proof.
  intros Hne.
  rewrite (work_body_eval c n st), (work_body_eval c m st).
  destruct (eval T c n) as [r|] eqn:En, (eval T c m) as [r'|] eqn:Em; simpl.
  - transitivity (commit c n r st ≫= commit c m r').
    { destruct (commit c n r st) as [s|]; simpl; [|reflexivity].
      rewrite work_body_eval, Em. reflexivity. }
    rewrite (commit_comm c n r m r' st Hne).
    destruct (commit c m r' st) as [s|]; simpl; [|reflexivity].
    rewrite work_body_eval, En. reflexivity.
  - destruct (commit c n r st) as [s|]; simpl; [|reflexivity].
    rewrite work_body_eval, Em. reflexivity.
  - destruct (commit c m r' st) as [s|]; simpl; [|reflexivity].
    rewrite work_body_eval, En. reflexivity.
  - reflexivity.
Qed.

Lemma Shard_ranges c blocks st :
  Shard blocks (work T c) st = for_each (work_body T c) (ranges blocks) st.
Proof.
  unfold Shard. revert st.
  induction blocks as [|b blocks IH]; intros st; [reflexivity|].
  rewrite ranges_cons, for_each_app. simpl. unfold work.
  destruct (for_each (work_body T c) (seqZ b.1 (b.2 - b.1)) st) as [s|]; simpl;
    [exact (IH s) | reflexivity].
Qed.

(** The blocks of a sharding, in any order, do what one block does. *)
Lemma Shard_work c total blocks st :
  sharding total blocks → Shard blocks (work T c) st = work T c 0 total st.
Proof.
  intros Hs. rewrite Shard_ranges. unfold work. rewrite Z.sub_0_r.
  symmetry. apply for_each_perm.
  - intros n m s _ _ Hne. apply work_body_comm, Hne.
  - apply NoDup_seqZ.
  - symmetry. apply sharding_ranges, Hs.
Qed.

(** ** What a run of the loop leaves in the buffers *)

(** The three cases of a cell [j] of a buffer written at [base + n] and
    then by the iterations [ns]: it is the cell of [n], the cell of one of
    [ns], or another cell. *)
Ltac cell_case base n Hn Er :=
  match goal with
  | |- context [decide (?j = base + n)] =>
      destruct (decide (j = base + n)) as [->|?];
      [ replace (base + n - base) with n by lia;
        rewrite decide_False by exact Hn;
        rewrite decide_True by left; rewrite Er; reflexivity
      | match goal with
        | |- context [decide (?e ∈ ?l)] =>
            destruct (decide (e ∈ l));
            [ rewrite decide_True by (right; assumption); reflexivity
            | rewrite decide_False; [reflexivity|];
              intros [?|?]%elem_of_cons; [lia | tauto] ]
        end ]
  end.

(** A run of the body over distinct indices [ns] leaves in each buffer the
    value of each index of [ns] and leaves the other cells alone. *)
Lemma for_each_spec c ns : ∀ st st',
  NoDup ns → for_each (work_body T c) ns st = Some st' →
  same_size st st' ∧
  (∀ j, rd (v_buf st') j =
        if decide (j - vk c ∈ ns) then cell_v <$> eval T c (j - vk c)
        else rd (v_buf st) j) ∧
  (∀ j, rd (a_buf st') j =
        if decide (j - ak c ∈ ns)
        then from_option Some (rd (a_buf st) j) (eval T c (j - ak c) ≫= cell_a)
        else rd (a_buf st) j) ∧
  (∀ j, rd (inds_buf st') j =
        if decide (j - indsk c ∈ ns) then cell_inds <$> eval T c (j - indsk c)
        else rd (inds_buf st) j).
Proof.
  induction ns as [|n ns IH]; intros st st' Hnd Hrun; simpl in Hrun.
  - injection Hrun as <-. unfold same_size.
    repeat split; intros j; rewrite decide_False; auto; apply not_elem_of_nil.
  - rewrite work_body_eval in Hrun.
    destruct (eval T c n) as [r|] eqn:Er; simpl in Hrun; [|discriminate].
    destruct (commit c n r st) as [st1|] eqn:Ec; simpl in Hrun; [|discriminate].
    pose proof (NoDup_cons_1_1 _ _ Hnd) as Hn.
    destruct (commit_spec _ _ _ _ _ Ec) as ((L1 & L2 & L3) & Cv & Ca & Ci).
    destruct (IH st1 st' (NoDup_cons_1_2 _ _ Hnd) Hrun)
      as ((M1 & M2 & M3) & Iv & Ia & Ii).
    split; [unfold same_size; repeat split; congruence|].
    repeat split; intros j.
    + rewrite Iv, Cv. cell_case (vk c) n Hn Er.
    + rewrite Ia, Ca. cell_case (ak c) n Hn Er.
    + rewrite Ii, Ci. cell_case (indsk c) n Hn Er.
Qed.

(** The three branches of an iteration on a row that can be read, for a
    wrapped query and a last knot that are not NaN: the loads succeed, and
    in the third branch the search returns an index of [[1, M-1]]. *)
Lemma eval_cases c N n tv :
  inputs_ok c N → load (tk c) n = Some tv → comparable T c n = true →
  let w := wrap T (flag c) (period c) tv in
  ∃ x0 xl y0 yl,
    load (xk c) 0 = Some x0 ∧ load (xk c) (cM c - 1) = Some xl ∧
    load (yk c) 0 = Some y0 ∧ load (yk c) (cM c - 1) = Some yl ∧
    ((Tle w x0 = true ∧ eval T c n = Some (MkCell y0 None 0)) ∨
     (Tle w x0 = false ∧ Tge w xl = true ∧
      eval T c n = Some (MkCell yl None (cM c + 1))) ∨
     (Tle w x0 = false ∧ Tge w xl = false ∧
      ∃ ind xlo xhi ylo yhi,
        search_sorted (cM c) (xk c) w = Some ind ∧ 1 ≤ ind ≤ cM c - 1 ∧
        load (xk c) (ind - 1) = Some xlo ∧ load (xk c) ind = Some xhi ∧
        load (yk c) (ind - 1) = Some ylo ∧ load (yk c) ind = Some yhi ∧
        Tgt xlo w = false ∧ Tgt xhi w = true ∧
        eval T c n = Some (interp T w xlo xhi ylo yhi ind))).
Proof.
  intros (HM & Ht & Hx & Hy) Htv Hcmp w.
  destruct (Hx 0) as [x0 Hx0]; [lia|]. destruct (Hx (cM c - 1)) as [xl Hxl]; [lia|].
  destruct (Hy 0) as [y0 Hy0]; [lia|]. destruct (Hy (cM c - 1)) as [yl Hyl]; [lia|].
  exists x0, xl, y0, yl. repeat (split; [assumption|]).
  unfold comparable in Hcmp. rewrite Htv, Hxl in Hcmp. fold w in Hcmp.
  apply andb_true_iff in Hcmp as [Hw Hl]. apply negb_true_iff in Hw, Hl.
  unfold eval. rewrite Htv. simpl. fold w. rewrite Hx0. simpl.
  destruct (Tle w x0) eqn:Hlo.
  { left. rewrite Hy0. auto. }
  right. rewrite Hxl. simpl. destruct (Tge w xl) eqn:Hhi.
  { left. rewrite Hyl. auto. }
  right. repeat (split; [reflexivity|]).
  assert (Tgt xl w = true) as Hgt by (apply Tle_total; assumption).
  destruct (search_sorted_bracket (xk c) w (cM c) x0 xl Hx HM Hx0 Hxl Hlo Hgt)
    as (ind & xlo & xhi & Hs & Hind & Hxlo & Hxhi & Hle & Hlt).
  destruct (Hy (ind - 1)) as [ylo Hylo]; [lia|].
  destruct (Hy ind) as [yhi Hyhi]; [lia|].
  exists ind, xlo, xhi, ylo, yhi.
  rewrite Hs. simpl. rewrite Hxlo. simpl. rewrite Hxhi. simpl.
  rewrite Hyhi. simpl. rewrite Hylo. simpl.
  repeat split; auto; lia.
Qed.

Lemma eval_is_Some c N n :
  inputs_ok c N → 0 ≤ n < N → comparable T c n = true → is_Some (eval T c n).
Proof.
  intros Hin Hn Hcmp. pose proof Hin as (_ & Ht & _). destruct (Ht n Hn) as [tv Htv].
  destruct (eval_cases c N n tv Hin Htv Hcmp)
    as (x0 & xl & y0 & yl & _ & _ & _ & _ & [[_ H]|[(_ & _ & H)|(_ & _ & H)]]).
  - rewrite H. eauto.
  - rewrite H. eauto.
  - destruct H as (? & ? & ? & ? & ? & H). 
    destruct H as (_ & _ & _ & _ & _ & _ & _ & _ & ->). eauto.
Qed.

(** ** The loop returns *)

Lemma for_each_is_Some c N ns : ∀ st,
  inputs_ok c N → outputs_ok c N st →
  (∀ n, n ∈ ns → 0 ≤ n < N ∧ comparable T c n = true) →
  is_Some (for_each (work_body T c) ns st).
Proof.
  induction ns as [|n ns IH]; intros st Hin Hout Hns; simpl; [eauto|].
  rewrite work_body_eval.
  destruct (Hns n ltac:(left)) as [Hn Hc].
  destruct (eval_is_Some c N n Hin Hn Hc) as [r Hr].
  rewrite Hr. simpl.
  destruct (Hout n Hn) as (Hv & Ha & Hi).
  destruct (commit_is_Some c n r st Hv Ha Hi) as [st1 Hc1]. rewrite Hc1. simpl.
  apply IH; [exact Hin | | intros m Hm; apply Hns; right; exact Hm].
  eapply outputs_ok_same_size; [|exact Hout].
  eapply commit_spec, Hc1.
Qed.

Lemma work_is_Some c N st :
  inputs_ok c N → outputs_ok c N st →
  (∀ n, 0 ≤ n < N → comparable T c n = true) →
  is_Some (work T c 0 N st).
Proof.
  intros Hin Hout Hcmp. apply (for_each_is_Some c N); [assumption..|].
  intros n Hn%elem_of_seqZ. split; [lia | apply Hcmp; lia].
Qed.

(** An iteration depends on the query and on the knots of its row only. *)
Lemma eval_ext (c1 c2 : Captures) (N n : Z) :
  inputs_ok c1 N → 0 ≤ n < N → comparable T c1 n = true →
  flag c1 = flag c2 → period c1 = period c2 → cM c1 = cM c2 →
  load (tk c1) n = load (tk c2) n →
  (∀ i, 0 ≤ i < cM c1 → load (xk c1) i = load (xk c2) i) →
  (∀ i, 0 ≤ i < cM c1 → load (yk c1) i = load (yk c2) i) →
  eval T c1 n = eval T c2 n.
Proof.
  intros H1 Hn Hcmp Hf Hp HM Ht Hx Hy.
  pose proof H1 as (HM1 & Ht1 & _). destruct (Ht1 n Hn) as [tv Htv].
  destruct (eval_cases c1 N n tv H1 Htv Hcmp)
    as (x0 & xl & y0 & yl & Hx0 & Hxl & Hy0 & Hyl & Hcases).
  unfold eval at 2. rewrite <- Ht, Htv, <- Hf, <- Hp, <- HM. simpl.
  rewrite <- (Hx 0), Hx0 by lia. simpl.
  cbv zeta in Hcases.
  destruct Hcases as [[H He]|[(Ha & Hb & He)|(Ha & Hb & H)]].
  - rewrite H, <- (Hy 0), Hy0 by lia. exact He.
  - rewrite Ha, <- (Hx (cM c1 - 1)), Hxl by lia. simpl.
    rewrite Hb, <- (Hy (cM c1 - 1)), Hyl by lia. exact He.
  - rewrite Ha, <- (Hx (cM c1 - 1)), Hxl by lia. simpl. rewrite Hb.
    destruct H as (idx & xlo & xhi & ylo & yhi & Hs & Hidx & Hxlo & Hxhi & Hylo
                   & Hyhi & _ & _ & He).
    unfold search_sorted in *.
    rewrite <- (search_loop_ext (xk c1) (xk c2)), Hs
      by (intros i Hi; apply Hx; lia).
    simpl. rewrite <- (Hx (idx - 1)), Hxlo by lia. simpl.
    rewrite <- (Hx idx), Hxhi by lia. simpl.
    rewrite <- (Hy idx), Hyhi by lia. simpl.
    rewrite <- (Hy (idx - 1)), Hylo by lia. exact He.
Qed.

Lemma eval_no_knot c n : load (xk c) 0 = None → eval T c n = None.
Proof.
  intros H. unfold eval. destruct (load (tk c) n) as [tv|]; [|reflexivity].
  cbn [mbind option_bind]. rewrite H. reflexivity.
Qed.

End Body.

(** ** Validation *)

Lemma check_dim_agree t p x k size c d :
  dim_size t k = Some d → dim_size x k = Some d → dim_size p k = Some d →
  check_dim t p x k size c = Next (size * d) c.
Proof.
  intros Ht Hx Hp. unfold check_dim, bind, defined, OP_REQUIRES, ret.
  rewrite Ht, Hx, Z.eqb_refl, Hp, Z.eqb_refl. reflexivity.
Qed.

Lemma check_dim_disagree t p x k size c :
  is_Some (dim_size t k) → is_Some (dim_size x k) → is_Some (dim_size p k) →
  ¬ dims_agree t p x k →
  check_dim t p x k size c = Return (set_status incompatible c).
Proof.
  intros [d Ht] [xd Hx] [pd Hp] Hne.
  unfold check_dim, bind, defined, OP_REQUIRES, ret. rewrite Ht, Hx.
  destruct (Z.eqb_spec xd d) as [->|Hxd]; simpl; [|reflexivity].
  rewrite Hp. destruct (Z.eqb_spec pd d) as [->|Hpd]; simpl; [|reflexivity].
  exfalso. apply Hne. split; congruence.
Qed.

Lemma dims_agree_dec t p x k : {dims_agree t p x k} + {¬ dims_agree t p x k}.
Proof. unfold dims_agree. destruct (decide (dim_size x k = dim_size t k ∧ dim_size p k = dim_size t k)); [left|right]; assumption. Qed.

(** The loop over the outer dimensions either passes every dimension or
    returns at the first one that disagrees; it never leaves the shapes. *)
Lemma check_dims_spec t p x ks : ∀ size c,
  (∀ k, k ∈ ks → is_Some (dim_size t k) ∧ is_Some (dim_size x k) ∧
                 is_Some (dim_size p k)) →
  (Forall (dims_agree t p x) ks ∧
   for_K (check_dim t p x) ks size c =
     Next (foldl (λ s k, s * default 0 (dim_size t k)) size ks) c) ∨
  (Exists (λ k, ¬ dims_agree t p x k) ks ∧
   for_K (check_dim t p x) ks size c = Return (set_status incompatible c)).
Proof.
  induction ks as [|k ks IH]; intros size c Hin; simpl.
  - left. split; [constructor | reflexivity].
  - destruct (Hin k) as (Ht & Hx & Hp); [left|].
    destruct (dims_agree_dec t p x k) as [Hk|Hk].
    + destruct Ht as [d Ht]. destruct Hk as [Hkx Hkp].
      assert (for_K (check_dim t p x) (k :: ks) size c =
              for_K (check_dim t p x) ks (size * d) c) as Hstep.
      { simpl. unfold bind.
        rewrite (check_dim_agree t p x k size c d Ht) by congruence.
        reflexivity. }
      simpl in Hstep. rewrite Hstep, Ht. simpl.
      destruct (IH (size * d) c) as [[Hall Hrun]|[Hex Hrun]].
      * intros k' Hk'. apply Hin. right. exact Hk'.
      * left. split; [constructor; [split; [exact Hkx | exact Hkp] | exact Hall] | exact Hrun].
      * right. split; [right; exact Hex | exact Hrun].
    + right. split; [left; exact Hk|]. unfold bind.
      rewrite check_dim_disagree by assumption. reflexivity.
Qed.

Lemma dim_size_Some {A} (t : Tensor A) k :
  0 ≤ k < dims t → is_Some (dim_size t k).
Proof.
  intros Hk. unfold dim_size, dims in *. apply rd_inb. exact Hk.
Qed.

(** A call that breaks one of the five requirements returns at the first
    one it breaks, with nothing but the status changed. *)
Lemma Compute_rejects T c :
  let t := input_t c in let p := input_p c in
  let x := input_x c in let y := input_y c in
  dims t < 1 ∨ dims p ≠ dims t - 1 ∨ dims x ≠ dims t ∨ shape y ≠ shape x ∨
  (∃ k, 0 ≤ k < dims t - 1 ∧ ¬ dims_agree t p x k) →
  ∃ msg, Compute T c = failed msg c.
Proof.
  intros t p x y Hbad. unfold Compute, failed.
  unfold bind at 1. unfold get at 1. fold t p x y.
  require_step.
  destruct (Z.geb_spec (dims t) 1) as [H1|H1]; [|eauto].
  require_step.
  destruct (Z.eqb_spec (dims p) (dims t - 1)) as [H2|H2]; [|eauto].
  require_step.
  destruct (Z.eqb_spec (dims x) (dims t)) as [H3|H3]; [|eauto].
  require_step.
  destruct (bool_decide_reflect (shape y = shape x)) as [H4|H4]; [|eauto].
  destruct Hbad as [?|[?|[?|[?|(k & Hk & Hne)]]]]; try (exfalso; tauto || lia).
  unfold bind at 1.
  destruct (check_dims_spec t p x (seqZ 0 (dims t - 1)) 1 c) as [[Hall _]|[_ ->]].
  - intros k' Hk'%elem_of_seqZ.
    repeat split; apply dim_size_Some; lia.
  - exfalso. rewrite list.Forall_forall in Hall. apply Hne, Hall, elem_of_seqZ. lia.
  - eauto.
Qed.

(** ** Shapes *)

Lemma num_elements_app a b :
  num_elements (a ++ b) = num_elements a * num_elements b.
Proof.
  unfold num_elements. induction a as [|d a IH]; simpl; [lia|].
  rewrite IH. lia.
Qed.

Lemma num_elements_nonneg sh : Forall (λ d, 0 ≤ d) sh → 0 ≤ num_elements sh.
Proof.
  unfold num_elements. induction 1 as [|d sh Hd _ IH]; simpl; lia.
Qed.

Lemma num_elements_row batch N : num_elements (batch ++ [N]) = num_elements batch * N.
Proof. rewrite num_elements_app. unfold num_elements. simpl. lia. Qed.

Lemma rd_middle {A} (pre : list A) d rest :
  rd (pre ++ d :: rest) (Z.of_nat (length pre)) = Some d.
Proof.
  unfold rd. destruct (Z.ltb_spec (Z.of_nat (length pre)) 0); [lia|].
  rewrite Nat2Z.id. apply list_lookup_middle. reflexivity.
Qed.

Lemma rd_last {A} (l : list A) d : rd (l ++ [d]) (Z.of_nat (length l)) = Some d.
Proof. apply rd_middle. Qed.

Lemma rd_app_l {A} (l1 l2 : list A) k :
  0 ≤ k < Z.of_nat (length l1) → rd (l1 ++ l2) k = rd l1 k.
Proof.
  intros Hk. unfold rd. destruct (Z.ltb_spec k 0); [lia|].
  apply lookup_app_l. lia.
Qed.

Lemma foldl_dims (sh : list Z) batch : ∀ pre rest acc,
  sh = pre ++ batch ++ rest →
  foldl (λ s k, s * default 0 (rd sh k)) acc
    (seqZ (Z.of_nat (length pre)) (Z.of_nat (length batch)))
  = acc * num_elements batch.
Proof.
  induction batch as [|d batch IH]; intros pre rest acc Hsh.
  - simpl. unfold num_elements. simpl. lia.
  - rewrite seqZ_cons by (simpl; lia). simpl foldl.
    assert (rd sh (Z.of_nat (length pre)) = Some d) as ->
      by (rewrite Hsh; apply rd_middle).
    simpl default.
    replace (Z.succ (Z.of_nat (length pre)))
      with (Z.of_nat (length (pre ++ [d]))) by (rewrite length_app; simpl; lia).
    replace (Z.pred _) with (Z.of_nat (length batch)) by (simpl; lia).
    rewrite (IH (pre ++ [d]) rest)
      by (rewrite Hsh, <- app_assoc; reflexivity).
    unfold num_elements. simpl. lia.
Qed.

(** On shapes that share their batch the loop falls through with the size
    of the batch. *)
Lemma check_dims_pass (t p x : Tensor spec_float) batch N M c :
  shape t = batch ++ [N] → shape p = batch → shape x = batch ++ [M] →
  for_K (check_dim t p x) (seqZ 0 (dims t - 1)) 1 c
  = Next (num_elements batch) c.
Proof.
  intros Ht Hp Hx.
  assert (dims t - 1 = Z.of_nat (length batch)) as Hd.
  { unfold dims. rewrite Ht, length_app. simpl. lia. }
  assert (∀ k, k ∈ seqZ 0 (dims t - 1) →
               dim_size t k = rd batch k ∧ dim_size x k = rd batch k ∧
               dim_size p k = rd batch k ∧ is_Some (rd batch k)) as Hk.
  { intros k Hk%elem_of_seqZ. unfold dim_size. rewrite Ht, Hx, Hp.
    rewrite !rd_app_l by lia. repeat split. apply rd_inb. unfold inb. lia. }
  destruct (check_dims_spec t p x (seqZ 0 (dims t - 1)) 1 c)
    as [[_ ->]|[Hex _]].
  - intros k Hin. destruct (Hk k Hin) as (-> & -> & -> & ?). auto.
  - f_equal. rewrite Hd. unfold dim_size.
    rewrite (foldl_dims (shape t) batch [] [N]) by exact Ht. lia.
  - exfalso. apply list.Exists_exists in Hex as (k & Hin & Hne).
    apply Hne. destruct (Hk k Hin) as (H1 & H2 & H3 & _).
    split; congruence.
Qed.

Lemma rd_fresh {A} (cell : nat → A) sh j :
  0 ≤ j < num_elements sh → rd (flat (fresh cell sh)) j = Some (cell (Z.to_nat j)).
Proof.
  intros Hj. unfold rd, fresh. simpl. destruct (Z.ltb_spec j 0); [lia|].
  rewrite list_lookup_fmap, lookup_seq_lt by lia. reflexivity.
Qed.

Lemma length_fresh {A} (cell : nat → A) sh :
  0 ≤ num_elements sh → Z.of_nat (length (flat (fresh cell sh))) = num_elements sh.
Proof. intros H. unfold fresh. simpl. rewrite length_fmap, length_seq. lia. Qed.

(** ** The loop over the rows *)

Lemma flat_index_bound size N k n :
  0 ≤ k < size → 0 ≤ n < N → 0 ≤ k * N + n < size * N.
Proof. intros Hk Hn. nia. Qed.

Lemma other_row N k k0 n :
  k ≠ k0 → 0 ≤ n < N → ¬ (0 ≤ k * N + n - k0 * N < 0 + (N - 0)).
Proof. intros Hk Hn. nia. Qed.

Lemma sized_same_size size N st st' :
  same_size st st' → sized size N st → sized size N st'.
Proof. intros (L1 & L2 & L3) (S1 & S2 & S3). unfold sized. rewrite L1, L2, L3. auto. Qed.

Lemma sized_outputs_ok (t p x y : Tensor spec_float) size N M k pk st :
  0 ≤ k < size → sized size N st →
  outputs_ok (row_captures t p x y N M k pk) N st.
Proof.
  intros Hk (S1 & S2 & S3) n Hn. unfold inb. simpl.
  pose proof (flat_index_bound size N k n Hk Hn). rewrite S1, S2, S3. auto.
Qed.

Section Rows.
Variable T : DataType.

Lemma row_step c (t p x y : Tensor spec_float) N M sh k pk st st' :
  rd (flat p) k = Some pk →
  Shard (shard_blocks c N (5 * M)) (work T (row_captures t p x y N M k pk)) st
    = Some st' →
  row T t p x y N M k tt (with_out c sh st) = Next tt (with_out c sh st').
Proof.
  intros Hp Hs. destruct st as [bv ba bi].
  unfold row, bind, defined, get, on_outputs. rewrite Hp.
  cbn -[Shard work row_captures Z.mul]. rewrite Hs. reflexivity.
Qed.

(** The loop over distinct rows [ks] returns; it leaves in the cells of
    each row of [ks] what the iterations of that row compute and leaves
    the other rows alone. *)
Lemma rows_spec c (t p x y : Tensor spec_float) N M sh size ks : ∀ st,
  NoDup ks → (∀ k, k ∈ ks → 0 ≤ k < size) →
  (∀ k, 0 ≤ k < size → row_ok T t p x y N M k) →
  (∀ cost, sharding N (shard_blocks c N cost)) →
  sized size N st →
  ∃ st', for_K (row T t p x y N M) ks tt (with_out c sh st)
           = Next tt (with_out c sh st') ∧
    same_size st st' ∧
    ∀ k n, 0 ≤ n < N →
      (k ∈ ks → cell_done T t p x y N M k n st st') ∧
      (k ∉ ks → cell_kept N k n st st').
Proof.
  induction ks as [|k0 ks IH]; intros st Hnd Hks Hrows Hsh Hsz.
  - exists st. split; [reflexivity|]. split; [unfold same_size; auto|].
    intros k n Hn. split; [intros []%elem_of_nil|].
    intros _. unfold cell_kept. auto.
  - assert (0 ≤ k0 < size) as Hk0 by (apply Hks; left).
    destruct (Hrows k0 Hk0) as (pk0 & Hpk0 & Hin0 & Hcmp0).
    set (cap0 := row_captures t p x y N M k0 pk0) in *.
    pose proof (sized_outputs_ok t p x y size N M k0 pk0 st Hk0 Hsz) as Hout0.
    fold cap0 in Hout0.
    destruct (work_is_Some T cap0 N st Hin0 Hout0 Hcmp0) as [st1 Hw].
    pose proof (Shard_work T cap0 N _ st (Hsh (5 * M))) as HS. rewrite Hw in HS.
    unfold work in Hw.
    destruct (for_each_spec T cap0 _ st st1 (NoDup_seqZ _ _) Hw)
      as (Hss1 & Fv & Fa & Fi).
    destruct (IH st1) as (st' & Hrun & Hss' & Hcells).
    { eapply NoDup_cons_1_2, Hnd. }
    { intros k Hk. apply Hks. right. exact Hk. }
    { exact Hrows. }
    { exact Hsh. }
    { eapply sized_same_size; eassumption. }
    exists st'. split.
    { simpl. unfold bind. rewrite (row_step c t p x y N M sh k0 pk0 st st1 Hpk0 HS).
      exact Hrun. }
    split.
    { destruct Hss1 as (? & ? & ?), Hss' as (? & ? & ?).
      unfold same_size. repeat split; congruence. }
    intros k n Hn. destruct (Hcells k n Hn) as [Hdone Hkept].
    destruct (decide (k = k0)) as [->|Hne].
    + split; [intros _|intros Hnot; exfalso; apply Hnot; left].
      destruct Hkept as (Kv & Ka & Ki); [eapply NoDup_cons_1_1, Hnd|].
      exists pk0. split; [exact Hpk0|]. fold cap0. cbv zeta.
      rewrite Kv, Ka, Ki, Fv, Fa, Fi. simpl vk. simpl ak. simpl indsk.
      replace (k0 * N + n - k0 * N) with n by lia.
      rewrite !decide_True by (apply elem_of_seqZ; lia). auto.
    + assert (rd (v_buf st1) (k * N + n) = rd (v_buf st) (k * N + n) ∧
              rd (a_buf st1) (k * N + n) = rd (a_buf st) (k * N + n) ∧
              rd (inds_buf st1) (k * N + n) = rd (inds_buf st) (k * N + n))
        as (Uv & Ua & Ui).
      { rewrite Fv, Fa, Fi. simpl vk. simpl ak. simpl indsk.
        rewrite !decide_False; [auto|..];
          rewrite elem_of_seqZ; apply other_row; assumption. }
      split.
      * intros [?|Hin]%elem_of_cons; [contradiction|].
        destruct (Hdone Hin) as (pk & Hpk & Dv & Da & Di).
        exists pk. split; [exact Hpk|]. cbv zeta. rewrite Dv, Da, Di, Ua. auto.
      * intros Hnot. destruct Hkept as (Kv & Ka & Ki).
        { intros Hin. apply Hnot. right. exact Hin. }
        unfold cell_kept. rewrite Kv, Ka, Ki. auto.
Qed.

(** After validation and allocation the call is the loop over the rows. *)
Lemma Compute_rows c batch N M :
  shaped_call c batch N M →
  Compute T c =
  for_K (row T (input_t c) (input_p c) (input_x c) (input_y c) N M)
    (seqZ 0 (num_elements batch)) tt
    (with_out c (batch ++ [N]) (allocated c (batch ++ [N]))).
Proof.
  intros [St Sp Sx Sy Sb SN SM Ft Fp Fx Fy Sal Ssh].
  set (t := input_t c) in *. set (p := input_p c) in *.
  set (x := input_x c) in *. set (y := input_y c) in *.
  assert (dims t = Z.of_nat (length batch) + 1) as Hdt.
  { unfold dims. rewrite St, length_app. simpl. lia. }
  assert (dims x = dims t) as Hdx.
  { unfold dims. rewrite St, Sx, !length_app. reflexivity. }
  assert (dims p = dims t - 1) as Hdp.
  { unfold dims in *. rewrite Sp. lia. }
  unfold Compute.
  unfold bind at 1. unfold get at 1. fold t p x y.
  require_step. destruct (Z.geb_spec (dims t) 1) as [_|?]; [|lia].
  require_step. rewrite (proj2 (Z.eqb_eq _ _) Hdp).
  require_step. rewrite (proj2 (Z.eqb_eq _ _) Hdx).
  require_step. rewrite bool_decide_true by congruence.
  unfold bind at 1.
  rewrite (check_dims_pass t p x batch N M c St Sp Sx).
  unfold bind at 1. unfold defined at 1. unfold dim_size at 1.
  rewrite St at 1.
  replace (dims t - 1) with (Z.of_nat (length batch)) by lia.
  rewrite rd_last.
  unfold bind at 1. unfold defined at 1. unfold dim_size at 1.
  rewrite Sx at 1. rewrite rd_last.
  unfold bind at 1. unfold allocate_output_0 at 1. rewrite (Sal 0).
  unfold bind at 1. unfold OP_REQUIRES_OK at 1.
  unfold bind at 1. unfold allocate_output_1 at 1. cbn [allocator set_outputs].
  rewrite (Sal 1).
  unfold bind at 1. unfold OP_REQUIRES_OK at 1.
  unfold bind at 1. unfold allocate_output_2 at 1. cbn [allocator set_outputs].
  rewrite (Sal 2).
  unfold bind at 1. unfold OP_REQUIRES_OK at 1.
  rewrite St. reflexivity.
Qed.

Lemma comparable_no_nan c N M k pk n :
  rd (flat (input_p c)) k = Some pk →
  comparable T (row_captures (input_t c) (input_p c) (input_x c) (input_y c)
                  N M k pk) n
  = no_nan T c N M k n.
Proof.
  intros Hpk. unfold comparable, no_nan, at2, load. cbn [tk xk cM flag period buf off row_captures].
  rewrite Hpk. reflexivity.
Qed.

Lemma valid_row_ok c batch N M k :
  valid_call T c batch N M → 0 ≤ k < num_elements batch →
  row_ok T (input_t c) (input_p c) (input_x c) (input_y c) N M k.
Proof.
  intros [S HM Hnum] Hk. destruct S as [St Sp Sx Sy Sb SN SM Ft Fp Fx Fy Sal Ssh].
  rewrite num_elements_row in Ft, Fx, Fy.
  destruct (proj1 (rd_inb (flat (input_p c)) k)) as [pk Hpk];
    [unfold inb; lia|].
  exists pk. split; [exact Hpk|]. split.
  - unfold inputs_ok, load. simpl.
    split; [exact HM|].
    repeat split; intros i Hi; apply rd_inb; unfold inb.
    + pose proof (flat_index_bound _ N k i Hk Hi). lia.
    + pose proof (flat_index_bound _ M k i Hk Hi). lia.
    + pose proof (flat_index_bound _ M k i Hk Hi). lia.
  - intros n Hn. rewrite (comparable_no_nan c N M k pk n Hpk). apply Hnum; assumption.
Qed.

(** A valid call returns with the three outputs filled row by row. *)
Lemma Compute_valid c batch N M :
  valid_call T c batch N M →
  let t := input_t c in let p := input_p c in
  let x := input_x c in let y := input_y c in
  ∃ st', Compute T c = Next tt (with_out c (batch ++ [N]) st') ∧
    sized (num_elements batch) N st' ∧
    ∀ k n, 0 ≤ k < num_elements batch → 0 ≤ n < N →
      cell_done T t p x y N M k n (allocated c (batch ++ [N])) st'.
Proof.
  intros V t p x y. pose proof V as [S HM Hnum].
  pose proof S as [St Sp Sx Sy Sb SN SM Ft Fp Fx Fy Sal Ssh].
  pose proof (num_elements_nonneg batch Sb) as Hsize.
  assert (sized (num_elements batch) N (allocated c (batch ++ [N]))) as Hsz0.
  { unfold sized, allocated. cbn [v_buf a_buf inds_buf].
    rewrite !length_fresh by (rewrite num_elements_row; lia).
    rewrite num_elements_row. auto. }
  destruct (rows_spec c t p x y N M (batch ++ [N]) (num_elements batch)
              (seqZ 0 (num_elements batch)) (allocated c (batch ++ [N])))
    as (st' & Hrun & Hss & Hcells).
  { apply NoDup_seqZ. }
  { intros k Hk%elem_of_seqZ. lia. }
  { intros k Hk. eapply valid_row_ok; eassumption. }
  { exact Ssh. }
  { exact Hsz0. }
  exists st'. split; [|split].
  - rewrite (Compute_rows c batch N M S). exact Hrun.
  - eapply sized_same_size; eassumption.
  - intros k n Hk Hn. apply Hcells; [exact Hn|]. apply elem_of_seqZ. lia.
Qed.

(** The cell [(k, n)] of the outputs of a valid call. *)
Lemma Compute_cell c batch N M k n tv pk :
  valid_call T c batch N M → 0 ≤ k < num_elements batch → 0 ≤ n < N →
  at2 (input_t c) N k n = Some tv → rd (flat (input_p c)) k = Some pk →
  let cap := row_captures (input_t c) (input_p c) (input_x c) (input_y c)
               N M k pk in
  ∃ v a inds r, returns T c v a inds ∧ 
    inputs_ok cap N ∧ load (tk cap) n = Some tv ∧ comparable T cap n = true ∧
    eval T cap n = Some r ∧
    at2 v N k n = Some (cell_v r) ∧
    at2 a N k n = Some (default (fresh_T c 1 (Z.to_nat (k * N + n))) (cell_a r)) ∧
    at2 inds N k n = Some (cell_inds r).
Proof.
  intros V Hk Hn Htv Hpk cap.
  destruct (Compute_valid c batch N M V) as (st' & Hrun & Hsz & Hcells).
  destruct (Hcells k n Hk Hn) as (pk' & Hpk' & Cv & Ca & Ci).
  rewrite Hpk in Hpk'. injection Hpk' as <-. fold cap in Cv, Ca, Ci.
  destruct (valid_row_ok c batch N M k V Hk) as (pk' & Hpk' & Hin & Hcmp).
  rewrite Hpk in Hpk'. injection Hpk' as <-. fold cap in Hin, Hcmp.
  destruct (eval_is_Some T cap N n Hin Hn (Hcmp n Hn)) as [r Hr].
  rewrite Hr in Cv, Ca, Ci.
  exists (MkTensor (batch ++ [N]) (v_buf st')), (MkTensor (batch ++ [N]) (a_buf st')),
    (MkTensor (batch ++ [N]) (inds_buf st')), r.
  split; [exists (with_out c (batch ++ [N]) st'); repeat split; exact Hrun|].
  split; [exact Hin|]. split; [exact Htv|]. split; [exact (Hcmp n Hn)|].
  split; [exact Hr|].
  split; [exact Cv|]. split; [|exact Ci].
  unfold at2. cbn [flat]. rewrite Ca. unfold allocated. cbn [a_buf].
  rewrite rd_fresh.
  - simpl. destruct (cell_a r); reflexivity.
  - rewrite num_elements_row.
    apply flat_index_bound; [exact Hk | exact Hn].
Qed.

(** The three branches of a query of a valid call, on the outputs. *)
Lemma Compute_point c batch N M k n :
  valid_call T c batch N M → 0 ≤ k < num_elements batch → 0 ≤ n < N →
  ∃ v a inds tv pk x0 xl y0 yl,
    returns T c v a inds ∧
    at2 (input_t c) N k n = Some tv ∧ rd (flat (input_p c)) k = Some pk ∧
    at2 (input_x c) M k 0 = Some x0 ∧ at2 (input_x c) M k (M - 1) = Some xl ∧
    at2 (input_y c) M k 0 = Some y0 ∧ at2 (input_y c) M k (M - 1) = Some yl ∧
    point_cases T c v a inds N M k n (wrap T (Tgt pk Tzero) pk tv) x0 xl y0 yl.
Proof.
  intros V Hk Hn.
  destruct (valid_row_ok c batch N M k V Hk) as (pk & Hpk & Hin & _).
  pose proof Hin as (_ & Ht & _). destruct (Ht n Hn) as [tv Htv].
  change (at2 (input_t c) N k n = Some tv) in Htv.
  destruct (Compute_cell c batch N M k n tv pk V Hk Hn Htv Hpk)
    as (v & a & inds & r & Hret & _ & Hload & Hcmp & Hr & Cv & Ca & Ci).
  destruct (eval_cases T _ N n tv Hin Hload Hcmp)
    as (x0 & xl & y0 & yl & Hx0 & Hxl & Hy0 & Hyl & Hcases).
  exists v, a, inds, tv, pk, x0, xl, y0, yl.
  split; [exact Hret|]. split; [exact Htv|]. split; [exact Hpk|].
  split; [exact Hx0|]. split; [exact Hxl|]. split; [exact Hy0|].
  split; [exact Hyl|].
  cbv zeta in Hcases. change (flag _) with (Tgt pk Tzero) in Hcases.
  change (period _) with pk in Hcases.
  destruct Hcases as [[H He]|[(H1 & H2 & He)|(H1 & H2 & H)]].
  - left. rewrite Hr in He. injection He as ->.
    split; [exact H|]. split; [exact Cv|]. split; [exact Ci | exact Ca].
  - right. left. rewrite Hr in He. injection He as ->.
    split; [exact H1|]. split; [exact H2|]. split; [exact Cv|].
    split; [exact Ci | exact Ca].
  - right. right.
    split; [exact H1|]. split; [exact H2|].
    destruct H as (idx & xlo & xhi & ylo & yhi & Hs & Hidx & Hxlo & Hxhi & Hylo
                   & Hyhi & Hle & Hlt & He).
    rewrite Hr in He. injection He as ->.
    exists idx, xlo, xhi, ylo, yhi. unfold interior_at.
    split; [exact Hidx|]. split; [exact Hs|].
    split; [exact Hxlo|]. split; [exact Hxhi|].
    split; [exact Hylo|]. split; [exact Hyhi|].
    split; [exact Hle|]. split; [exact Hlt|].
    split; [exact Ca|]. split; [exact Cv | exact Ci].
Qed.

Lemma rows_no_query c (t p x y : Tensor spec_float) M sh size st ks :
  (∀ k, k ∈ ks → 0 ≤ k < size) → Z.of_nat (length (flat p)) = size →
  (∀ cost, sharding 0 (shard_blocks c 0 cost)) →
  for_K (row T t p x y 0 M) ks tt (with_out c sh st) = Next tt (with_out c sh st).
Proof.
  intros Hks Hp Hsh. induction ks as [|k ks IH]; [reflexivity|].
  cbn [for_K]. unfold bind.
  destruct (proj1 (rd_inb (flat p) k)) as [pk Hpk].
  { unfold inb. specialize (Hks k ltac:(left)). lia. }
  rewrite (row_step c t p x y 0 M sh k pk st st Hpk).
  - apply IH. intros k' Hk'. apply Hks. right. exact Hk'.
  - rewrite (Shard_work T _ 0) by apply Hsh. unfold work.
    rewrite seqZ_nil by lia. reflexivity.
Qed.

Lemma rows_never_return (t p x y : Tensor spec_float) N M ks : ∀ c c',
  for_K (row T t p x y N M) ks tt c ≠ Return c'.
Proof.
  induction ks as [|k ks IH]; intros c c'; [discriminate|].
  cbn [for_K]. unfold bind at 1. unfold row, bind, defined, get, on_outputs.
  destruct (rd (flat p) k); [|discriminate].
  destruct (output_v c), (output_a c), (output_inds c); try discriminate.
  destruct (Shard _ _ _); [|discriminate]. apply IH.
Qed.

End Rows.

(** ** Knots in order *)

Lemma ascending_lookup xs : ascending xs = true →
  ∀ i j a b, (i < j)%nat → xs !! i = Some a → xs !! j = Some b →
  Tgt b a = true.
Proof.
  induction xs as [|x0 xs IH]; intros Hasc i j a b Hij Hi Hj.
  - discriminate.
  - assert (ascending xs = true ∧ ∀ b', xs !! 0%nat = Some b' → Tgt b' x0 = true)
      as [Hrest Hhead].
    { destruct xs as [|x1 xs]; simpl in *; [split; [reflexivity | discriminate]|].
      apply andb_true_iff in Hasc as [H1 H2]. split; [exact H2|].
      intros b' [= <-]. exact H1. }
    destruct i as [|i], j as [|j]; simpl in *; try lia.
    + injection Hi as <-.
      destruct j as [|j]; [apply Hhead; exact Hj|].
      destruct (xs !! 0%nat) as [b'|] eqn:Hb'.
      * apply Tgt_trans with b'; [apply Hhead; reflexivity|].
        apply (IH Hrest 0%nat (S j) b' b); [lia | exact Hb' | exact Hj].
      * destruct xs; discriminate.
    + apply (IH Hrest i j a b); [lia | exact Hi | exact Hj].
Qed.

Lemma ascending_rd xs i j a b :
  ascending xs = true → 0 ≤ i < j → rd xs i = Some a → rd xs j = Some b →
  Tgt b a = true.
Proof.
  intros Hasc Hij Hi Hj. rewrite rd_list in Hi, Hj by lia.
  apply (ascending_lookup xs Hasc (Z.to_nat i) (Z.to_nat j)); [lia | assumption..].
Qed.

Lemma nondecreasing_lookup xs : nondecreasing xs = true →
  ∀ i j a b, (i ≤ j)%nat → xs !! i = Some a → xs !! j = Some b →
  Tle a b = true.
Proof.
  induction xs as [|x0 xs IH]; intros Hasc i j a b Hij Hi Hj.
  - discriminate.
  - cbn [nondecreasing] in Hasc.
    apply andb_true_iff in Hasc as [Hasc Hrest].
    apply andb_true_iff in Hasc as [Hnan Hhead]. apply negb_true_iff in Hnan.
    destruct i as [|i], j as [|j]; simpl in *; try lia.
    + assert (a = b) as -> by congruence. injection Hj as <-.
      apply Tle_refl, Hnan.
    + injection Hi as <-. destruct xs as [|x1 xs]; [discriminate|].
      apply Tle_trans with x1; [exact Hhead|].
      apply (IH Hrest 0%nat j x1 b); [lia | reflexivity | exact Hj].
    + apply (IH Hrest i j a b); [lia | exact Hi | exact Hj].
Qed.

Lemma nondecreasing_rd xs i j a b :
  nondecreasing xs = true → 0 ≤ i ≤ j → rd xs i = Some a → rd xs j = Some b →
  Tle a b = true.
Proof.
  intros Hasc Hij Hi Hj. rewrite rd_list in Hi, Hj by lia.
  apply (nondecreasing_lookup xs Hasc (Z.to_nat i) (Z.to_nat j)); [lia | assumption..].
Qed.

(** ** Rounding

    What the arithmetic of [SpecFloat] does on the numbers of a type: the
    facts the wrapping step needs. *)

Section Rounding.
Variable T : DataType.
Abbreviation p := (prec T) (only parsing).
Abbreviation E := (emax T) (only parsing).
Abbreviation emin := (SpecFloat.emin (prec T) (emax T)) (only parsing).
Abbreviation fexp := (SpecFloat.fexp (prec T) (emax T)) (only parsing).

Lemma format_bounds : 1 < p ∧ p < E.
Proof. destruct T; simpl; lia. Qed.

Lemma fexp_eq z : fexp z = Z.max (z - p) emin.
Proof. reflexivity. Qed.

Lemma emin_eq : emin = 3 - E - p.
Proof. reflexivity. Qed.

(** digits *)
Lemma digits2_pos_spec m :
  2 ^ (Zpos (digits2_pos m) - 1) ≤ Zpos m < 2 ^ Zpos (digits2_pos m).
Proof.
  induction m as [m IH|m IH|]; cbn [digits2_pos].
  - set (d := Zpos (digits2_pos m)) in *. rewrite Pos2Z.inj_succ, (Pos2Z.inj_xI m).
    fold d. replace (Z.succ d - 1) with (Z.succ (d - 1)) by lia.
    rewrite (Z.pow_succ_r 2 (d - 1)), (Z.pow_succ_r 2 d) by (unfold d; lia). lia.
  - set (d := Zpos (digits2_pos m)) in *. rewrite Pos2Z.inj_succ, (Pos2Z.inj_xO m).
    fold d. replace (Z.succ d - 1) with (Z.succ (d - 1)) by lia.
    rewrite (Z.pow_succ_r 2 (d - 1)), (Z.pow_succ_r 2 d) by (unfold d; lia). lia.
  - simpl. lia.
Qed.

Lemma digits_unique m d :
  2 ^ (d - 1) ≤ Zpos m < 2 ^ d → Zpos (digits2_pos m) = d.
Proof.
  intros [H1 H2]. pose proof (digits2_pos_spec m) as [D1 D2].
  set (d' := Zpos (digits2_pos m)) in *.
  assert (0 < d) as Hd.
  { destruct (Z.lt_ge_cases 0 d) as [|Hn]; [assumption|].
    assert (2 ^ d ≤ 1); [|lia].
    destruct (Z.eq_dec d 0) as [->|]; [simpl; lia|]. rewrite Z.pow_neg_r; lia. }
  destruct (Z.lt_trichotomy d' d) as [Hlt|[Heq|Hgt]]; [|exact Heq|].
  - assert (2 ^ d' ≤ 2 ^ (d - 1)) by (apply Z.pow_le_mono_r; lia). lia.
  - assert (2 ^ d ≤ 2 ^ (d' - 1)) by (apply Z.pow_le_mono_r; lia). lia.
Qed.

Lemma digits_le m m' :
  (m ≤ m')%positive → Zpos (digits2_pos m) ≤ Zpos (digits2_pos m').
Proof.
  intros Hle. pose proof (digits2_pos_spec m) as [D1 D2].
  pose proof (digits2_pos_spec m') as [D1' D2'].
  destruct (Z.le_gt_cases (Zpos (digits2_pos m)) (Zpos (digits2_pos m'))) as [|Hgt];
    [assumption|].
  assert (2 ^ Zpos (digits2_pos m') ≤ 2 ^ (Zpos (digits2_pos m) - 1))
    by (apply Z.pow_le_mono_r; lia). lia.
Qed.

Lemma digits_shift m k mz :
  0 ≤ k → Zpos mz = Zpos m * 2 ^ k →
  Zpos (digits2_pos mz) = Zpos (digits2_pos m) + k.
Proof.
  intros Hk Hmz. apply digits_unique. rewrite Hmz.
  pose proof (digits2_pos_spec m) as [D1 D2].
  replace (Zpos (digits2_pos m) + k - 1) with ((Zpos (digits2_pos m) - 1) + k) by lia.
  rewrite !Z.pow_add_r by lia.
  assert (0 < 2 ^ k) by (apply Z.pow_pos_nonneg; lia). nia.
Qed.

Lemma iter_xO m d : Zpos (Pos.iter xO m d) = Zpos m * 2 ^ Zpos d.
Proof.
  induction d as [|d IH] using Pos.peano_ind.
  - simpl. lia.
  - rewrite Pos.iter_succ, Pos2Z.inj_xO, IH, Pos2Z.inj_succ, Z.pow_succ_r by lia. lia.
Qed.

Lemma shl_align_spec m e e' :
  e' ≤ e →
  ∃ mz, shl_align m e e' = (mz, e') ∧ Zpos mz = Zpos m * 2 ^ (e - e').
Proof.
  intros Hle. unfold shl_align.
  destruct (e' - e) as [|d|d] eqn:Hd; try lia.
  - assert (e' = e) as -> by lia. exists m. rewrite Z.sub_diag. split; [reflexivity | simpl; lia].
  - exists (Pos.iter xO m d). split; [reflexivity|].
    rewrite iter_xO. f_equal. f_equal. lia.
Qed.

(** shifting right *)
Lemma iter_pos_nat {A} (f : A → A) n : ∀ x,
  SpecFloat.iter_pos f n x = Nat.iter (Pos.to_nat n) f x.
Proof.
  induction n as [n IH|n IH|]; intros x; cbn [SpecFloat.iter_pos].
  - rewrite !IH, Pos2Nat.inj_xI.
    replace (S (2 * Pos.to_nat n)) with (Pos.to_nat n + Pos.to_nat n + 1)%nat by lia.
    rewrite !Nat.iter_add. reflexivity.
  - rewrite !IH, Pos2Nat.inj_xO.
    replace (2 * Pos.to_nat n)%nat with (Pos.to_nat n + Pos.to_nat n)%nat by lia.
    rewrite Nat.iter_add. reflexivity.
  - reflexivity.
Qed.

Lemma shr_1_spec r :
  0 ≤ shr_m r →
  shr_m (shr_1 r) = shr_m r / 2 ∧
  inexact (shr_1 r) = Z.odd (shr_m r) || inexact r.
Proof.
  destruct r as [m r s]. unfold inexact. cbn [shr_m shr_r shr_s]. intros Hm.
  rewrite <- Z.div2_div.
  destruct m as [|[q|q|]|q]; try lia; cbn; split; try reflexivity;
    destruct r, s; reflexivity.
Qed.

Lemma shr_nat_spec m0 (k : nat) :
  0 ≤ m0 →
  shr_m (Nat.iter k shr_1 (Build_shr_record m0 false false)) = m0 / 2 ^ Z.of_nat k ∧
  (inexact (Nat.iter k shr_1 (Build_shr_record m0 false false)) = true
   ↔ m0 mod 2 ^ Z.of_nat k ≠ 0).
Proof.
  intros Hm0. induction k as [|k IH].
  - cbn. rewrite Z.div_1_r, Z.mod_1_r. split; [reflexivity|]. split; [discriminate | lia].
  - destruct IH as [IHm IHi]. rewrite !Nat.iter_succ.
    set (r := Nat.iter k shr_1 _) in *.
    assert (0 < 2 ^ Z.of_nat k) as Hpow by (apply Z.pow_pos_nonneg; lia).
    assert (0 ≤ shr_m r) as Hr by (rewrite IHm; apply Z.div_pos; lia).
    destruct (shr_1_spec r Hr) as [Sm Si].
    rewrite Nat2Z.inj_succ, Z.pow_succ_r by lia.
    split.
    + rewrite Sm, IHm, Z.div_div by lia. f_equal. lia.
    + rewrite Si, orb_true_iff, IHi, IHm.
      rewrite (Z.mul_comm 2), Z.rem_mul_r by lia.
      set (a := m0 mod 2 ^ Z.of_nat k) in *. set (q := m0 / 2 ^ Z.of_nat k) in *.
      assert (0 ≤ a) by (apply Z.mod_pos_bound; lia).
      rewrite Zmod_odd. destruct (Z.odd q).
      * split; [intros _; nia | intros _; left; reflexivity].
      * rewrite Z.mul_0_r, Z.add_0_r. split; [intros [?|?]; [discriminate | assumption] | intros ?; right; assumption].
Qed.

Lemma pow2_pos k : 0 ≤ k → 0 < 2 ^ k.
Proof. intros. apply Z.pow_pos_nonneg; lia. Qed.

Lemma pow2_split a b : 0 ≤ a → 0 ≤ b → 2 ^ (a + b) = 2 ^ a * 2 ^ b.
Proof. intros. apply Z.pow_add_r; assumption. Qed.

Lemma bounded_spec m e :
  bounded p E m e = true ↔ fexp (Zpos (digits2_pos m) + e) = e ∧ e ≤ E - p.
Proof.
  unfold bounded, canonical_mantissa.
  rewrite andb_true_iff, Z.eqb_eq, Z.leb_le. reflexivity.
Qed.

Lemma bounded_facts m e :
  bounded p E m e = true →
  emin ≤ e ∧ e ≤ E - p ∧ Zpos (digits2_pos m) ≤ p ∧
  (emin < e → Zpos (digits2_pos m) = p).
Proof.
  intros [Hc He]%bounded_spec. rewrite fexp_eq in Hc. lia.
Qed.

Lemma binary_round_aux_canonical s mz ez :
  fexp (Zpos (digits2_pos mz) + ez) = ez →
  binary_round_aux p E s (Zpos mz) ez loc_Exact =
    if ez <=? E - p then S754_finite s mz ez else S754_infinity s.
Proof.
  intros Hc. unfold binary_round_aux, shr_fexp. cbn [Zdigits2].
  rewrite Hc, Z.sub_diag. cbn [shr shr_record_of_loc shr_m loc_of_shr_record round_nearest_even Zdigits2].
  rewrite Hc, Z.sub_diag. reflexivity.
Qed.

Lemma rne_bounds r :
  let m1 := round_nearest_even (shr_m r) (loc_of_shr_record r) in
  shr_m r ≤ m1 ≤ shr_m r + 1 ∧ (m1 = shr_m r + 1 → inexact r = true).
Proof.
  destruct r as [q [|] [|]]; cbn; try (destruct (Z.even q)); split; try lia;
    intros; try reflexivity; lia.
Qed.

(** The exponent of a value below that of a float in the format. *)
Lemma magnitude_le m e mp ep :
  emin ≤ e → emin ≤ ep →
  Zpos m * 2 ^ (e - emin) ≤ Zpos mp * 2 ^ (ep - emin) →
  Zpos (digits2_pos m) + e ≤ Zpos (digits2_pos mp) + ep.
Proof.
  intros He Hep Hle.
  pose proof (digits2_pos_spec m) as [D1 _].
  pose proof (digits2_pos_spec mp) as [_ D2].
  set (d := Zpos (digits2_pos m)) in *. set (dp := Zpos (digits2_pos mp)) in *.
  assert (0 < d) by (unfold d; lia). assert (0 < dp) by (unfold dp; lia).
  pose proof (pow2_pos (e - emin) ltac:(lia)).
  pose proof (pow2_pos (ep - emin) ltac:(lia)).
  assert (2 ^ (d - 1 + (e - emin)) < 2 ^ (dp + (ep - emin))) as Hlt.
  { rewrite !pow2_split by lia. nia. }
  apply Z.pow_lt_mono_r_iff in Hlt; lia.
Qed.

Lemma binary_round_le s m e mp ep :
  emin ≤ e → bounded p E mp ep = true →
  Zpos m * 2 ^ (e - emin) ≤ Zpos mp * 2 ^ (ep - emin) →
  ∃ m' e', binary_round p E s m e = S754_finite s m' e' ∧
    bounded p E m' e' = true ∧
    Zpos m' * 2 ^ (e' - emin) ≤ Zpos mp * 2 ^ (ep - emin) ∧
    (Zpos (digits2_pos m) ≤ p →
     Zpos m' * 2 ^ (e' - emin) = Zpos m * 2 ^ (e - emin)).
Proof.
  intros He Hb Hle. pose proof format_bounds as [Hp1 Hp2].
  pose proof (bounded_facts mp ep Hb) as (Hep1 & Hep2 & Hdp & _).
  apply bounded_spec in Hb as [Hcp _].
  pose proof (magnitude_le m e mp ep He Hep1 Hle) as Hmag.
  set (d := Zpos (digits2_pos m)) in *. set (dp := Zpos (digits2_pos mp)) in *.
  set (c := fexp (d + e)).
  assert (c ≤ ep) as Hcep.
  { unfold c. rewrite <- Hcp. rewrite !fexp_eq. lia. }
  assert (emin ≤ c) as Hcmin by (unfold c; rewrite fexp_eq; lia).
  destruct (Z.le_gt_cases d p) as [Hd|Hd].
  - (* no bit is lost *)
    assert (c ≤ e) as Hce by (unfold c; rewrite fexp_eq; lia).
    destruct (shl_align_spec m e c Hce) as (mz & Hal & Hmz).
    unfold binary_round. fold d. fold c. rewrite Hal.
    assert (Zpos (digits2_pos mz) + c = d + e) as Hdz.
    { rewrite (digits_shift m (e - c) mz) by (lia || exact Hmz). fold d. lia. }
    rewrite binary_round_aux_canonical by (rewrite Hdz; reflexivity).
    destruct (Z.leb_spec c (E - p)) as [_|?]; [|lia].
    exists mz, c. split; [reflexivity|].
    assert (Zpos mz * 2 ^ (c - emin) = Zpos m * 2 ^ (e - emin)) as Hval.
    { rewrite Hmz, <- Z.mul_assoc, <- pow2_split by lia. do 2 f_equal. lia. }
    split; [apply bounded_spec; rewrite Hdz; split; [reflexivity | lia]|].
    split; [rewrite Hval; exact Hle | intros _; exact Hval].
  - (* the mantissa is cut to [p] bits *)
    assert (c = d + e - p) as Hc by (unfold c; rewrite fexp_eq; lia).
    assert (0 < c - e) as Hn by lia.
    unfold binary_round. fold d. fold c. unfold shl_align.
    destruct (c - e) as [|n|n] eqn:En; try lia.
    unfold binary_round_aux, shr_fexp at 1. cbn [Zdigits2]. fold d. fold c.
    rewrite En. cbn [shr shr_record_of_loc]. rewrite iter_pos_nat.
    destruct (shr_nat_spec (Zpos m) (Pos.to_nat n) ltac:(lia)) as [Hq Hin].
    set (r1 := Nat.iter (Pos.to_nat n) shr_1 _) in *.
    rewrite positive_nat_Z in Hq, Hin.
    destruct (rne_bounds r1) as [Hm1 Hup]. cbv zeta in Hm1, Hup.
    set (m1 := round_nearest_even (shr_m r1) (loc_of_shr_record r1)) in *.
    pose proof (digits2_pos_spec m) as [D1 D2]. fold d in D1, D2.
    pose proof (pow2_pos (Zpos n) ltac:(lia)) as Hpn.
    assert (2 ^ (p - 1) ≤ shr_m r1 < 2 ^ p) as [Q1 Q2].
    { rewrite Hq. split.
      - apply Z.div_le_lower_bound; [lia|].
        rewrite Z.mul_comm, <- pow2_split by lia.
        replace (p - 1 + Zpos n) with (d - 1) by lia. exact D1.
      - apply Z.div_lt_upper_bound; [lia|].
        rewrite <- pow2_split by lia.
        replace (Zpos n + p) with d by lia. exact D2. }
    pose proof (pow2_pos (p - 1) ltac:(lia)) as Hpp.
    (* the bound of the rounded mantissa *)
    set (P' := Zpos mp * 2 ^ (ep - c)).
    assert (Zpos mp * 2 ^ (ep - emin) = P' * 2 ^ (c - emin)) as HP.
    { unfold P'. rewrite <- Z.mul_assoc, <- pow2_split by lia. do 2 f_equal. lia. }
    assert (m1 ≤ P') as Hm1P.
    { assert (Zpos m ≤ P' * 2 ^ Zpos n) as Hm.
      { rewrite HP in Hle.
        replace (c - emin) with (Zpos n + (e - emin)) in Hle by lia.
        rewrite pow2_split, Z.mul_assoc in Hle by lia.
        pose proof (pow2_pos (e - emin) ltac:(lia)). nia. }
      pose proof (Z.div_mod (Zpos m) (2 ^ Zpos n) ltac:(lia)) as Hdm.
      pose proof (Z.mod_pos_bound (Zpos m) (2 ^ Zpos n) Hpn) as Hmod.
      rewrite <- Hq in Hdm.
      destruct (Z.eq_dec m1 (shr_m r1 + 1)) as [Heq|Hne]; [|nia].
      apply Hup, Hin in Heq. nia. }
    replace (e + Zpos n) with c by lia.
    assert (0 < m1) as Hm1pos by lia.
    destruct m1 as [|m1p|] eqn:Em1; try lia.
    destruct (Z.lt_ge_cases (Zpos m1p) (2 ^ p)) as [Hlt|Hge].
    + (* no carry *)
      assert (Zpos (digits2_pos m1p) = p) as Hd1 by (apply digits_unique; lia).
      unfold shr_fexp. cbn [Zdigits2]. rewrite Hd1.
      replace (fexp (p + c) - c) with 0 by (rewrite fexp_eq; lia).
      cbn [shr shr_record_of_loc shr_m].
      destruct (Z.leb_spec c (E - p)) as [_|?]; [|lia].
      exists m1p, c. split; [reflexivity|].
      split; [apply bounded_spec; rewrite Hd1, fexp_eq; lia|].
      split; [rewrite HP; pose proof (pow2_pos (c - emin) ltac:(lia)); nia | lia].
    + (* the carry: the mantissa is [2 ^ p] *)
      assert (Zpos m1p = 2 ^ p) as Hcarry.
      { assert (2 ^ p = 2 * 2 ^ (p - 1)) as Hpow.
        { rewrite <- Z.pow_succ_r by lia. f_equal. lia. }
        lia. }
      assert (Zpos (digits2_pos m1p) = p + 1) as Hd1.
      { apply digits_unique. rewrite Hcarry. replace (p + 1 - 1) with p by lia.
        split; [lia|]. apply Z.pow_lt_mono_r; lia. }
      assert (c < ep) as Hlt.
      { pose proof (digits2_pos_spec mp) as [_ Dp]. fold dp in Dp.
        assert (2 ^ (p + (c - emin)) < 2 ^ (dp + (ep - emin))) as Hpw.
        { rewrite !pow2_split by (unfold dp; lia).
          pose proof (pow2_pos (c - emin) ltac:(lia)).
          pose proof (pow2_pos (ep - emin) ltac:(lia)).
          rewrite <- Hcarry. rewrite HP in *. 
          assert (Zpos m1p * 2 ^ (c - emin) ≤ P' * 2 ^ (c - emin)) by nia.
          rewrite <- HP in *. nia. }
        apply Z.pow_lt_mono_r_iff in Hpw; [lia | lia | unfold dp; lia]. }
      unfold shr_fexp. cbn [Zdigits2]. rewrite Hd1.
      replace (fexp (p + 1 + c) - c) with 1 by (rewrite fexp_eq; lia).
      cbn [shr shr_record_of_loc SpecFloat.iter_pos].
      destruct (shr_1_spec (Build_shr_record (Zpos m1p) false false) ltac:(simpl; lia))
        as [Sm _].
      cbn [shr_m] in Sm. rewrite Hcarry in Sm.
      assert (2 ^ p / 2 = 2 ^ (p - 1)) as Hhalf.
      { replace p with (Z.succ (p - 1)) at 1 by lia.
        rewrite Z.pow_succ_r, Z.mul_comm, Z.div_mul by lia. reflexivity. }
      rewrite Hhalf in Sm. rewrite Hcarry. rewrite Sm.
      destruct (2 ^ (p - 1)) as [|mh|] eqn:Eh; try lia.
      destruct (Z.leb_spec (c + 1) (E - p)) as [_|?]; [|lia].
      exists mh, (c + 1). split; [reflexivity|].
      assert (Zpos (digits2_pos mh) = p) as Hdh.
      { apply digits_unique. rewrite <- Eh. split; [lia|]. apply Z.pow_lt_mono_r; lia. }
      split; [apply bounded_spec; rewrite Hdh, fexp_eq; lia|].
      split; [|lia].
      rewrite <- Eh. replace (c + 1 - emin) with (1 + (c - emin)) by lia.
      rewrite pow2_split, Z.mul_assoc by lia.
      replace (2 ^ (p - 1) * 2 ^ 1) with (2 ^ p).
      2:{ rewrite <- pow2_split by lia. f_equal. lia. }
      rewrite <- Hcarry, HP. pose proof (pow2_pos (c - emin) ltac:(lia)). nia.
Qed.


(** ** The order of the numbers of a type *)

Lemma bounded_lt m1 e1 m2 e2 :
  bounded p E m1 e1 = true → bounded p E m2 e2 = true → e1 < e2 →
  Zpos m1 * 2 ^ (e1 - emin) < Zpos m2 * 2 ^ (e2 - emin).
Proof.
  intros H1 H2 Hlt. pose proof format_bounds as [Hp1 Hp2].
  destruct (bounded_facts m1 e1 H1) as (A1 & _ & A3 & _).
  destruct (bounded_facts m2 e2 H2) as (B1 & _ & _ & B4).
  specialize (B4 ltac:(lia)).
  pose proof (digits2_pos_spec m1) as [_ D1].
  pose proof (digits2_pos_spec m2) as [D2 _]. rewrite B4 in D2.
  assert (2 ^ Zpos (digits2_pos m1) ≤ 2 ^ p) as Hd1
    by (apply Z.pow_le_mono_r; lia).
  pose proof (pow2_pos (e1 - emin) ltac:(lia)).
  pose proof (pow2_pos (e2 - emin) ltac:(lia)).
  assert (2 ^ p * 2 ^ (e1 - emin) ≤ 2 ^ (p - 1) * 2 ^ (e2 - emin)) as Hpow.
  { rewrite <- !pow2_split by lia. apply Z.pow_le_mono_r; lia. }
  nia.
Qed.

Lemma bounded_order m1 e1 m2 e2 :
  bounded p E m1 e1 = true → bounded p E m2 e2 = true →
  (Zpos m1 * 2 ^ (e1 - emin) < Zpos m2 * 2 ^ (e2 - emin)
   ↔ e1 < e2 ∨ (e1 = e2 ∧ Zpos m1 < Zpos m2)) ∧
  (Zpos m1 * 2 ^ (e1 - emin) = Zpos m2 * 2 ^ (e2 - emin)
   ↔ e1 = e2 ∧ Zpos m1 = Zpos m2).
Proof.
  intros H1 H2.
  destruct (bounded_facts m1 e1 H1) as (A1 & _).
  destruct (bounded_facts m2 e2 H2) as (B1 & _).
  pose proof (pow2_pos (e1 - emin) ltac:(lia)) as Hp.
  destruct (Z.lt_trichotomy e1 e2) as [Hlt|[Heq|Hgt]].
  - pose proof (bounded_lt m1 e1 m2 e2 H1 H2 Hlt) as Hb. split; split.
    + intros _. left. exact Hlt.
    + intros _. exact Hb.
    + intros Heq. lia.
    + intros [Heq _]. lia.
  - subst e2. split; split.
    + intros Hlt. right. split; [reflexivity | nia].
    + intros [?|[_ ?]]; [lia | nia].
    + intros Heq. split; [reflexivity | nia].
    + intros [_ Hm]. rewrite Hm. reflexivity.
  - pose proof (bounded_lt m2 e2 m1 e1 H2 H1 Hgt) as Hb. split; split.
    + intros Hlt'. lia.
    + intros [?|[? _]]; lia.
    + intros Heq'. lia.
    + intros [? _]. lia.
Qed.

(** On the numbers of a type the comparisons are those of their values. *)
Lemma finite_Tgt a b :
  finite T a = true → finite T b = true →
  (Tgt b a = true ↔ Zval T a < Zval T b).
Proof.
  intros Ha Hb. unfold Tgt. rewrite SFltb_key. unfold key_lt.
  destruct a as [sa| | |sa ma ea], b as [sb| | |sb mb eb]; try discriminate;
    cbn [finite] in Ha, Hb; cbn [key Zval is_nan fst snd];
    try (destruct sa); try (destruct sb); cbn [key Zval cond_Zopp fst snd];
    try (pose proof (bounded_facts _ _ Ha) as (? & _));
    try (pose proof (bounded_facts _ _ Hb) as (? & _));
    repeat match goal with
           | H : emin ≤ ?e |- _ =>
               pose proof (pow2_pos (e - emin) ltac:(lia)); clear H
           end;
    try (destruct (bounded_order _ _ _ _ Ha Hb) as [O1 _]);
    try (destruct (bounded_order _ _ _ _ Hb Ha) as [O2 _]);
    split; intros; repeat split; try reflexivity; try nia; try lia.
Qed.

Lemma finite_Tle a b :
  finite T a = true → finite T b = true →
  (Tle a b = true ↔ Zval T a ≤ Zval T b).
Proof.
  intros Ha Hb.
  assert (is_nan a = false ∧ is_nan b = false) as [Na Nb].
  { destruct a, b; try discriminate; auto. }
  split.
  - intros Hle. destruct (Z.le_gt_cases (Zval T a) (Zval T b)) as [|Hlt]; [assumption|].
    apply (finite_Tgt b a Hb Ha) in Hlt. order.
  - intros Hle. apply Tgt_total; [assumption..|].
    destruct (Tgt a b) eqn:Hgt; [|reflexivity].
    apply (finite_Tgt b a Hb Ha) in Hgt. lia.
Qed.

Lemma finite_Teq a b :
  finite T a = true → finite T b = true →
  (Teq a b = true ↔ Zval T a = Zval T b).
Proof.
  intros Ha Hb. split.
  - intros He. assert (Tle a b = true) as H1 by order.
    assert (Tle b a = true) as H2 by order.
    apply (finite_Tle a b Ha Hb) in H1. apply (finite_Tle b a Hb Ha) in H2. lia.
  - intros He. assert (Tle a b = true) as H1 by (apply finite_Tle; [assumption..|lia]).
    assert (Tle b a = true) as H2 by (apply finite_Tle; [assumption..|lia]).
    order.
Qed.

Lemma finite_not_nan a : finite T a = true → is_nan a = false.
Proof. destruct a; (discriminate || reflexivity). Qed.

(** ** [std::fmod] on the numbers of a type *)

(** The result is the remainder of the division that rounds towards zero,
    without any rounding of its own. *)
Lemma fmod_spec x y :
  finite T x = true → finite T y = true → Zval T y ≠ 0 →
  finite T (fmod T x y) = true ∧
  Zval T (fmod T x y) = Z.rem (Zval T x) (Zval T y).
Proof.
  intros Hx Hy Hy0.
  destruct y as [sy| | |sy my ey]; try discriminate; [simpl in Hy0; lia|].
  destruct x as [sx| | |sx mx ex]; try discriminate.
  { split; [reflexivity|]. simpl. symmetry. apply Z.rem_0_l. exact Hy0. }
  cbn [finite] in Hx, Hy.
  destruct (bounded_facts mx ex Hx) as (X1 & X2 & X3 & _).
  destruct (bounded_facts my ey Hy) as (Y1 & Y2 & Y3 & _).
  cbn [fmod]. set (e := Z.min ex ey).
  assert (emin ≤ e) as He by (unfold e; lia).
  set (X := Zpos mx * 2 ^ (ex - e)). set (Y := Zpos my * 2 ^ (ey - e)).
  pose proof (pow2_pos (ex - e) ltac:(unfold e; lia)) as HpX.
  pose proof (pow2_pos (ey - e) ltac:(unfold e; lia)) as HpY.
  pose proof (pow2_pos (e - emin) ltac:(lia)) as Hpe.
  assert (0 < X) as HX by (unfold X; lia). assert (0 < Y) as HY by (unfold Y; lia).
  pose proof (Z.mod_pos_bound X Y HY) as HR.
  assert (X * 2 ^ (e - emin) = Zpos mx * 2 ^ (ex - emin)) as EX.
  { unfold X. rewrite <- Z.mul_assoc, <- pow2_split by (unfold e; lia).
    do 2 f_equal. lia. }
  assert (Y * 2 ^ (e - emin) = Zpos my * 2 ^ (ey - emin)) as EY.
  { unfold Y. rewrite <- Z.mul_assoc, <- pow2_split by (unfold e; lia).
    do 2 f_equal. lia. }
  assert (Z.rem (Zval T (S754_finite sx mx ex)) (Zval T (S754_finite sy my ey))
          = cond_Zopp sx ((X mod Y) * 2 ^ (e - emin))) as Hrem.
  { cbn [Zval]. rewrite <- EX, <- EY.
    assert (Z.rem (X * 2 ^ (e - emin)) (Y * 2 ^ (e - emin))
            = (X mod Y) * 2 ^ (e - emin)) as Hr.
    { rewrite Z.rem_mod_nonneg by nia. apply Z.mul_mod_distr_r; lia. }
    destruct sx, sy; cbn [cond_Zopp];
      rewrite ?Z.rem_opp_opp, ?Z.rem_opp_l, ?Z.rem_opp_r by nia;
      rewrite Hr; reflexivity. }
  rewrite Hrem.
  destruct (X mod Y) as [|r|r] eqn:ER; try lia.
  { destruct sx; split; reflexivity. }
  assert (cond_Zopp sx (Zpos r) = if sx then Zneg r else Zpos r) as ->
    by (destruct sx; reflexivity).
  assert (binary_normalize p E (if sx then Zneg r else Zpos r) e sx
          = binary_round p E sx r e) as -> by (destruct sx; reflexivity).
  (* the remainder has no more bits than the dividend or the divisor *)
  assert (∃ mb eb, bounded p E mb eb = true ∧
            Zpos r * 2 ^ (e - emin) ≤ Zpos mb * 2 ^ (eb - emin) ∧
            Zpos (digits2_pos r) ≤ p) as (mb & eb & Hb & Hle & Hd).
  { destruct (Z.min_spec ex ey) as [[_ Hm]|[_ Hm]]; fold e in Hm.
    - exists mx, ex. split; [exact Hx|].
      assert (Zpos r ≤ Zpos mx) as Hrx.
      { assert (X = Zpos mx) as EX' by (unfold X; rewrite Hm, Z.sub_diag; simpl; lia).
        pose proof (Z.mod_le X Y ltac:(lia) HY). lia. }
      split; [rewrite <- EX; unfold X; rewrite Hm, Z.sub_diag; simpl (2 ^ 0); nia|].
      pose proof (digits_le r mx ltac:(lia)). lia.
    - exists my, ey. split; [exact Hy|].
      assert (Zpos r < Zpos my) as Hry.
      { assert (Y = Zpos my) as EY' by (unfold Y; rewrite Hm, Z.sub_diag; simpl; lia).
        lia. }
      split; [rewrite <- EY; unfold Y; rewrite Hm, Z.sub_diag; simpl (2 ^ 0); nia|].
      pose proof (digits_le r my ltac:(lia)). lia. }
  destruct (binary_round_le sx r e mb eb He Hb Hle) as (m' & e' & -> & Hb' & _ & Hex).
  split; [exact Hb'|]. cbn [Zval]. rewrite (Hex Hd). reflexivity.
Qed.


(** ** The sum of the wrapping step *)

Lemma shl_align_fst m e e' :
  e' ≤ e → Zpos (fst (shl_align m e e')) = Zpos m * 2 ^ (e - e').
Proof.
  intros Hle. destruct (shl_align_spec m e e' Hle) as (mz & -> & Hmz). exact Hmz.
Qed.

(** A remainder that is not positive plus the divisor: the sum is a number
    of the type, between zero and the divisor. *)
Lemma Tadd_fold r y :
  finite T r = true → finite T y = true →
  - Zval T y < Zval T r ≤ 0 →
  finite T (Tadd T r y) = true ∧ 0 ≤ Zval T (Tadd T r y) ≤ Zval T y.
Proof.
  intros Hr Hy [Hlo Hhi].
  destruct y as [sy| | |sy my ey]; try discriminate; [simpl in Hlo; simpl in Hhi; lia|].
  destruct r as [sr| | |sr mr er]; try discriminate.
  { unfold Tadd. cbn [SFadd]. split; [exact Hy|].
    change (Zval T (S754_zero sr)) with 0 in Hlo. lia. }
  cbn [finite] in Hr, Hy.
  destruct (bounded_facts mr er Hr) as (R1 & _).
  destruct (bounded_facts my ey Hy) as (Y1 & _).
  pose proof (pow2_pos (er - emin) ltac:(lia)).
  pose proof (pow2_pos (ey - emin) ltac:(lia)).
  destruct sr; [|cbn in Hhi; lia].
  destruct sy; [cbn in Hlo; lia|].
  cbn [Zval cond_Zopp] in Hlo, Hhi |- *.
  unfold Tadd. cbn [SFadd cond_Zopp]. set (e := Z.min er ey).
  assert (emin ≤ e) as He by (unfold e; lia).
  rewrite !shl_align_fst by (unfold e; lia).
  pose proof (pow2_pos (er - e) ltac:(unfold e; lia)).
  pose proof (pow2_pos (ey - e) ltac:(unfold e; lia)).
  pose proof (pow2_pos (e - emin) ltac:(lia)).
  assert (Zpos mr * 2 ^ (er - e) * 2 ^ (e - emin) = Zpos mr * 2 ^ (er - emin)) as ER.
  { rewrite <- Z.mul_assoc, <- pow2_split by (unfold e; lia). do 2 f_equal. lia. }
  assert (Zpos my * 2 ^ (ey - e) * 2 ^ (e - emin) = Zpos my * 2 ^ (ey - emin)) as EY.
  { rewrite <- Z.mul_assoc, <- pow2_split by (unfold e; lia). do 2 f_equal. lia. }
  destruct (- (Zpos mr * 2 ^ (er - e)) + Zpos my * 2 ^ (ey - e)) as [|s|s] eqn:ES;
    try nia.
  cbn [binary_normalize].
  destruct (binary_round_le false s e my ey He Hy) as (m' & e' & -> & Hb' & Hle & _).
  { nia. }
  split; [exact Hb'|]. cbn [Zval cond_Zopp].
  destruct (bounded_facts m' e' Hb') as (B1 & _).
  pose proof (pow2_pos (e' - emin) ltac:(lia)). lia.
Qed.

End Rounding.

(** ** The wrapping step on the numbers of a type *)

Section Wrap.
Variable T : DataType.

Lemma Tgt_zero_Zval a : finite T a = true → (Tgt a Tzero = true ↔ 0 < Zval T a).
Proof. intros Ha. apply (finite_Tgt T Tzero a eq_refl Ha). Qed.

Lemma Tge_zero_Zval a : finite T a = true → (Tge a Tzero = true ↔ 0 ≤ Zval T a).
Proof. intros Ha. apply (finite_Tle T Tzero a eq_refl Ha). Qed.

(** The two branches of the wrapping step for a period [> 0]: the
    remainders are exact, the sum is between zero and the period, and the
    result is a number of [[0, period)]. *)
Lemma wrap_spec period value :
  finite T period = true → finite T value = true → Tgt period Tzero = true →
  let w := wrap T (Tgt period Tzero) period value in
  let r := fmod T value period in
  finite T w = true ∧ 0 ≤ Zval T w < Zval T period ∧
  Zval T r = Z.rem (Zval T value) (Zval T period) ∧
  (Tge value Tzero = true → w = r) ∧
  (Tge value Tzero = false →
     - Zval T period < Zval T r ≤ 0 ∧
     finite T (Tadd T r period) = true ∧
     0 ≤ Zval T (Tadd T r period) ≤ Zval T period ∧
     w = fmod T (Tadd T r period) period ∧
     Zval T w = Z.rem (Zval T (Tadd T r period)) (Zval T period)).
Proof.
  intros Hp Hv Hpos w r. pose proof Hpos as HP. apply (Tgt_zero_Zval _ Hp) in HP.
  destruct (fmod_spec T value period Hv Hp ltac:(lia)) as [Hr Er]. fold r in Hr, Er.
  unfold w, wrap. rewrite Hpos. fold r.
  destruct (Tge value Tzero) eqn:Hge.
  - apply (Tge_zero_Zval _ Hv) in Hge.
    pose proof (Z.rem_bound_pos (Zval T value) (Zval T period) Hge HP).
    split; [exact Hr|]. split; [lia|]. split; [exact Er|].
    split; [reflexivity | discriminate].
  - assert (Zval T value < 0) as Hneg.
    { destruct (Z.lt_ge_cases (Zval T value) 0) as [|Hn]; [assumption|].
      apply (Tge_zero_Zval _ Hv) in Hn. congruence. }
    pose proof (Z.rem_bound_neg_pos (Zval T value) (Zval T period)) as _.
    assert (- Zval T period < Zval T r ≤ 0) as Hrb.
    { rewrite Er.
      pose proof (Z.rem_bound_pos (- Zval T value) (Zval T period) ltac:(lia) HP).
      rewrite Z.rem_opp_l in H by lia. lia. }
    destruct (Tadd_fold T r period Hr Hp Hrb) as [Hs Bs].
    destruct (fmod_spec T (Tadd T r period) period Hs Hp ltac:(lia)) as [Hw Ew].
    pose proof (Z.rem_bound_pos (Zval T (Tadd T r period)) (Zval T period)
                  ltac:(lia) HP).
    split; [exact Hw|]. split; [lia|]. split; [exact Er|].
    split; [discriminate|]. intros _. auto.
Qed.


(** Numbers never wrap to NaN. *)
Lemma wrap_not_nan period value :
  finite T period = true → finite T value = true →
  is_nan (wrap T (Tgt period Tzero) period value) = false.
Proof.
  intros Hp Hv. destruct (Tgt period Tzero) eqn:Hpos.
  - rewrite <- Hpos.
    destruct (wrap_spec period value Hp Hv Hpos) as (Hw & _).
    apply (finite_not_nan T), Hw.
  - simpl. apply (finite_not_nan T), Hv.
Qed.

End Wrap.

(** ** The search on a value that is NaN *)

Lemma search_loop_nan x value N :
  is_nan value = true → (∀ i, 0 ≤ i < N → is_Some (load x i)) →
  ∀ low high, -1 ≤ low → low < high → high ≤ N →
  search_loop x value low high = Some high.
Proof.
  intros Hnan Hx low high. remember (Z.to_nat (high - low)) as d eqn:Hd.
  revert low Hd. induction d as [d IH] using lt_wf_ind. intros low Hd Hlow Hlt Hhigh.
  rewrite search_loop_eq. destruct (decide (1 < high - low)) as [Hc|Hc]; [|reflexivity].
  pose proof (probe_between low high Hc) as Hp. unfold search_body.
  destruct (Hx ((low + high) ÷ 2)) as [v Hv]; [lia|]. rewrite Hv. simpl.
  assert (Tgt v value = false) as -> by (destruct value; (discriminate || order)).
  simpl. apply (IH (Z.to_nat (high - (low + high) ÷ 2))); lia.
Qed.

(** ** The shape function *)

Lemma merge_dims_same i (l : list (option Z)) : merge_dims i l l = inr l.
Proof.
  revert i. induction l as [|d l IH]; intros i; [reflexivity|].
  cbn [merge_dims]. assert (merge_dim i d d = inr d) as ->.
  { destruct d as [a|]; simpl; [rewrite Z.eqb_refl|]; reflexivity. }
  simpl. rewrite IH. reflexivity.
Qed.

Lemma merge_dims_known i (a b : list Z) l :
  length a = length b →
  merge_dims i (Some <$> a) (Some <$> b) = inr l → a = b.
Proof.
  revert i b l. induction a as [|u a IH]; intros i [|w b] l Hlen H;
    try discriminate; [reflexivity|].
  cbn [fmap list_fmap merge_dims merge_dim] in H.
  destruct (Z.eqb_spec u w) as [->|]; [|discriminate]. simpl in H.
  destruct (merge_dims (i + 1) (Some <$> a) (Some <$> b)) as [e|r] eqn:E;
    [discriminate|].
  f_equal. apply (IH (i + 1) b r); [simpl in Hlen; lia | exact E].
Qed.

Lemma Merge_same (s : ShapeHandle) : Merge s s = inr s.
Proof.
  destruct s as [l|]; [|reflexivity]. unfold Merge.
  rewrite Z.eqb_refl, merge_dims_same. reflexivity.
Qed.

Lemma Merge_known a b m : Merge (known a) (known b) = inr m → a = b.
Proof.
  unfold Merge, known. rewrite !length_fmap.
  destruct (Z.eqb_spec (Z.of_nat (length a)) (Z.of_nat (length b))) as [Hl|];
    [|discriminate].
  destruct (merge_dims 0 (Some <$> a) (Some <$> b)) as [e|l] eqn:E;
    [discriminate|]. intros _. apply (merge_dims_known 0 a b l); [lia | exact E].
Qed.

Lemma Subshape_init (ds : list (option Z)) :
  1 ≤ Z.of_nat (length ds) →
  Subshape (Some ds) 0 (-1) = inr (Some (take (length ds - 1) ds)).
Proof.
  intros Hr. unfold Subshape. set (rank := Z.of_nat (length ds)) in *.
  destruct (Z.geb_spec (-1) rank); [lia|]. cbn [andb Z.eqb].
  destruct (Z.gtb_spec 0 rank); [lia|].
  destruct (Z.gtb_spec (-1) rank); [lia|]. cbn [Z.ltb Z.compare].
  destruct (Z.ltb_spec (rank + -1) 0); [lia|].
  destruct (Z.gtb_spec 0 (rank + -1)); [lia|]. cbn [orb].
  do 2 f_equal. simpl. f_equal. unfold rank. lia.
Qed.

Lemma WithRankAtLeast_1 (s : ShapeHandle) r :
  WithRankAtLeast s 1 = inr r →
  r = s ∧ ∀ ds, s = Some ds → 1 ≤ Z.of_nat (length ds).
Proof.
  unfold WithRankAtLeast. destruct s as [ds|]; simpl.
  - destruct (Z.geb_spec (Z.of_nat (length ds)) 1); [|discriminate].
    intros [= <-]. split; [reflexivity|]. intros ? [= <-]. assumption.
  - intros [= <-]. split; [reflexivity | discriminate].
Qed.

Lemma requirements_shapes c :
  requirements c ↔
  ∃ batch N M, shape (input_t c) = batch ++ [N] ∧ shape (input_p c) = batch ∧
               shape (input_x c) = batch ++ [M] ∧ shape (input_y c) = batch ++ [M].
Proof.
  unfold requirements, dims_agree, dims, dim_size.
  set (t := shape (input_t c)). set (p := shape (input_p c)).
  set (x := shape (input_x c)). set (y := shape (input_y c)). split.
  - intros (H1 & H2 & H3 & H4 & H5).
    destruct t as [|N batch _] using rev_ind; [simpl in H1; lia|].
    destruct x as [|M bx _] using rev_ind.
    { rewrite length_app in H3. simpl in H3. lia. }
    rewrite !length_app in *. simpl in *.
    exists batch, N, M.
    assert (bx = batch ∧ p = batch) as [-> ->].
    { split; apply list_eq_same_length with (length batch); try lia;
        intros i a b Hi Ha Hb;
        destruct (H5 (Z.of_nat i) ltac:(lia)) as [E1 E2];
        rewrite !rd_app_l, !rd_list, Nat2Z.id in E1 by lia;
        rewrite rd_app_l, !rd_list, Nat2Z.id in E2 by lia; congruence. }
    auto.
  - intros (batch & N & M & -> & -> & -> & ->).
    rewrite !length_app. simpl. split; [lia|]. split; [lia|]. split; [lia|].
    split; [reflexivity|]. intros k Hk. rewrite !rd_app_l by lia. auto.
Qed.

Lemma take_snoc {A} (l : list A) a : take (length (l ++ [a]) - 1) (l ++ [a]) = l.
Proof.
  rewrite length_app. simpl. replace (length l + 1 - 1)%nat with (length l) by lia.
  apply take_app_length.
Qed.

Lemma WithRankAtLeast_known (sh : list Z) :
  (1 ≤ length sh)%nat → WithRankAtLeast (known sh) 1 = inr (known sh).
Proof.
  intros H. unfold WithRankAtLeast, known, Rank. cbn [mbind option_bind].
  rewrite length_fmap. destruct (Z.geb_spec (Z.of_nat (length sh)) 1); [|lia].
  reflexivity.
Qed.

Lemma Subshape_known (l : list Z) (a : Z) :
  Subshape (known (l ++ [a])) 0 (-1) = inr (known l).
Proof.
  unfold known. rewrite Subshape_init by (rewrite length_fmap, length_app; simpl; lia).
  rewrite fmap_app. cbn [fmap list_fmap]. rewrite take_snoc. reflexivity.
Qed.

Lemma shape_fn_batch (batch : list Z) (N M : Z) :
  (1 ≤ length batch)%nat →
  shape_fn (known (batch ++ [N])) (known batch) (known (batch ++ [M]))
    (known (batch ++ [M]))
  = inr (known (batch ++ [N]), known (batch ++ [N]), known (batch ++ [N])).
Proof.
  intros Hb. unfold shape_fn.
  rewrite !WithRankAtLeast_known by (rewrite ?length_app; simpl; lia).
  cbn [and_then]. rewrite Merge_same. cbn [and_then].
  rewrite !Subshape_known. cbn [and_then].
  rewrite Merge_same. cbn [and_then]. rewrite Merge_same. reflexivity.
Qed.

Lemma merge_dims_stands i l0 l1 sh :
  Forall2 dim_for l0 sh → Forall2 dim_for l1 sh →
  ∃ l, merge_dims i l0 l1 = inr l ∧ Forall2 dim_for l sh.
Proof.
  intros H0. revert i l1. induction H0 as [|d0 z r0 sh Hd0 _ IH]; intros i l1 H1.
  - exists []. split; [destruct l1; reflexivity | constructor].
  - inversion H1 as [|d1 z' r1 sh' Hd1 Hr1]; subst.
    destruct (IH (i + 1) r1 Hr1) as (r & Hr & Hrs).
    assert (∃ d, merge_dim i d0 d1 = inr d ∧ dim_for d z) as (d & Hd & Hdz).
    { destruct Hd0 as [-> | ->], Hd1 as [-> | ->]; simpl.
      - exists None. split; [reflexivity | left; reflexivity].
      - exists (Some z). split; [reflexivity | right; reflexivity].
      - exists (Some z). split; [reflexivity | right; reflexivity].
      - rewrite Z.eqb_refl. exists (Some z). split; [reflexivity | right; reflexivity]. }
    exists (d :: r). cbn [merge_dims]. rewrite Hd. cbn [and_then]. rewrite Hr.
    split; [reflexivity | constructor; assumption].
Qed.

Lemma Merge_stands (s0 s1 : ShapeHandle) sh :
  stands_for s0 sh → stands_for s1 sh →
  ∃ m, Merge s0 s1 = inr m ∧ stands_for m sh.
Proof.
  destruct s0 as [l0|], s1 as [l1|]; simpl; intros H0 H1.
  - pose proof (Forall2_length H0). pose proof (Forall2_length H1).
    destruct (Z.eqb_spec (Z.of_nat (length l0)) (Z.of_nat (length l1))); [|lia].
    destruct (merge_dims_stands 0 l0 l1 sh H0 H1) as (l & -> & Hl).
    exists (Some l). split; [reflexivity | exact Hl].
  - exists (Some l0). split; [reflexivity | exact H0].
  - exists (Some l1). split; [reflexivity | exact H1].
  - exists None. split; [reflexivity | exact I].
Qed.

Lemma Subshape_stands (s : ShapeHandle) (l : list Z) (a : Z) :
  stands_for s (l ++ [a]) →
  ∃ s', Subshape s 0 (-1) = inr s' ∧ stands_for s' l.
Proof.
  destruct s as [ds|]; [|exists None; split; [reflexivity | exact I]].
  intros H. pose proof (Forall2_length H) as Hlen.
  rewrite length_app in Hlen. simpl in Hlen.
  rewrite Subshape_init by lia. eexists. split; [reflexivity|].
  cbn [stands_for]. apply (Forall2_take _ _ _ (length ds - 1)) in H.
  rewrite Hlen in *. replace (length l + 1 - 1)%nat with (length l) in * by lia.
  rewrite take_app_length in H. exact H.
Qed.

Lemma WithRankAtLeast_stands (s : ShapeHandle) sh :
  stands_for s sh → (1 ≤ length sh)%nat → WithRankAtLeast s 1 = inr s.
Proof.
  destruct s as [ds|]; [|reflexivity]. intros H Hl.
  pose proof (Forall2_length H). unfold WithRankAtLeast, Rank.
  cbn [mbind option_bind]. destruct (Z.geb_spec (Z.of_nat (length ds)) 1); [|lia].
  reflexivity.
Qed.

(** Shows that a handle stands for a shape, dimension by dimension. *)
Ltac stands :=
  cbn [stands_for known fmap list_fmap app];
  repeat first [ exact I | apply Forall2_nil
               | apply Forall2_cons; [first [left; reflexivity | right; reflexivity]|] ].

(** ** The sample calls *)

(** Splits a goal on an index [k] with [H : 0 <= k < c] into the cases
    [k = 0], ..., [k = c - 1]. *)
Ltac each_index k H :=
  let Hin := fresh "Hin" in
  match type of H with
  | 0 ≤ k < ?c => assert (k ∈ seqZ 0 c) as Hin by (apply elem_of_seqZ; lia)
  end;
  clear H; vm_compute in Hin;
  repeat (apply elem_of_cons in Hin as [->|Hin]);
  try (apply elem_of_nil in Hin; destruct Hin).

(** Shows that the numbers of a sample call are not NaN, cell by cell. *)
Ltac no_nan_cells T :=
  let k := fresh "k" in let n := fresh "n" in
  let Hk := fresh "Hk" in let Hn := fresh "Hn" in
  intros k n Hk Hn; each_index k Hk; each_index n Hn;
  destruct T; vm_compute; reflexivity.

Lemma plenty_sharded (c : OpKernelContext) batch N M :
  shape (input_t c) = batch ++ [N] → shape (input_p c) = batch →
  shape (input_x c) = batch ++ [M] → shape (input_y c) = batch ++ [M] →
  Forall (λ d, 0 ≤ d) batch → 0 ≤ N → 0 ≤ M →
  Z.of_nat (length (flat (input_t c))) = num_elements (batch ++ [N]) →
  Z.of_nat (length (flat (input_p c))) = num_elements batch →
  Z.of_nat (length (flat (input_x c))) = num_elements (batch ++ [M]) →
  Z.of_nat (length (flat (input_y c))) = num_elements (batch ++ [M]) →
  (∀ i, allocator c i = OK) → (∀ cost, sharding N (shard_blocks c N cost)) →
  shaped_call c batch N M.
Proof. intros. constructor; assumption. Qed.

(** Shows that a sample call is well formed. *)
Ltac shaped :=
  apply plenty_sharded;
  [ reflexivity | reflexivity | reflexivity | reflexivity
  | repeat constructor; lia | lia | lia
  | reflexivity | reflexivity | reflexivity | reflexivity
  | intros ?; reflexivity
  | intros ?; first [ apply one_block; lia
                    | exists [(0, 1); (1, 3)];
                      split; [apply Permutation_swap | reflexivity] ] ].

Section SampleCalls.
Variable T : DataType.

Lemma demo_shaped : shaped_call (demo T) [2] 3 3.
Proof. shaped. Qed.

Lemma demo_valid : valid_call T (demo T) [2] 3 3.
Proof. constructor; [exact demo_shaped | lia | no_nan_cells T]. Qed.

Lemma demo_swapped_valid : valid_call T (demo_swapped T) [2] 3 3.
Proof. constructor; [shaped | lia | no_nan_cells T]. Qed.

Lemma scenario_valid : valid_call T (scenario T) [1] 7 4.
Proof. constructor; [shaped | lia | no_nan_cells T]. Qed.

Lemma one_knot_valid : valid_call T (one_knot T) [1] 2 1.
Proof. constructor; [shaped | lia | no_nan_cells T]. Qed.

Lemma scalar_p_valid : valid_call T (scalar_p T) [] 3 3.
Proof. constructor; [shaped | lia | no_nan_cells T]. Qed.

Lemma no_knots_shaped : shaped_call (no_knots T) [1] 2 0.
Proof. shaped. Qed.

Lemma no_query_shaped : shaped_call (no_query T) [2] 0 0.
Proof. shaped. Qed.

Lemma inf_query_shaped : shaped_call (inf_query T) [1] 1 3.
Proof. shaped. Qed.

Lemma demo_rows_x i :
  0 ≤ i < 3 →
  at2 (input_x (demo T)) 3 0 i = at2 (input_x (demo_swapped T)) 3 1 i.
Proof. intros Hi. each_index i Hi; reflexivity. Qed.

Lemma demo_rows_y i :
  0 ≤ i < 3 →
  at2 (input_y (demo T)) 3 0 i = at2 (input_y (demo_swapped T)) 3 1 i.
Proof. intros Hi. each_index i Hi; reflexivity. Qed.

Lemma demo_requirements : requirements (demo T).
Proof.
  apply requirements_shapes. exists [2], 3, 3. repeat split; reflexivity.
Qed.

End SampleCalls.

(** ** Calls that pass validation *)

Lemma requirements_dims c :
  requirements c →
  ∃ N M, dim_size (input_t c) (dims (input_t c) - 1) = Some N ∧
         dim_size (input_x c) (dims (input_t c) - 1) = Some M.
Proof.
  intros (H1 & _ & H3 & _).
  destruct (dim_size_Some (input_t c) (dims (input_t c) - 1)) as [N HN]; [lia|].
  destruct (dim_size_Some (input_x c) (dims (input_t c) - 1)) as [M HM]; [lia|].
  eauto.
Qed.

(** A call whose shapes meet the five requirements goes on to the
    allocation of its outputs. *)
Lemma Compute_checked T c N M :
  requirements c →
  dim_size (input_t c) (dims (input_t c) - 1) = Some N →
  dim_size (input_x c) (dims (input_t c) - 1) = Some M →
  Compute T c =
  allocate_and_run T (input_t c) (input_p c) (input_x c) (input_y c)
    (batch_size (input_t c)) N M c.
Proof.
  intros (H1 & H2 & H3 & H4 & H5) HN HM.
  set (t := input_t c) in *. set (p := input_p c) in *.
  set (x := input_x c) in *. set (y := input_y c) in *.
  unfold Compute.
  unfold bind at 1. unfold get at 1. fold t p x y.
  require_step. destruct (Z.geb_spec (dims t) 1) as [_|?]; [|lia].
  require_step. rewrite (proj2 (Z.eqb_eq _ _) H2).
  require_step. rewrite (proj2 (Z.eqb_eq _ _) H3).
  require_step. rewrite bool_decide_true by exact H4.
  unfold bind at 1.
  destruct (check_dims_spec t p x (seqZ 0 (dims t - 1)) 1 c) as [[_ ->]|[Hex _]].
  - intros k Hk%elem_of_seqZ. repeat split; apply dim_size_Some; lia.
  - unfold bind at 1. unfold defined at 1. rewrite HN.
    unfold bind at 1. unfold defined at 1. rewrite HM. reflexivity.
  - exfalso. apply list.Exists_exists in Hex as (k & Hk%elem_of_seqZ & Hne).
    apply Hne, H5. lia.
Qed.

(** What the allocation of the three outputs leaves when the first request
    that is refused is the one for the output [i]. *)
Lemma allocate_and_run_refused T c (t p x y : Tensor spec_float) size N M i :
  0 ≤ i ≤ 2 → allocator c i ≠ OK → (∀ j, 0 ≤ j < i → allocator c j = OK) →
  allocate_and_run T t p x y size N M c =
  Return (set_status (allocator c i)
            (set_outputs
               (if 0 <? i then Some (fresh (fresh_T c 0) (shape t)) else output_v c)
               (if 1 <? i then Some (fresh (fresh_T c 1) (shape t)) else output_a c)
               (output_inds c) c)).
Proof.
  intros Hi Herr Hok. unfold allocate_and_run.
  assert (i = 0 ∨ i = 1 ∨ i = 2) as [->|[->| ->]] by lia.
  - unfold bind at 1. unfold allocate_output_0 at 1.
    destruct (allocator c 0) eqn:E0; [congruence| |];
      (unfold bind at 1; unfold OP_REQUIRES_OK at 1; destruct c; reflexivity).
  - unfold bind at 1. unfold allocate_output_0 at 1. rewrite (Hok 0) by lia.
    unfold bind at 1. unfold OP_REQUIRES_OK at 1.
    unfold bind at 1. unfold allocate_output_1 at 1. cbn [allocator set_outputs].
    destruct (allocator c 1) eqn:E1; [congruence| |];
      (unfold bind at 1; unfold OP_REQUIRES_OK at 1; reflexivity).
  - unfold bind at 1. unfold allocate_output_0 at 1. rewrite (Hok 0) by lia.
    unfold bind at 1. unfold OP_REQUIRES_OK at 1.
    unfold bind at 1. unfold allocate_output_1 at 1. cbn [allocator set_outputs].
    rewrite (Hok 1) by lia.
    unfold bind at 1. unfold OP_REQUIRES_OK at 1.
    unfold bind at 1. unfold allocate_output_2 at 1. cbn [allocator set_outputs].
    destruct (allocator c 2) eqn:E2; [congruence| |];
      (unfold bind at 1; unfold OP_REQUIRES_OK at 1; reflexivity).
Qed.

Lemma allocate_and_run_granted T c (t p x y : Tensor spec_float) size N M :
  (∀ j, 0 ≤ j ≤ 2 → allocator c j = OK) →
  allocate_and_run T t p x y size N M c =
  for_K (row T t p x y N M) (seqZ 0 size) tt
    (with_out c (shape t) (allocated c (shape t))).
Proof.
  intros Hok. unfold allocate_and_run.
  unfold bind at 1. unfold allocate_output_0 at 1. rewrite (Hok 0) by lia.
  unfold bind at 1. unfold OP_REQUIRES_OK at 1.
  unfold bind at 1. unfold allocate_output_1 at 1. cbn [allocator set_outputs].
  rewrite (Hok 1) by lia.
  unfold bind at 1. unfold OP_REQUIRES_OK at 1.
  unfold bind at 1. unfold allocate_output_2 at 1. cbn [allocator set_outputs].
  rewrite (Hok 2) by lia.
  unfold bind at 1. unfold OP_REQUIRES_OK at 1. reflexivity.
Qed.

(** ** A row that cannot be run *)

Lemma for_each_None {I S} (body : I → S → option S) ns n :
  n ∈ ns → (∀ s, body n s = None) → ∀ s, for_each body ns s = None.
Proof.
  intros Hin Hn. induction ns as [|m ns IH]; intros s.
  - apply elem_of_nil in Hin. destruct Hin.
  - cbn [for_each]. apply elem_of_cons in Hin as [<-|Hin].
    + rewrite Hn. reflexivity.
    + destruct (body m s); [apply IH, Hin | reflexivity].
Qed.

Lemma for_K_app {S} (body : Z → S → K S) l1 l2 s c :
  for_K body (l1 ++ l2) s c =
  match for_K body l1 s c with
  | Next s' c' => for_K body l2 s' c'
  | Return c' => Return c'
  | Undefined => Undefined
  end.
Proof.
  revert s c. induction l1 as [|k l1 IH]; intros s c; [reflexivity|].
  cbn [app for_K]. unfold bind. destruct (body k s c); [apply IH | reflexivity..].
Qed.

(** The loop over the rows goes on with the context of the call and other
    buffers, or has no defined behaviour. *)
Lemma rows_outcome T c (t p x y : Tensor spec_float) N M sh ks : ∀ st,
  (∃ st', for_K (row T t p x y N M) ks tt (with_out c sh st)
          = Next tt (with_out c sh st')) ∨
  for_K (row T t p x y N M) ks tt (with_out c sh st) = Undefined.
Proof.
  induction ks as [|k ks IH]; intros st; [left; exists st; reflexivity|].
  assert (for_K (row T t p x y N M) (k :: ks) tt (with_out c sh st) =
          match row T t p x y N M k tt (with_out c sh st) with
          | Next s' c' => for_K (row T t p x y N M) ks s' c'
          | Return c' => Return c'
          | Undefined => Undefined
          end) as -> by reflexivity.
  destruct (rd (flat p) k) as [pk|] eqn:Hpk.
  - destruct (Shard (shard_blocks c N (5 * M))
                (work T (row_captures t p x y N M k pk)) st) as [st1|] eqn:HS.
    + rewrite (row_step T c t p x y N M sh k pk st st1 Hpk HS). apply IH.
    + right. destruct st as [bv ba bi].
      unfold row, bind, defined, get, on_outputs. rewrite Hpk.
      cbn -[Shard work row_captures Z.mul]. rewrite HS. reflexivity.
  - right. unfold row, bind, defined. rewrite Hpk. reflexivity.
Qed.

(** A query that wraps to NaN fails the two clamp tests and every test of
    the search, which returns [M]; in the last row of [x] the knot of index
    [M] is beyond the buffer. *)
Lemma eval_nan T (c : Captures) (N n : Z) tv :
  inputs_ok c N → load (tk c) n = Some tv →
  is_nan (wrap T (flag c) (period c) tv) = true →
  load (xk c) (cM c) = None → eval T c n = None.
Proof.
  intros (HM & Ht & Hx & Hy) Htv Hnan Hend.
  destruct (Hx 0) as [x0 Hx0]; [lia|]. destruct (Hx (cM c - 1)) as [xl Hxl]; [lia|].
  unfold eval. rewrite Htv. cbn [mbind option_bind].
  set (w := wrap T (flag c) (period c) tv) in *.
  rewrite Hx0. cbn [mbind option_bind].
  assert (Tle w x0 = false) as -> by (destruct w; (discriminate || reflexivity)).
  rewrite Hxl. cbn [mbind option_bind].
  assert (Tge w xl = false) as ->.
  { destruct w; try discriminate. unfold Tge, SFleb. destruct xl; reflexivity. }
  unfold search_sorted.
  rewrite (search_loop_nan (xk c) w (cM c) Hnan Hx) by lia.
  cbn [mbind option_bind]. rewrite Hxl. cbn [mbind option_bind].
  rewrite Hend. reflexivity.
Qed.

(** ** Rows of a shaped call *)

Lemma requirements_dec c :
  let t := input_t c in let p := input_p c in
  let x := input_x c in let y := input_y c in
  requirements c ∨
  (dims t < 1 ∨ dims p ≠ dims t - 1 ∨ dims x ≠ dims t ∨ shape y ≠ shape x ∨
   (∃ k, 0 ≤ k < dims t - 1 ∧ ¬ dims_agree t p x k)).
Proof.
  intros t p x y. unfold requirements. fold t p x y.
  destruct (Z.le_gt_cases 1 (dims t)) as [H1|H1]; [|right; left; lia].
  destruct (Z.eq_dec (dims p) (dims t - 1)) as [H2|H2]; [|right; tauto].
  destruct (Z.eq_dec (dims x) (dims t)) as [H3|H3]; [|right; tauto].
  destruct (decide (shape y = shape x)) as [H4|H4]; [|right; tauto].
  destruct (check_dims_spec t p x (seqZ 0 (dims t - 1)) 1 c) as [[Hall _]|[Hex _]].
  - intros k' Hk'%elem_of_seqZ. repeat split; apply dim_size_Some; lia.
  - left. split; [exact H1|]. split; [exact H2|]. split; [exact H3|].
    split; [exact H4|]. intros k' Hk'.
    rewrite list.Forall_forall in Hall. apply Hall, elem_of_seqZ. lia.
  - right. do 4 right.
    apply list.Exists_exists in Hex as (k & Hk%elem_of_seqZ & Hne).
    exists k. split; [lia | exact Hne].
Qed.

Lemma Status_OK_dec (s : Status) : s = OK ∨ s ≠ OK.
Proof. destruct s; [left; reflexivity | right; discriminate..]. Qed.

Lemma row_undefined T c (t p x y : Tensor spec_float) N M sh k pk st :
  rd (flat p) k = Some pk →
  Shard (shard_blocks c N (5 * M)) (work T (row_captures t p x y N M k pk)) st
    = None →
  row T t p x y N M k tt (with_out c sh st) = Undefined.
Proof.
  intros Hpk HS. destruct st as [bv ba bi].
  unfold row, bind, defined, get, on_outputs. rewrite Hpk.
  cbn -[Shard work row_captures Z.mul]. rewrite HS. reflexivity.
Qed.

Lemma shaped_inputs_ok c batch N M k pk :
  shaped_call c batch N M → 1 ≤ M → 0 ≤ k < num_elements batch →
  inputs_ok (row_captures (input_t c) (input_p c) (input_x c) (input_y c)
               N M k pk) N.
Proof.
  intros [St Sp Sx Sy Sb SN SM Ft Fp Fx Fy Sal Ssh] HM Hk.
  rewrite num_elements_row in Ft, Fx, Fy.
  unfold inputs_ok, load. simpl. split; [exact HM|].
  repeat split; intros i Hi; apply rd_inb; unfold inb.
  - pose proof (flat_index_bound _ N k i Hk Hi). lia.
  - pose proof (flat_index_bound _ M k i Hk Hi). lia.
  - pose proof (flat_index_bound _ M k i Hk Hi). lia.
Qed.

Lemma rd_elem_of {A} (l : list A) i a : rd l i = Some a → a ∈ l.
Proof.
  unfold rd. destruct (i <? 0); [discriminate|]. apply list_elem_of_lookup_2.
Qed.

(** * The claims *)



(** C2.  On knots sorted ascending (each one less than the next), of
    length [M >= 2], and a value with [x[0] < value < x[M-1]],
    [search_sorted] returns the smallest index [i] of [[1, M-1]] with
    [x[i] > value]: the test holds at [i] and fails at every index below.
    A value equal to an interior knot [x[k]] yields the index [k + 1]. *)
Theorem search_sorted_smallest (x : cptr spec_float) (xs : list spec_float)
    (value x0 xl : spec_float) :
  let M := Z.of_nat (length xs) in
  array_at x xs → 2 ≤ M → ascending xs = true →
  rd xs 0 = Some x0 → rd xs (M - 1) = Some xl →
  Tgt value x0 = true → Tgt xl value = true →
  ∃ i xi, search_sorted M x value = Some i ∧ 1 ≤ i ≤ M - 1 ∧
    rd xs i = Some xi ∧ Tgt xi value = true ∧
    (∀ j xj, 0 ≤ j < i → rd xs j = Some xj → Tgt xj value = false) ∧
    (∀ k xk, 0 < k < M - 1 → rd xs k = Some xk → Teq xk value = true →
       i = k + 1).
Proof.
  intros M Harr HM Hasc H0 Hl Hlo Hhi.
  assert (∀ i, 0 ≤ i < M → load x i = rd xs i) as Hload.
  { intros i Hi. apply (load_array_rd x xs i Harr Hi). }
  destruct (search_sorted_bracket x value M x0 xl)
    as (i & xlo & xhi & Hs & Hi & Hxlo & Hxhi & Hle & Hlt).
  { intros i Hi. eapply load_array_at_Some; [exact Harr | exact Hi]. }
  { lia. }
  { rewrite Hload by lia. exact H0. }
  { rewrite Hload by lia. exact Hl. }
  { apply Tgt_Tle, Hlo. }
  { exact Hhi. }
  rewrite Hload in Hxlo, Hxhi by lia.
  exists i, xhi. repeat (split; [assumption || lia|]). split.
  - intros j xj Hj Hxj.
    destruct (Z.eq_dec j (i - 1)) as [->|Hne].
    + rewrite Hxlo in Hxj. injection Hxj as <-. exact Hle.
    + pose proof (ascending_rd xs j (i - 1) xj xlo Hasc ltac:(lia) Hxj Hxlo) as Hj1.
      clear - Hle Hj1. order.
  - intros k xk Hk Hxk Heq.
    rewrite <- (Teq_Tgt_r xk value xhi Heq) in Hlt.
    rewrite <- (Teq_Tgt_r xk value xlo Heq) in Hle.
    destruct (Z.lt_trichotomy i (k + 1)) as [Hc|[Hc|Hc]]; [|exact Hc|].
    + exfalso. destruct (Z.eq_dec i k) as [->|Hne].
      * rewrite Hxk in Hxhi. injection Hxhi as <-. clear - Hlt. order.
      * pose proof (ascending_rd xs i k xhi xk Hasc ltac:(lia) Hxhi Hxk) as Hik.
        clear - Hlt Hik. order.
    + exfalso.
      pose proof (ascending_rd xs k (i - 1) xk xlo Hasc ltac:(lia) Hxk Hxlo) as Hki.
      congruence.
Qed.

Lemma search_sorted_smallest_witness :
  let T := DT_DOUBLE in
  let xs := [num T 0; num T 1; num T 2; num T 3] in
  array_at (Cptr xs 0) xs ∧ ascending xs = true ∧
  ∃ i xi, search_sorted 4 (Cptr xs 0) (num T 1) = Some i ∧ 1 ≤ i ≤ 4 - 1 ∧
    rd xs i = Some xi ∧ Tgt xi (num T 1) = true ∧
    (∀ j xj, 0 ≤ j < i → rd xs j = Some xj → Tgt xj (num T 1) = false) ∧
    (∀ k xk, 0 < k < 4 - 1 → rd xs k = Some xk → Teq xk (num T 1) = true →
       i = k + 1).
Proof.
  intros T xs.
  split; [apply array_at_list|]. split; [reflexivity|].
  apply (search_sorted_smallest (Cptr xs 0) xs (num T 1) (num T 0) (num T 3)
           (array_at_list xs)); by_evaluation.
Defined.

(** C3.  For every row [k] and query [n] of a valid call, if the wrapped
    query is [<= x[k][0]] then [v[k][n] = y[k][0]] and [inds[k][n] = 0];
    otherwise, if it is [>= x[k][M-1]], then [v[k][n] = y[k][M-1]] and
    [inds[k][n] = M + 1].  In both cases [a[k][n]] still holds what
    [allocate_output] left there. *)
Theorem clamp_outputs T c batch N M k n tv pk x0 xl y0 yl :
  let t := input_t c in let p := input_p c in
  let x := input_x c in let y := input_y c in
  valid_call T c batch N M → 0 ≤ k < num_elements batch → 0 ≤ n < N →
  at2 t N k n = Some tv → rd (flat p) k = Some pk →
  at2 x M k 0 = Some x0 → at2 x M k (M - 1) = Some xl →
  at2 y M k 0 = Some y0 → at2 y M k (M - 1) = Some yl →
  let wrapped := wrap T (Tgt pk Tzero) pk tv in
  Tle wrapped x0 = true ∨ Tge wrapped xl = true →
  ∃ v a inds,
    returns T c v a inds ∧
    at2 a N k n = Some (fresh_T c 1 (Z.to_nat (k * N + n))) ∧
    (Tle wrapped x0 = true → at2 v N k n = Some y0 ∧ at2 inds N k n = Some 0) ∧
    (Tle wrapped x0 = false → Tge wrapped xl = true →
       at2 v N k n = Some yl ∧ at2 inds N k n = Some (M + 1)).
Proof.
  intros t p x y V Hk Hn Htv Hpk Hx0 Hxl Hy0 Hyl wrapped Hclamp.
  destruct (Compute_cell T c batch N M k n tv pk V Hk Hn Htv Hpk)
    as (v & a & inds & r & Hret & Hin & Hload & Hcmp & Hr & Cv & Ca & Ci).
  destruct (eval_cases T _ N n tv Hin Hload Hcmp)
    as (x0' & xl' & y0' & yl' & Hx0' & Hxl' & Hy0' & Hyl' & Hcases).
  change (at2 x M k 0 = Some x0') in Hx0'.
  change (at2 x M k (M - 1) = Some xl') in Hxl'.
  change (at2 y M k 0 = Some y0') in Hy0'.
  change (at2 y M k (M - 1) = Some yl') in Hyl'.
  rewrite Hx0 in Hx0'. injection Hx0' as <-.
  rewrite Hxl in Hxl'. injection Hxl' as <-.
  rewrite Hy0 in Hy0'. injection Hy0' as <-.
  rewrite Hyl in Hyl'. injection Hyl' as <-.
  change (wrap _ _ _ tv) with wrapped in Hcases.
  exists v, a, inds. split; [exact Hret|].
  destruct Hcases as [[H He]|[(H1 & H2 & He)|(H1 & H2 & _)]].
  - rewrite Hr in He. injection He as ->. simpl in *.
    split; [exact Ca|].
    split; [intros _; split; [exact Cv | exact Ci] | intros Hnot; congruence].
  - rewrite Hr in He. injection He as ->. simpl in *.
    split; [exact Ca|].
    split; [intros Hle; congruence | intros _ _; split; [exact Cv | exact Ci]].
  - destruct Hclamp; congruence.
Qed.

Lemma clamp_outputs_witness :
  let T := DT_DOUBLE in
  let wrapped := wrap T (Tgt (num T 0) Tzero) (num T 0) (num T 7) in
  valid_call T (demo T) [2] 3 3 ∧ Tge wrapped (num T 2) = true ∧
  ∃ v a inds,
    returns T (demo T) v a inds ∧
    at2 a 3 1 2 = Some (fresh_T (demo T) 1 (Z.to_nat (1 * 3 + 2))) ∧
    (Tle wrapped (num T 0) = true →
       at2 v 3 1 2 = Some (num T 0) ∧ at2 inds 3 1 2 = Some 0) ∧
    (Tle wrapped (num T 0) = false → Tge wrapped (num T 2) = true →
       at2 v 3 1 2 = Some (num T 20) ∧ at2 inds 3 1 2 = Some (3 + 1)).
Proof.
  intros T wrapped. split; [exact (demo_valid T)|]. split; [reflexivity|].
  apply (clamp_outputs T (demo T) [2] 3 3 1 2 (num T 7) (num T 0) (num T 0)
           (num T 2) (num T 0) (num T 20) (demo_valid T));
    try by_evaluation.
  right. reflexivity.
Defined.

(** C4.  On the single row [x = [0, 1, 2, 3]], [y = [0, 10, 20, 30]],
    [p = 0], [t = [-1, 0, 0.5, 1, 2.5, 3, 10]], for [float] as for
    [double], whatever the batch shape of size one, the sharding and the
    contents of fresh memory, the call returns
    [v = [0, 0, 5, 10, 25, 30, 30]] and [inds = [0, 0, 1, 2, 3, 5, 5]]. *)
Theorem scenario_outputs (T : DataType) (c : OpKernelContext) (batch : list Z) :
  Forall (λ d, 0 ≤ d) batch → num_elements batch = 1 →
  input_t c = MkTensor (batch ++ [7])
                [num T (-1); num T 0; half T 1; num T 1; half T 5; num T 3;
                 num T 10] →
  input_p c = MkTensor batch [num T 0] →
  input_x c = MkTensor (batch ++ [4]) [num T 0; num T 1; num T 2; num T 3] →
  input_y c = MkTensor (batch ++ [4]) [num T 0; num T 10; num T 20; num T 30] →
  (∀ i, allocator c i = OK) →
  (∀ cost, sharding 7 (shard_blocks c 7 cost)) →
  ∃ v a inds, returns T c v a inds ∧
    flat v = [num T 0; num T 0; num T 5; num T 10; num T 25; num T 30; num T 30] ∧
    flat inds = [0; 0; 1; 2; 3; 5; 5].
Proof.
  intros Hb Hsize Ht Hp Hx Hy Hal Hsh.
  assert (valid_call T c batch 7 4) as V.
  { constructor; [| lia |].
    - constructor; rewrite ?Ht, ?Hp, ?Hx, ?Hy, ?num_elements_row, ?Hsize;
        try reflexivity; try lia; assumption.
    - rewrite Hsize. intros k n Hk Hn. assert (k = 0) as -> by lia.
      unfold no_nan. rewrite Ht, Hp, Hx. each_index n Hn;
        destruct T; vm_compute; reflexivity. }
  destruct (Compute_valid T c batch 7 4 V) as (st' & Hrun & (Lv & La & Li) & Hcells).
  rewrite Hsize in Lv, Li, Hcells.
  exists (MkTensor (batch ++ [7]) (v_buf st')), (MkTensor (batch ++ [7]) (a_buf st')),
    (MkTensor (batch ++ [7]) (inds_buf st')).
  split; [exists (with_out c (batch ++ [7]) st'); repeat split; exact Hrun|].
  cbn [flat].
  assert (∀ n, 0 ≤ n < 7 →
    let cap := row_captures (input_t c) (input_p c) (input_x c) (input_y c)
                 7 4 0 (num T 0) in
    rd (v_buf st') n = cell_v <$> eval T cap n ∧
    rd (inds_buf st') n = cell_inds <$> eval T cap n) as Hcell.
  { intros n Hn. destruct (Hcells 0 n ltac:(lia) Hn) as (pk & Hpk & Cv & _ & Ci).
    rewrite Hp in Hpk. injection Hpk as <-. split; [exact Cv | exact Ci]. }
  rewrite Ht, Hp, Hx, Hy in Hcell.
  split; apply rd_ext_length; try (simpl; lia);
    intros j Hj; simpl in Hj; each_index j Hj;
    match goal with |- rd _ ?n = _ => destruct (Hcell n ltac:(lia)) as [Cv Ci] end;
    rewrite ?Cv, ?Ci; destruct T; vm_compute; reflexivity.
Qed.

Lemma scenario_outputs_witness :
  let T := DT_FLOAT in
  (∀ cost, sharding 7 (shard_blocks (scenario T) 7 cost)) ∧
  ∃ v a inds, returns T (scenario T) v a inds ∧
    flat v = [num T 0; num T 0; num T 5; num T 10; num T 25; num T 30; num T 30] ∧
    flat inds = [0; 0; 1; 2; 3; 5; 5].
Proof.
  intros T.
  assert (∀ cost, sharding 7 (shard_blocks (scenario T) 7 cost)) as Hs.
  { intros cost. exists [(0, 7)]. split; reflexivity. }
  split; [exact Hs|].
  apply (scenario_outputs T (scenario T) [1]); try by_evaluation;
    [repeat constructor; lia | exact Hs].
Defined.




(** C6.  In a valid call, every query of a row whose period [p[k]] is
    [<= 0] goes through the three branches with its raw value [t[k][n]]:
    the row captures [flag = false], the wrapping step returns the query
    unchanged, and the outputs of the query are those of the branch that
    the raw value selects, whatever its sign or magnitude. *)
Theorem wrap_disabled T c batch N M k n tv pk :
  valid_call T c batch N M → 0 ≤ k < num_elements batch → 0 ≤ n < N →
  at2 (input_t c) N k n = Some tv → rd (flat (input_p c)) k = Some pk →
  Tle pk Tzero = true →
  let cap := row_captures (input_t c) (input_p c) (input_x c) (input_y c)
               N M k pk in
  flag cap = false ∧ wrap T (flag cap) (period cap) tv = tv ∧
  ∃ v a inds x0 xl y0 yl,
    returns T c v a inds ∧
    at2 (input_x c) M k 0 = Some x0 ∧ at2 (input_x c) M k (M - 1) = Some xl ∧
    at2 (input_y c) M k 0 = Some y0 ∧ at2 (input_y c) M k (M - 1) = Some yl ∧
    point_cases T c v a inds N M k n tv x0 xl y0 yl.
Proof.
  intros V Hk Hn Htv Hpk Hp cap.
  assert (Tgt pk Tzero = false) as Hf by (clear - Hp; order).
  split; [exact Hf|]. split; [cbn [flag cap row_captures]; rewrite Hf; reflexivity|].
  destruct (Compute_point T c batch N M k n V Hk Hn)
    as (v & a & inds & tv' & pk' & x0 & xl & y0 & yl & Hret & Htv' & Hpk'
        & Hx0 & Hxl & Hy0 & Hyl & Hcases).
  rewrite Htv in Htv'. injection Htv' as <-.
  rewrite Hpk in Hpk'. injection Hpk' as <-.
  rewrite Hf in Hcases. cbn [wrap] in Hcases.
  exists v, a, inds, x0, xl, y0, yl. auto 10.
Qed.

Lemma wrap_disabled_witness :
  let T := DT_DOUBLE in
  let c := demo T in
  let cap := row_captures (input_t c) (input_p c) (input_x c) (input_y c)
               3 3 1 (num T 0) in
  valid_call T c [2] 3 3 ∧ Tle (num T 0) Tzero = true ∧
  flag cap = false ∧ wrap T (flag cap) (period cap) (num T (-1)) = num T (-1) ∧
  ∃ v a inds x0 xl y0 yl,
    returns T c v a inds ∧
    at2 (input_x c) 3 1 0 = Some x0 ∧ at2 (input_x c) 3 1 (3 - 1) = Some xl ∧
    at2 (input_y c) 3 1 0 = Some y0 ∧ at2 (input_y c) 3 1 (3 - 1) = Some yl ∧
    point_cases T c v a inds 3 3 1 0 (num T (-1)) x0 xl y0 yl.
Proof.
  intros T c cap. split; [exact (demo_valid T)|]. split; [reflexivity|].
  apply (wrap_disabled T c [2] 3 3 1 0 (num T (-1)) (num T 0) (demo_valid T));
    by_evaluation.
Defined.

(** C7.  When [rank(t) < 1], or [rank(p) <> rank(t) - 1], or
    [rank(x) <> rank(t)], or [shape(y) <> shape(x)], or an outer dimension
    of [t], [x], [p] disagrees, the call returns with an [InvalidArgument]
    status and the three output slots are as they were before the call:
    nothing has been allocated or written. *)
Theorem invalid_shape_rejected (T : DataType) (c : OpKernelContext) :
  let t := input_t c in let p := input_p c in
  let x := input_x c in let y := input_y c in
  dims t < 1 ∨ dims p ≠ dims t - 1 ∨ dims x ≠ dims t ∨ shape y ≠ shape x ∨
  (∃ k, 0 ≤ k < dims t - 1 ∧
        ¬ (dim_size x k = dim_size t k ∧ dim_size p k = dim_size t k)) →
  ∃ msg c', Compute T c = Return c' ∧ status c' = InvalidArgument msg ∧
    output_v c' = output_v c ∧ output_a c' = output_a c ∧
    output_inds c' = output_inds c.
Proof.
  intros t p x y Hbad. destruct (Compute_rejects T c Hbad) as [msg Hc].
  exists msg, (set_status (InvalidArgument msg) c). repeat split. exact Hc.
Qed.

Lemma invalid_shape_rejected_witness :
  let T := DT_FLOAT in
  let c := bad_rank T in
  dims (input_p c) ≠ dims (input_t c) - 1 ∧
  ∃ msg c', Compute T c = Return c' ∧ status c' = InvalidArgument msg ∧
    output_v c' = output_v c ∧ output_a c' = output_a c ∧
    output_inds c' = output_inds c.
Proof.
  intros T c. split; [discriminate|].
  apply (invalid_shape_rejected T c). right. left. discriminate.
Defined.

(** C8.  Running [work] on the blocks of a sharding of [[0, N)], in any
    order, leaves the three buffers as [work 0 N] does on one worker; so
    does any interleaving of the iterations of the blocks.  On a row
    whose pointers reach the data and whose queries compare with its
    knots, [work 0 N] returns. *)
Theorem shard_invariance (T : DataType) (c : Captures) (N : Z)
    (blocks : list (Z * Z)) (st : Out) :
  sharding N blocks →
  Shard blocks (work T c) st = work T c 0 N st ∧
  (∀ ns, ns ≡ₚ ranges blocks →
         for_each (work_body T c) ns st = work T c 0 N st) ∧
  (inputs_ok c N → outputs_ok c N st →
   (∀ n, 0 ≤ n < N → comparable T c n = true) → is_Some (work T c 0 N st)).
Proof.
  intros Hs. split; [apply Shard_work, Hs|]. split; [|apply work_is_Some].
  intros ns Hns. unfold work. rewrite Z.sub_0_r. symmetry. apply for_each_perm.
  - intros n m s _ _ Hne. apply work_body_comm, Hne.
  - apply NoDup_seqZ.
  - rewrite Hns. symmetry. apply sharding_ranges, Hs.
Qed.

Lemma shard_invariance_witness :
  let T := DT_DOUBLE in
  let c := row_captures (input_t (demo T)) (input_p (demo T)) (input_x (demo T))
             (input_y (demo T)) 3 3 0 (num T 2) in
  let st := allocated (demo T) [2; 3] in
  let blocks := [(1, 3); (0, 1)] in
  sharding 3 blocks ∧
  Shard blocks (work T c) st = work T c 0 3 st ∧
  (∀ ns, ns ≡ₚ ranges blocks →
         for_each (work_body T c) ns st = work T c 0 3 st) ∧
  (inputs_ok c 3 → outputs_ok c 3 st →
   (∀ n, 0 ≤ n < 3 → comparable T c n = true) → is_Some (work T c 0 3 st)).
Proof.
  intros T c st blocks.
  assert (sharding 3 blocks) as Hs.
  { exists [(0, 1); (1, 3)]. split; [apply Permutation_swap | reflexivity]. }
  split; [exact Hs | apply (shard_invariance T c 3 blocks st Hs)].
Defined.




(** C10.  [search_sorted] terminates: the loop is its body followed by the
    loop; an iteration picks a probe strictly between [low] and [high]
    and leaves a state whose gap [high - low] is smaller and at least 1;
    on an array of any length the search returns an index of
    [[0, length]]; for [N = 0] it returns 0 whatever the pointer, reading
    nothing. *)
Theorem search_sorted_terminates :
  (∀ x value low high,
     search_loop x value low high =
       if decide (1 < high - low)
       then s ← search_body x value (low, high); search_loop x value s.1 s.2
       else Some high) ∧
  (∀ x value low high s,
     1 < high - low → search_body x value (low, high) = Some s →
     let probe := (low + high) ÷ 2 in
     low < probe < high ∧ (s = (low, probe) ∨ s = (probe, high)) ∧
     1 ≤ s.2 - s.1 < high - low) ∧
  (∀ x xs value, array_at x xs →
     ∃ r, search_sorted (Z.of_nat (length xs)) x value = Some r ∧
          0 ≤ r ≤ Z.of_nat (length xs)) ∧
  (∀ x value, search_sorted 0 x value = Some 0).
Proof.
  split; [apply search_loop_eq|]. split; [|split].
  - intros x value low high s Hgap Hbody probe.
    pose proof (probe_between low high Hgap) as Hp. fold probe in Hp.
    unfold search_body in Hbody. fold probe in Hbody.
    destruct (load x probe) as [v|]; simpl in Hbody; [|discriminate].
    injection Hbody as <-. split; [exact Hp|].
    destruct (Tgt v value); simpl; split; auto; lia.
  - intros x xs value Harr.
    destruct (search_loop_spec x value (Z.of_nat (length xs))) with
      (low := -1) (high := Z.of_nat (length xs)) as (r & Hr & Hb & _);
      [|lia|lia|lia|].
    + intros i Hi. eapply load_array_at_Some; eassumption.
    + exists r. split; [exact Hr | lia].
  - intros x value. unfold search_sorted. rewrite search_loop_eq.
    reflexivity.
Qed.

Lemma search_sorted_terminates_witness :
  let T := DT_DOUBLE in
  let x := Cptr [num T 0; num T 1; num T 2; num T 3] 0 in
  1 < 4 - (-1) ∧ search_body x (num T 1) (-1, 4) = Some (1, 4) ∧
  (let probe := (-1 + 4) ÷ 2 in
   -1 < probe < 4 ∧ ((1, 4) = (-1, probe) ∨ (1, 4) = (probe, 4)) ∧
   1 ≤ (1, 4).2 - (1, 4).1 < 4 - (-1)).
Proof.
  intros T x. split; [lia|]. split; [reflexivity|].
  apply (proj1 (proj2 search_sorted_terminates) x (num T 1) (-1) 4 (1, 4));
    [lia | reflexivity].
Defined.

(** * Further properties *)

(** X1.  On any array, sorted or not and whatever it holds,
    [search_sorted] returns an index [r] of [[0, N]] such that the test
    [x[r] > value] holds at [r], if there is an element there, and fails
    at [r - 1], if there is one.  For a value that is NaN every test fails
    and the result is [N]. *)
Theorem search_sorted_brackets (x : cptr spec_float) (xs : list spec_float)
    (value : spec_float) :
  array_at x xs →
  ∃ r, search_sorted (Z.of_nat (length xs)) x value = Some r ∧
    0 ≤ r ≤ Z.of_nat (length xs) ∧
    (r < Z.of_nat (length xs) → ∃ v, rd xs r = Some v ∧ Tgt v value = true) ∧
    (0 < r → ∃ v, rd xs (r - 1) = Some v ∧ Tgt v value = false) ∧
    (is_nan value = true → r = Z.of_nat (length xs)).
Proof.
  intros Ha. set (N := Z.of_nat (length xs)).
  destruct (search_loop_spec x value N) with (low := -1) (high := N)
    as (r & Hr & Hb & Hup & Hdn); [|lia|lia|lia|].
  { intros i Hi. eapply load_array_at_Some; eassumption. }
  exists r. split; [exact Hr|]. split; [lia|]. split; [|split].
  - intros Hlt. destruct Hup as [?|(v & Hv & Hgt)]; [lia|].
    exists v. rewrite <- (load_array_rd x xs r Ha) by (fold N; lia). auto.
  - intros Hpos. destruct Hdn as [?|(v & Hv & Hle)]; [lia|].
    exists v. rewrite <- (load_array_rd x xs (r - 1) Ha) by (fold N; lia). auto.
  - intros Hnan. destruct Hup as [?|(v & _ & Hgt)]; [assumption|].
    apply Tgt_not_nan in Hgt as [_ ?]. congruence.
Qed.

Lemma search_sorted_brackets_witness :
  let T := DT_DOUBLE in
  let xs := [num T 3; S754_nan; num T 2] in
  array_at (Cptr xs 0) xs ∧
  ∃ r, search_sorted 3 (Cptr xs 0) (num T 2) = Some r ∧ 0 ≤ r ≤ 3 ∧
    (r < 3 → ∃ v, rd xs r = Some v ∧ Tgt v (num T 2) = true) ∧
    (0 < r → ∃ v, rd xs (r - 1) = Some v ∧ Tgt v (num T 2) = false) ∧
    (is_nan (num T 2) = true → r = 3).
Proof.
  intros T xs. split; [apply array_at_list|].
  apply (search_sorted_brackets (Cptr xs 0) xs (num T 2) (array_at_list xs)).
Defined.

(** X2.  On an array of numbers in nondecreasing order (repetitions
    allowed, no NaN) and for any value that is not NaN, inside the range of
    the array or not, [search_sorted] returns the partition point: the
    elements before it are at most the value, those from it on are above
    it. *)
Theorem search_sorted_partition (x : cptr spec_float) (xs : list spec_float)
    (value : spec_float) :
  array_at x xs → nondecreasing xs = true → is_nan value = false →
  ∃ r, search_sorted (Z.of_nat (length xs)) x value = Some r ∧
    0 ≤ r ≤ Z.of_nat (length xs) ∧
    (∀ j xj, 0 ≤ j < r → rd xs j = Some xj → Tle xj value = true) ∧
    (∀ j xj, r ≤ j → rd xs j = Some xj → Tgt xj value = true).
Proof.
  intros Ha Hasc Hnan. set (N := Z.of_nat (length xs)).
  destruct (search_loop_spec x value N) with (low := -1) (high := N)
    as (r & Hr & Hb & Hup & Hdn); [|lia|lia|lia|].
  { intros i Hi. eapply load_array_at_Some; eassumption. }
  exists r. split; [exact Hr|]. split; [lia|]. split.
  - intros j xj Hj Hxj. destruct Hdn as [?|(v & Hv & Hle)]; [lia|].
    rewrite (load_array_rd x xs (r - 1) Ha) in Hv by (fold N; lia).
    pose proof (nondecreasing_rd xs j (r - 1) xj v Hasc ltac:(lia) Hxj Hv) as Hjv.
    apply Tle_trans with v; [exact Hjv|].
    apply Tgt_total; [|exact Hnan|exact Hle].
    apply Tle_not_nan in Hjv. tauto.
  - intros j xj Hj Hxj.
    assert (j < N) as HjN.
    { assert (is_Some (rd xs j)) as Hs by eauto. apply rd_inb in Hs.
      unfold inb in Hs. fold N in Hs. lia. }
    destruct Hup as [?|(v & Hv & Hgt)]; [lia|].
    rewrite (load_array_rd x xs r Ha) in Hv by (fold N; lia).
    pose proof (nondecreasing_rd xs r j v xj Hasc ltac:(lia) Hv Hxj) as Hvj.
    apply Tgt_Tle_trans with v; assumption.
Qed.

Lemma search_sorted_partition_witness :
  let T := DT_FLOAT in
  let xs := [num T 0; num T 1; num T 1; num T 2] in
  array_at (Cptr xs 0) xs ∧ nondecreasing xs = true ∧
  ∃ r, search_sorted 4 (Cptr xs 0) (num T 1) = Some r ∧ 0 ≤ r ≤ 4 ∧
    (∀ j xj, 0 ≤ j < r → rd xs j = Some xj → Tle xj (num T 1) = true) ∧
    (∀ j xj, r ≤ j → rd xs j = Some xj → Tgt xj (num T 1) = true).
Proof.
  intros T xs. split; [apply array_at_list|]. split; [reflexivity|].
  apply (search_sorted_partition (Cptr xs 0) xs (num T 1) (array_at_list xs));
    reflexivity.
Defined.

(** X3.  Whenever [N + 1 <= 2^k], the loop of [search_sorted] on an array
    of [N] elements has left after at most [k] iterations, with the result
    of the search in [high]. *)
Theorem search_sorted_logarithmic (x : cptr spec_float) (xs : list spec_float)
    (value : spec_float) (k : nat) :
  array_at x xs → Z.of_nat (length xs) + 1 ≤ 2 ^ Z.of_nat k →
  ∃ l r, search_iter k x value (-1, Z.of_nat (length xs)) = Some (l, r) ∧
         r - l ≤ 1 ∧
         search_sorted (Z.of_nat (length xs)) x value = Some r.
Proof.
  intros Ha Hk. apply (search_iter_bound x value (Z.of_nat (length xs))); try lia.
  intros i Hi. eapply load_array_at_Some; eassumption.
Qed.

Lemma search_sorted_logarithmic_witness :
  let T := DT_DOUBLE in
  let xs := [num T 0; num T 1; num T 2; num T 3] in
  4 + 1 ≤ 2 ^ Z.of_nat 3 ∧
  ∃ l r, search_iter 3 (Cptr xs 0) (num T 1) (-1, 4) = Some (l, r) ∧ r - l ≤ 1 ∧
         search_sorted 4 (Cptr xs 0) (num T 1) = Some r.
Proof.
  intros T xs. split; [by_evaluation|].
  apply (search_sorted_logarithmic (Cptr xs 0) xs (num T 1) 3 (array_at_list xs)).
  by_evaluation.
Defined.

(** X6.  A valid call (allocation granted, rows of at least one knot, no
    query that wraps to NaN, no row that ends on a NaN knot) returns,
    whatever the order of the knots: no read or write leaves a buffer.  The
    three outputs have the shape of [t] and one cell for each query. *)
Theorem valid_call_returns (T : DataType) (c : OpKernelContext)
    (batch : list Z) (N M : Z) :
  valid_call T c batch N M →
  ∃ v a inds, returns T c v a inds ∧
    shape v = shape (input_t c) ∧ shape a = shape (input_t c) ∧
    shape inds = shape (input_t c) ∧
    Z.of_nat (length (flat v)) = num_elements batch * N ∧
    Z.of_nat (length (flat a)) = num_elements batch * N ∧
    Z.of_nat (length (flat inds)) = num_elements batch * N.
Proof.
  intros V. destruct (Compute_valid T c batch N M V) as (st' & Hrun & (L1 & L2 & L3) & _).
  exists (MkTensor (batch ++ [N]) (v_buf st')), (MkTensor (batch ++ [N]) (a_buf st')),
    (MkTensor (batch ++ [N]) (inds_buf st')).
  split; [exists (with_out c (batch ++ [N]) st'); repeat split; exact Hrun|].
  rewrite (sc_shape_t c batch N M (shapes T c batch N M V)). cbn [shape flat]. auto 10.
Qed.

Lemma valid_call_returns_witness :
  let T := DT_FLOAT in
  valid_call T (demo T) [2] 3 3 ∧
  ∃ v a inds, returns T (demo T) v a inds ∧
    shape v = shape (input_t (demo T)) ∧ shape a = shape (input_t (demo T)) ∧
    shape inds = shape (input_t (demo T)) ∧
    Z.of_nat (length (flat v)) = num_elements [2] * 3 ∧
    Z.of_nat (length (flat a)) = num_elements [2] * 3 ∧
    Z.of_nat (length (flat inds)) = num_elements [2] * 3.
Proof.
  intros T. split; [exact (demo_valid T)|].
  apply (valid_call_returns T (demo T) [2] 3 3 (demo_valid T)).
Defined.

(** X7.  For every query of a valid call, [inds] is [0], [M + 1] or an
    index of [[1, M-1]], never [M].  In the first two cases [a] keeps what
    [allocate_output] left; in the third [a] is the quotient of line 136 on
    the knots [inds - 1] and [inds] of the row. *)
Theorem index_codes (T : DataType) (c : OpKernelContext) (batch : list Z)
    (N M k n : Z) :
  valid_call T c batch N M → 0 ≤ k < num_elements batch → 0 ≤ n < N →
  ∃ v a inds i, returns T c v a inds ∧ at2 inds N k n = Some i ∧
    (((i = 0 ∨ i = M + 1) ∧
      at2 a N k n = Some (fresh_T c 1 (Z.to_nat (k * N + n)))) ∨
     (1 ≤ i ≤ M - 1 ∧
      ∃ tv pk xlo xhi,
        at2 (input_t c) N k n = Some tv ∧ rd (flat (input_p c)) k = Some pk ∧
        at2 (input_x c) M k (i - 1) = Some xlo ∧
        at2 (input_x c) M k i = Some xhi ∧
        at2 a N k n =
          Some (fraction T (wrap T (Tgt pk Tzero) pk tv) xlo xhi))).
Proof.
  intros V Hk Hn.
  destruct (Compute_point T c batch N M k n V Hk Hn)
    as (v & a & inds & tv & pk & x0 & xl & y0 & yl & Hret & Htv & Hpk & _ & _ & _ & _
        & [(_ & _ & Hi & Ha)|[(_ & _ & _ & Hi & Ha)|(_ & _ & H)]]).
  - exists v, a, inds, 0. split; [exact Hret|]. split; [exact Hi|]. left. auto.
  - exists v, a, inds, (M + 1). split; [exact Hret|]. split; [exact Hi|]. left. auto.
  - destruct H as (idx & xlo & xhi & ylo & yhi & Hidx & _ & Hxlo & Hxhi & _ & _ & _
                   & _ & Ha & _ & Hi).
    exists v, a, inds, idx. split; [exact Hret|]. split; [exact Hi|]. right.
    split; [exact Hidx|]. exists tv, pk, xlo, xhi. auto 10.
Qed.

Lemma index_codes_witness :
  let T := DT_DOUBLE in
  let c := demo T in
  valid_call T c [2] 3 3 ∧
  ∃ v a inds i, returns T c v a inds ∧ at2 inds 3 0 0 = Some i ∧
    (((i = 0 ∨ i = 3 + 1) ∧
      at2 a 3 0 0 = Some (fresh_T c 1 (Z.to_nat (0 * 3 + 0)))) ∨
     (1 ≤ i ≤ 3 - 1 ∧
      ∃ tv pk xlo xhi,
        at2 (input_t c) 3 0 0 = Some tv ∧ rd (flat (input_p c)) 0 = Some pk ∧
        at2 (input_x c) 3 0 (i - 1) = Some xlo ∧
        at2 (input_x c) 3 0 i = Some xhi ∧
        at2 a 3 0 0 =
          Some (fraction T (wrap T (Tgt pk Tzero) pk tv) xlo xhi))).
Proof.
  intros T c. split; [exact (demo_valid T)|].
  apply (index_codes T c [2] 3 3 0 0 (demo_valid T)); by_evaluation.
Defined.

(** X9.  On rows of a single knot every query of a valid call is clamped:
    [v] is the value of the knot, [inds] is 0 or 2 and [a] is not
    written. *)
Theorem single_knot (T : DataType) (c : OpKernelContext) (batch : list Z)
    (N k n : Z) :
  valid_call T c batch N 1 → 0 ≤ k < num_elements batch → 0 ≤ n < N →
  ∃ v a inds y0 i, returns T c v a inds ∧
    at2 (input_y c) 1 k 0 = Some y0 ∧ at2 v N k n = Some y0 ∧
    at2 inds N k n = Some i ∧ (i = 0 ∨ i = 2) ∧
    at2 a N k n = Some (fresh_T c 1 (Z.to_nat (k * N + n))).
Proof.
  intros V Hk Hn.
  destruct (Compute_point T c batch N 1 k n V Hk Hn)
    as (v & a & inds & tv & pk & x0 & xl & y0 & yl & Hret & _ & _ & Hx0 & Hxl
        & Hy0 & Hyl & Hcases).
  change (1 - 1) with 0 in Hxl, Hyl.
  rewrite Hx0 in Hxl. injection Hxl as <-.
  rewrite Hy0 in Hyl. injection Hyl as <-.
  destruct Hcases as [(_ & Hv & Hi & Ha)|[(_ & _ & Hv & Hi & Ha)|(_ & _ & H)]].
  - exists v, a, inds, y0, 0. auto 10.
  - exists v, a, inds, y0, 2. auto 10.
  - destruct H as (idx & ? & ? & ? & ? & Hidx & _). lia.
Qed.

Lemma single_knot_witness :
  let T := DT_DOUBLE in
  let c := one_knot T in
  valid_call T c [1] 2 1 ∧
  ∃ v a inds y0 i, returns T c v a inds ∧
    at2 (input_y c) 1 0 0 = Some y0 ∧ at2 v 2 0 1 = Some y0 ∧
    at2 inds 2 0 1 = Some i ∧ (i = 0 ∨ i = 2) ∧
    at2 a 2 0 1 = Some (fresh_T c 1 (Z.to_nat (0 * 2 + 1))).
Proof.
  intros T c. split; [exact (one_knot_valid T)|].
  apply (single_knot T c [1] 2 0 1 (one_knot_valid T)); by_evaluation.
Defined.

(** X12.  The outputs of a query depend on that query, on the period and
    on the knots of its row only: two valid calls that agree on them, in
    rows of any index, give the same [v] and [inds], whatever their other
    rows, their sharding and their batch shape; they give the same [a] when
    the fresh memory agrees on that cell. *)
Theorem query_independent (T : DataType) (c1 c2 : OpKernelContext)
    (batch1 batch2 : list Z) (N M k1 k2 n : Z) :
  valid_call T c1 batch1 N M → valid_call T c2 batch2 N M →
  0 ≤ k1 < num_elements batch1 → 0 ≤ k2 < num_elements batch2 → 0 ≤ n < N →
  at2 (input_t c1) N k1 n = at2 (input_t c2) N k2 n →
  rd (flat (input_p c1)) k1 = rd (flat (input_p c2)) k2 →
  (∀ i, 0 ≤ i < M → at2 (input_x c1) M k1 i = at2 (input_x c2) M k2 i) →
  (∀ i, 0 ≤ i < M → at2 (input_y c1) M k1 i = at2 (input_y c2) M k2 i) →
  ∃ v1 a1 inds1 v2 a2 inds2,
    returns T c1 v1 a1 inds1 ∧ returns T c2 v2 a2 inds2 ∧
    at2 v1 N k1 n = at2 v2 N k2 n ∧ at2 inds1 N k1 n = at2 inds2 N k2 n ∧
    (fresh_T c1 1 (Z.to_nat (k1 * N + n)) = fresh_T c2 1 (Z.to_nat (k2 * N + n)) →
     at2 a1 N k1 n = at2 a2 N k2 n).
Proof.
  intros V1 V2 Hk1 Hk2 Hn Ht Hp Hx Hy.
  destruct (valid_row_ok T c1 batch1 N M k1 V1 Hk1) as (pk & Hpk1 & Hin1 & Hcmp1).
  destruct (valid_row_ok T c2 batch2 N M k2 V2 Hk2) as (pk2 & Hpk2 & Hin2 & _).
  assert (pk2 = pk) as -> by congruence.
  pose proof Hin1 as (_ & Ht1 & _). destruct (Ht1 n Hn) as [tv Htv1].
  change (at2 (input_t c1) N k1 n = Some tv) in Htv1.
  assert (at2 (input_t c2) N k2 n = Some tv) as Htv2 by congruence.
  destruct (Compute_cell T c1 batch1 N M k1 n tv pk V1 Hk1 Hn Htv1 Hpk1)
    as (v1 & a1 & i1 & r1 & Hret1 & _ & _ & _ & Hr1 & Cv1 & Ca1 & Ci1).
  destruct (Compute_cell T c2 batch2 N M k2 n tv pk V2 Hk2 Hn Htv2 Hpk2)
    as (v2 & a2 & i2 & r2 & Hret2 & _ & _ & _ & Hr2 & Cv2 & Ca2 & Ci2).
  assert (r1 = r2) as <-.
  { assert (Some r1 = Some r2) as E; [|injection E; auto].
    rewrite <- Hr1, <- Hr2.
    apply (eval_ext T _ _ N n Hin1 Hn (Hcmp1 n Hn)); try reflexivity.
    - exact Ht.
    - exact Hx.
    - exact Hy. }
  exists v1, a1, i1, v2, a2, i2.
  split; [exact Hret1|]. split; [exact Hret2|].
  rewrite Cv1, Cv2, Ci1, Ci2, Ca1, Ca2. split; [reflexivity|].
  split; [reflexivity|]. intros ->. reflexivity.
Qed.

Lemma query_independent_witness :
  let T := DT_DOUBLE in
  valid_call T (demo T) [2] 3 3 ∧ valid_call T (demo_swapped T) [2] 3 3 ∧
  ∃ v1 a1 inds1 v2 a2 inds2,
    returns T (demo T) v1 a1 inds1 ∧ returns T (demo_swapped T) v2 a2 inds2 ∧
    at2 v1 3 0 1 = at2 v2 3 1 1 ∧ at2 inds1 3 0 1 = at2 inds2 3 1 1 ∧
    (fresh_T (demo T) 1 (Z.to_nat (0 * 3 + 1))
     = fresh_T (demo_swapped T) 1 (Z.to_nat (1 * 3 + 1)) →
     at2 a1 3 0 1 = at2 a2 3 1 1).
Proof.
  intros T.
  split; [exact (demo_valid T)|]. split; [exact (demo_swapped_valid T)|].
  apply (query_independent T (demo T) (demo_swapped T) [2] [2] 3 3 0 1 1
           (demo_valid T) (demo_swapped_valid T)); try by_evaluation.
  - exact (demo_rows_x T).
  - exact (demo_rows_y T).
Defined.

(** X13.  Validation does not ask for a knot: a call with [M = 0], a row
    and a query passes it, its outputs are allocated, and the first
    iteration then reads [x[k][0]] outside the buffer of [x]. *)
Theorem empty_knots_undefined (T : DataType) (c : OpKernelContext)
    (batch : list Z) (N : Z) :
  shaped_call c batch N 0 → 1 ≤ N → 1 ≤ num_elements batch →
  Compute T c = Undefined.
Proof.
  intros S HN Hsize. rewrite (Compute_rows T c batch N 0 S).
  destruct S as [St Sp Sx Sy Sb SN SM Ft Fp Fx Fy Sal Ssh].
  rewrite seqZ_cons by lia. cbn [for_K]. unfold bind at 1. unfold row.
  unfold bind at 1.
  destruct (proj1 (rd_inb (flat (input_p c)) 0)) as [pk Hpk];
    [unfold inb; lia|].
  unfold defined at 1. rewrite Hpk. unfold bind at 1. unfold get at 1.
  set (cap := row_captures _ _ _ _ N 0 0 pk).
  set (st := allocated c (batch ++ [N])).
  assert (Shard (shard_blocks (with_out c (batch ++ [N]) st) N (5 * 0)) (work T cap)
            st = None) as HS.
  { rewrite (Shard_work T cap N _ st) by apply Ssh.
    unfold work. rewrite seqZ_cons by lia. cbn [for_each].
    rewrite work_body_eval.
    rewrite eval_no_knot; [reflexivity|].
    unfold load, rd. simpl.
    rewrite num_elements_row in Fx.
    destruct (flat (input_x c)); [reflexivity | simpl in Fx; lia]. }
  unfold on_outputs, with_out, st, allocated. simpl output_v. simpl output_a.
  simpl output_inds. cbn [flat fresh].
  unfold with_out, st, allocated in HS. cbn [flat fresh] in HS.
  rewrite HS. reflexivity.
Qed.

Lemma empty_knots_undefined_witness :
  let T := DT_DOUBLE in
  shaped_call (no_knots T) [1] 2 0 ∧ Compute T (no_knots T) = Undefined.
Proof.
  intros T. split; [exact (no_knots_shaped T)|].
  apply (empty_knots_undefined T (no_knots T) [1] 2 (no_knots_shaped T));
    by_evaluation.
Defined.

(** X14.  A call without a query ([N = 0]) or without a row, once its
    shapes are accepted and its outputs allocated, returns with three empty
    outputs of the shape of [t], also when the rows have no knot. *)
Theorem no_queries (T : DataType) (c : OpKernelContext) (batch : list Z)
    (N M : Z) :
  shaped_call c batch N M → N = 0 ∨ num_elements batch = 0 →
  ∃ v a inds, returns T c v a inds ∧
    shape v = shape (input_t c) ∧ shape a = shape (input_t c) ∧
    shape inds = shape (input_t c) ∧
    flat v = [] ∧ flat a = [] ∧ flat inds = [].
Proof.
  intros S Hempty. pose proof (Compute_rows T c batch N M S) as Hrows.
  pose proof S as [St Sp Sx Sy Sb SN SM Ft Fp Fx Fy Sal Ssh].
  assert (allocated c (batch ++ [N]) = MkOut [] [] []) as Hal.
  { unfold allocated, fresh. cbn [flat]. rewrite num_elements_row.
    replace (num_elements batch * N) with 0 by (destruct Hempty as [->| ->]; lia).
    reflexivity. }
  assert (Compute T c = Next tt (with_out c (batch ++ [N]) (MkOut [] [] []))) as Hrun.
  { rewrite Hrows, Hal. destruct Hempty as [->|Hz].
    - apply (rows_no_query T c _ _ _ _ M _ (num_elements batch)).
      + intros k Hk%elem_of_seqZ. lia.
      + exact Fp.
      + exact Ssh.
    - rewrite Hz, seqZ_nil by lia. reflexivity. }
  exists (MkTensor (batch ++ [N]) []), (MkTensor (batch ++ [N]) []),
    (MkTensor (batch ++ [N]) []).
  split; [exists (with_out c (batch ++ [N]) (MkOut [] [] [])); repeat split;
          exact Hrun|].
  rewrite St. cbn [shape flat]. auto 10.
Qed.

Lemma no_queries_witness :
  let T := DT_FLOAT in
  let c := no_query T in
  shaped_call c [2] 0 0 ∧
  ∃ v a inds, returns T c v a inds ∧
    shape v = shape (input_t c) ∧ shape a = shape (input_t c) ∧
    shape inds = shape (input_t c) ∧
    flat v = [] ∧ flat a = [] ∧ flat inds = [].
Proof.
  intros T c. split; [exact (no_query_shaped T)|].
  apply (no_queries T c [2] 0 0 (no_query_shaped T)). left. reflexivity.
Defined.

(** X15.  The call returns early in two cases only.  One of the five
    requirements on the shapes fails: the status is an invalid-argument
    error and nothing else has changed.  Or the shapes are accepted and the
    runtime refuses one of the three outputs: the status is the error of the
    first request it refuses, and the outputs requested before it are
    allocated. *)
Theorem rejection_only (T : DataType) (c c' : OpKernelContext) :
  let t := input_t c in let p := input_p c in
  let x := input_x c in let y := input_y c in
  Compute T c = Return c' →
  ((dims t < 1 ∨ dims p ≠ dims t - 1 ∨ dims x ≠ dims t ∨ shape y ≠ shape x ∨
    (∃ k, 0 ≤ k < dims t - 1 ∧
          ¬ (dim_size x k = dim_size t k ∧ dim_size p k = dim_size t k))) ∧
   ∃ msg, c' = set_status (InvalidArgument msg) c) ∨
  (requirements c ∧
   ∃ i, 0 ≤ i ≤ 2 ∧ allocator c i ≠ OK ∧ (∀ j, 0 ≤ j < i → allocator c j = OK) ∧
     c' = set_status (allocator c i)
            (set_outputs
               (if 0 <? i then Some (fresh (fresh_T c 0) (shape t)) else output_v c)
               (if 1 <? i then Some (fresh (fresh_T c 1) (shape t)) else output_a c)
               (output_inds c) c)).
Proof.
  intros t p x y HR. destruct (requirements_dec c) as [Hreq|Hbad].
  - right. split; [exact Hreq|].
    destruct (requirements_dims c Hreq) as (N & M & HN & HM).
    rewrite (Compute_checked T c N M Hreq HN HM) in HR. fold t in HR.
    assert (∀ i, 0 ≤ i ≤ 2 → allocator c i ≠ OK →
                 (∀ j, 0 ≤ j < i → allocator c j = OK) →
                 c' = set_status (allocator c i)
                        (set_outputs
                           (if 0 <? i then Some (fresh (fresh_T c 0) (shape t))
                            else output_v c)
                           (if 1 <? i then Some (fresh (fresh_T c 1) (shape t))
                            else output_a c)
                           (output_inds c) c)) as Hcase.
    { intros i Hi Herr Hok.
      rewrite (allocate_and_run_refused T c _ _ _ _ _ N M i Hi Herr Hok) in HR.
      injection HR as <-. reflexivity. }
    destruct (Status_OK_dec (allocator c 0)) as [E0|E0].
    2: { exists 0. repeat split; [lia | lia | exact E0 | intros; lia |].
         apply Hcase; [lia | exact E0 | intros; lia]. }
    destruct (Status_OK_dec (allocator c 1)) as [E1|E1].
    2: { assert (∀ j, 0 ≤ j < 1 → allocator c j = OK) as Hok.
         { intros j Hj. replace j with 0 by lia. exact E0. }
         exists 1. repeat split; [lia | lia | exact E1 | exact Hok |].
         apply Hcase; [lia | exact E1 | exact Hok]. }
    destruct (Status_OK_dec (allocator c 2)) as [E2|E2].
    2: { assert (∀ j, 0 ≤ j < 2 → allocator c j = OK) as Hok.
         { intros j Hj. assert (j = 0 ∨ j = 1) as [->| ->] by lia; assumption. }
         exists 2. repeat split; [lia | lia | exact E2 | exact Hok |].
         apply Hcase; [lia | exact E2 | exact Hok]. }
    exfalso. rewrite allocate_and_run_granted in HR.
    + eapply rows_never_return, HR.
    + intros j Hj. assert (j = 0 ∨ j = 1 ∨ j = 2) as [->|[->| ->]] by lia; assumption.
  - left. split; [exact Hbad|].
    destruct (Compute_rejects T c Hbad) as [msg Hmsg].
    exists msg. rewrite Hmsg in HR. injection HR as <-. reflexivity.
Qed.

Lemma rejection_only_witness :
  let T := DT_FLOAT in
  let c := bad_rank T in
  let c' := set_status
              (InvalidArgument "p must have the dimension len(t.shape) - 1") c in
  Compute T c = Return c' ∧
  (((dims (input_t c) < 1 ∨ dims (input_p c) ≠ dims (input_t c) - 1 ∨
     dims (input_x c) ≠ dims (input_t c) ∨ shape (input_y c) ≠ shape (input_x c) ∨
     (∃ k, 0 ≤ k < dims (input_t c) - 1 ∧
           ¬ (dim_size (input_x c) k = dim_size (input_t c) k ∧
              dim_size (input_p c) k = dim_size (input_t c) k))) ∧
    ∃ msg, c' = set_status (InvalidArgument msg) c) ∨
   (requirements c ∧
    ∃ i, 0 ≤ i ≤ 2 ∧ allocator c i ≠ OK ∧ (∀ j, 0 ≤ j < i → allocator c j = OK) ∧
      c' = set_status (allocator c i)
             (set_outputs
                (if 0 <? i then Some (fresh (fresh_T c 0) (shape (input_t c)))
                 else output_v c)
                (if 1 <? i then Some (fresh (fresh_T c 1) (shape (input_t c)))
                 else output_a c)
                (output_inds c) c))).
Proof.
  intros T c c'. assert (Compute T c = Return c') as H by reflexivity.
  split; [exact H | apply (rejection_only T c c' H)].
Defined.

(** X16.  The error names the first requirement that fails, in the order
    rank of [t], rank of [p], rank of [x], shape of [y], outer
    dimensions. *)
Theorem rejection_message (T : DataType) (c : OpKernelContext) :
  let t := input_t c in let p := input_p c in
  let x := input_x c in let y := input_y c in
  (dims t < 1 → Compute T c = failed "t must be at least 1D" c) ∧
  (1 ≤ dims t → dims p ≠ dims t - 1 →
   Compute T c = failed "p must have the dimension len(t.shape) - 1" c) ∧
  (1 ≤ dims t → dims p = dims t - 1 → dims x ≠ dims t →
   Compute T c = failed "x and t must have the same number of dimensions" c) ∧
  (1 ≤ dims t → dims p = dims t - 1 → dims x = dims t → shape y ≠ shape x →
   Compute T c = failed "x and y must be the same shape" c) ∧
  (1 ≤ dims t → dims p = dims t - 1 → dims x = dims t → shape y = shape x →
   (∃ k, 0 ≤ k < dims t - 1 ∧
         ¬ (dim_size x k = dim_size t k ∧ dim_size p k = dim_size t k)) →
   Compute T c = failed "incompatible dimensions" c).
Proof.
  intros t p x y. unfold failed. remember (Compute T c) as r eqn:E.
  unfold Compute in E. unfold bind at 1 in E. unfold get at 1 in E.
  fold t p x y in E.
  unfold bind at 1 in E. unfold OP_REQUIRES at 1 in E.
  destruct (Z.geb_spec (dims t) 1) as [H1|H1].
  2: { split; [intros _; exact E|]. repeat split; intros; lia. }
  split; [intros; lia|].
  unfold bind at 1 in E. unfold OP_REQUIRES at 1 in E.
  destruct (Z.eqb_spec (dims p) (dims t - 1)) as [H2|H2].
  2: { split; [intros _ _; exact E|]. repeat split; intros; contradiction. }
  split; [intros; contradiction|].
  unfold bind at 1 in E. unfold OP_REQUIRES at 1 in E.
  destruct (Z.eqb_spec (dims x) (dims t)) as [H3|H3].
  2: { split; [intros _ _ _; exact E|]. repeat split; intros; contradiction. }
  split; [intros; contradiction|].
  unfold bind at 1 in E. unfold OP_REQUIRES at 1 in E.
  destruct (bool_decide_reflect (shape y = shape x)) as [H4|H4].
  2: { split; [intros _ _ _ _; exact E|]. intros; contradiction. }
  split; [intros; contradiction|].
  intros _ _ _ _ (k & Hk & Hne). unfold bind at 1 in E.
  destruct (check_dims_spec t p x (seqZ 0 (dims t - 1)) 1 c) as [[Hall _]|[_ Hr]].
  - intros k' Hk'%elem_of_seqZ. repeat split; apply dim_size_Some; lia.
  - exfalso. rewrite list.Forall_forall in Hall. apply Hne, Hall, elem_of_seqZ. lia.
  - rewrite Hr in E. exact E.
Qed.

Lemma rejection_message_witness :
  let T := DT_DOUBLE in
  let c := bad_rank T in
  1 ≤ dims (input_t c) ∧ dims (input_p c) ≠ dims (input_t c) - 1 ∧
  Compute T c = failed "p must have the dimension len(t.shape) - 1" c.
Proof.
  intros T c. split; [by_evaluation|]. split; [discriminate|].
  apply (proj1 (proj2 (rejection_message T c))); [by_evaluation | discriminate].
Defined.

(** X17.  On fully known shapes the shape function succeeds exactly when
    the five requirements of the kernel hold and [p] has rank at least 1;
    the three output shapes are then the shape of [t]. *)
Theorem shape_fn_agrees (c : OpKernelContext) :
  let t := known (shape (input_t c)) in let p := known (shape (input_p c)) in
  let x := known (shape (input_x c)) in let y := known (shape (input_y c)) in
  (requirements c → 1 ≤ dims (input_p c) → shape_fn t p x y = inr (t, t, t)) ∧
  (∀ out, shape_fn t p x y = inr out →
          requirements c ∧ 1 ≤ dims (input_p c) ∧ out = (t, t, t)).
Proof.
  intros t p x y. split.
  - intros (batch & N & M & Ht & Hp & Hx & Hy)%requirements_shapes Hrank.
    unfold t, p, x, y. rewrite Ht, Hp, Hx, Hy. apply shape_fn_batch.
    unfold dims in Hrank. rewrite Hp in Hrank. lia.
  - intros out H. unfold shape_fn in H.
    destruct (WithRankAtLeast t 1) as [e|t1] eqn:Et; [discriminate|].
    destruct (WithRankAtLeast p 1) as [e|p1] eqn:Ep; [discriminate|].
    destruct (WithRankAtLeast x 1) as [e|x1] eqn:Ex; [discriminate|].
    destruct (WithRankAtLeast y 1) as [e|y1] eqn:Ey; [discriminate|].
    apply WithRankAtLeast_1 in Et as [-> Rt], Ep as [-> Rp], Ex as [-> Rx],
      Ey as [-> _].
    specialize (Rt _ eq_refl). specialize (Rp _ eq_refl). specialize (Rx _ eq_refl).
    rewrite length_fmap in Rt, Rp, Rx. cbn [and_then] in H.
    destruct (Merge x y) as [e|x2] eqn:Exy; [discriminate|]. cbn [and_then] in H.
    pose proof (Merge_known _ _ _ Exy) as Hxy.
    unfold x, y in Exy. rewrite <- Hxy in Exy. rewrite Merge_same in Exy.
    injection Exy as <-.
    destruct (shape (input_t c)) as [|N bt _] eqn:Ht using rev_ind;
      [simpl in Rt; lia|].
    destruct (shape (input_x c)) as [|M bx _] eqn:Hx using rev_ind;
      [simpl in Rx; lia|].
    unfold t in H. rewrite !Subshape_known in H. cbn [and_then] in H.
    destruct (Merge (known bt) (known bx)) as [e|t2] eqn:Etx; [discriminate|].
    pose proof (Merge_known _ _ _ Etx) as <-. rewrite Merge_same in Etx.
    injection Etx as <-. cbn [and_then] in H.
    destruct (Merge (known bt) p) as [e|t3] eqn:Etp; [discriminate|].
    pose proof (Merge_known _ _ _ Etp) as Hp. cbn [and_then] in H.
    injection H as <-. split; [|split; [unfold dims; lia | reflexivity]].
    apply requirements_shapes. exists bt, N, M. rewrite Ht, Hx. auto.
Qed.

Lemma shape_fn_agrees_witness :
  let c := demo DT_FLOAT in
  requirements c ∧ 1 ≤ dims (input_p c) ∧
  shape_fn (known [2; 3]) (known [2]) (known [2; 3]) (known [2; 3])
  = inr (known [2; 3], known [2; 3], known [2; 3]).
Proof.
  intros c. split; [exact (demo_requirements DT_FLOAT)|]. split; [by_evaluation|].
  apply (proj1 (shape_fn_agrees c) (demo_requirements DT_FLOAT)). by_evaluation.
Defined.

(** X18.  The shape function accepts handles with unknown ranks or
    dimensions whenever they stand for shapes with a shared batch of rank at
    least 1, and gives the three outputs the handle of [t]. *)
Theorem shape_fn_accepts (input0 input1 input2 input3 : ShapeHandle)
    (batch : list Z) (N M : Z) :
  (1 ≤ length batch)%nat →
  stands_for input0 (batch ++ [N]) → stands_for input1 batch →
  stands_for input2 (batch ++ [M]) → stands_for input3 (batch ++ [M]) →
  shape_fn input0 input1 input2 input3 = inr (input0, input0, input0).
Proof.
  intros Hb H0 H1 H2 H3. unfold shape_fn.
  rewrite (WithRankAtLeast_stands input0 _ H0) by (rewrite length_app; simpl; lia).
  rewrite (WithRankAtLeast_stands input1 _ H1) by lia.
  rewrite (WithRankAtLeast_stands input2 _ H2) by (rewrite length_app; simpl; lia).
  rewrite (WithRankAtLeast_stands input3 _ H3) by (rewrite length_app; simpl; lia).
  cbn [and_then].
  destruct (Merge_stands input2 input3 _ H2 H3) as (x & -> & Hx). cbn [and_then].
  destruct (Subshape_stands input0 batch N H0) as (t' & -> & Ht'). cbn [and_then].
  destruct (Subshape_stands x batch M Hx) as (x' & -> & Hx'). cbn [and_then].
  destruct (Merge_stands t' x' _ Ht' Hx') as (t2 & -> & Ht2). cbn [and_then].
  destruct (Merge_stands t2 input1 _ Ht2 H1) as (t3 & -> & _). reflexivity.
Qed.

Lemma shape_fn_accepts_witness :
  let input0 : ShapeHandle := Some [None; Some 3] in
  let input3 : ShapeHandle := Some [Some 2; None] in
  stands_for input0 ([2] ++ [3]) ∧ stands_for input3 ([2] ++ [4]) ∧
  shape_fn input0 None (known [2; 4]) input3 = inr (input0, input0, input0).
Proof.
  intros input0 input3.
  assert (stands_for input0 ([2] ++ [3])) as H0 by stands.
  assert (stands_for input3 ([2] ++ [4])) as H3 by stands.
  split; [exact H0|]. split; [exact H3|].
  apply (shape_fn_accepts input0 None (known [2; 4]) input3 [2] 3 4);
    [simpl; lia | exact H0 | exact I | stands | exact H3].
Defined.

(** X19.  A call on queries of rank 1 with a scalar period is valid for the
    kernel, which returns, while the shape function refuses its shapes:
    it asks for a period of rank at least 1. *)
Theorem scalar_period (T : DataType) (c : OpKernelContext) (N M : Z) :
  valid_call T c [] N M →
  (∃ v a inds, returns T c v a inds) ∧
  shape_fn (known (shape (input_t c))) (known (shape (input_p c)))
    (known (shape (input_x c))) (known (shape (input_y c)))
  = inl (RankBelow 1 0).
Proof.
  intros V. split.
  - destruct (Compute_valid T c [] N M V) as (st' & Hrun & _).
    exists (MkTensor [N] (v_buf st')), (MkTensor [N] (a_buf st')),
      (MkTensor [N] (inds_buf st')).
    exists (with_out c [N] st'). repeat split. exact Hrun.
  - destruct V as [[-> -> _ _ _ _ _ _ _ _ _ _ _] _ _]. reflexivity.
Qed.

Lemma scalar_period_witness :
  let T := DT_DOUBLE in
  valid_call T (scalar_p T) [] 3 3 ∧
  (∃ v a inds, returns T (scalar_p T) v a inds) ∧
  shape_fn (known [3]) (known []) (known [3]) (known [3]) = inl (RankBelow 1 0).
Proof.
  intros T. split; [exact (scalar_p_valid T) |
                    apply (scalar_period T (scalar_p T) 3 3 (scalar_p_valid T))].
Defined.

(** X20.  When the shapes are accepted and the runtime refuses the output
    [i], having granted those before it, the call returns at once with the
    error of the runtime as its status: no row is run, the outputs before
    [i] are allocated and hold what the runtime left in them, the others
    are as they were. *)
Theorem allocation_failure (T : DataType) (c : OpKernelContext) (i : Z) :
  requirements c → 0 ≤ i ≤ 2 → allocator c i ≠ OK →
  (∀ j, 0 ≤ j < i → allocator c j = OK) →
  ∃ c', Compute T c = Return c' ∧ status c' = allocator c i ∧
    output_v c' = (if 0 <? i then Some (fresh (fresh_T c 0) (shape (input_t c)))
                   else output_v c) ∧
    output_a c' = (if 1 <? i then Some (fresh (fresh_T c 1) (shape (input_t c)))
                   else output_a c) ∧
    output_inds c' = output_inds c.
Proof.
  intros Hreq Hi Herr Hok.
  destruct (requirements_dims c Hreq) as (N & M & HN & HM).
  rewrite (Compute_checked T c N M Hreq HN HM).
  rewrite (allocate_and_run_refused T c _ _ _ _ _ N M i Hi Herr Hok).
  eexists. split; [reflexivity|]. simpl. auto.
Qed.

Lemma allocation_failure_witness :
  let T := DT_FLOAT in
  let c := out_of_memory T in
  requirements c ∧
  ∃ c', Compute T c = Return c' ∧
    status c' = OtherError 8 "OOM when allocating tensor" ∧
    output_v c' = Some (fresh (fresh_T c 0) [2; 3]) ∧
    output_a c' = None ∧ output_inds c' = None.
Proof.
  intros T c. assert (requirements c) as Hreq by exact (demo_requirements T).
  split; [exact Hreq|].
  apply (allocation_failure T c 1 Hreq); [lia | discriminate |].
  intros j Hj. replace j with 0 by lia. reflexivity.
Defined.

(** X21.  A call whose shapes are accepted and whose outputs are allocated
    has no defined behaviour when a query of its last row wraps to NaN (an
    infinite or NaN query with a positive period, a NaN query or period):
    both clamp tests fail, the search returns [M], and line 136 reads
    [x[k][M]] beyond the buffer of [x]. *)
Theorem nan_query_undefined (T : DataType) (c : OpKernelContext)
    (batch : list Z) (N M n : Z) (tv pk : spec_float) :
  shaped_call c batch N M → 1 ≤ M → 1 ≤ num_elements batch → 0 ≤ n < N →
  at2 (input_t c) N (num_elements batch - 1) n = Some tv →
  rd (flat (input_p c)) (num_elements batch - 1) = Some pk →
  is_nan (wrap T (Tgt pk Tzero) pk tv) = true →
  Compute T c = Undefined.
Proof.
  intros S HM Hsize Hn Htv Hpk Hnan. rewrite (Compute_rows T c batch N M S).
  set (size := num_elements batch) in *.
  replace (seqZ 0 size) with (seqZ 0 (size - 1) ++ [size - 1]).
  2: { transitivity (seqZ 0 (size - 1 + 1)); [|f_equal; lia].
       rewrite (seqZ_app 0 (size - 1) 1) by lia. reflexivity. }
  rewrite for_K_app.
  destruct (rows_outcome T c (input_t c) (input_p c) (input_x c) (input_y c)
              N M (batch ++ [N]) (seqZ 0 (size - 1)) (allocated c (batch ++ [N])))
    as [[st' ->]| ->]; [|reflexivity].
  cbn [for_K]. unfold bind at 1.
  set (cap := row_captures (input_t c) (input_p c) (input_x c) (input_y c)
                N M (size - 1) pk).
  assert (Shard (shard_blocks c N (5 * M)) (work T cap) st' = None) as HS.
  { rewrite (Shard_work T cap N _ st') by apply S.
    unfold work. apply (for_each_None _ _ n).
    - apply elem_of_seqZ. lia.
    - intros s. rewrite work_body_eval.
      rewrite (eval_nan T cap N n tv); [reflexivity | | exact Htv | exact Hnan |].
      + apply (shaped_inputs_ok c batch N M (size - 1) pk S HM). fold size. lia.
      + destruct S as [St Sp Sx Sy Sb SN SM Ft Fp Fx Fy Sal Ssh].
        rewrite num_elements_row in Fx. fold size in Fx.
        unfold load, cap. cbn [xk cM row_captures buf off].
        destruct (rd (flat (input_x c)) ((size - 1) * M + M)) eqn:E;
          [|reflexivity].
        assert (is_Some (rd (flat (input_x c)) ((size - 1) * M + M))) as Hs by eauto.
        apply rd_inb in Hs. unfold inb in Hs. lia. }
  rewrite (row_undefined T c _ _ _ _ N M _ (size - 1) pk st' Hpk HS). reflexivity.
Qed.

Lemma nan_query_undefined_witness :
  let T := DT_DOUBLE in
  shaped_call (inf_query T) [1] 1 3 ∧
  is_nan (wrap T (Tgt (num T 2) Tzero) (num T 2) (S754_infinity false)) = true ∧
  Compute T (inf_query T) = Undefined.
Proof.
  intros T. split; [exact (inf_query_shaped T)|]. split; [reflexivity|].
  apply (nan_query_undefined T (inf_query T) [1] 1 3 0 (S754_infinity false)
           (num T 2) (inf_query_shaped T)); by_evaluation.
Defined.

(** X22.  A call whose shapes are accepted, whose outputs are allocated,
    whose rows have a knot, and whose queries, periods and knots are all
    finite numbers of the type is valid, and so returns: on finite data the
    kernel has no undefined read or write, whatever the order of the knots
    and the sign of the periods. *)
Theorem finite_call_valid (T : DataType) (c : OpKernelContext)
    (batch : list Z) (N M : Z) :
  shaped_call c batch N M → 1 ≤ M →
  Forall (λ e, finite T e = true) (flat (input_t c)) →
  Forall (λ e, finite T e = true) (flat (input_p c)) →
  Forall (λ e, finite T e = true) (flat (input_x c)) →
  valid_call T c batch N M ∧ ∃ v a inds, returns T c v a inds.
Proof.
  intros S HM Ft Fp Fx.
  assert (valid_call T c batch N M) as V.
  { split; [exact S | exact HM |]. intros k n Hk Hn. unfold no_nan.
    destruct (at2 (input_t c) N k n) as [tv|] eqn:Htv; [|reflexivity].
    destruct (rd (flat (input_p c)) k) as [pk|] eqn:Hpk; [|reflexivity].
    destruct (at2 (input_x c) M k (M - 1)) as [xl|] eqn:Hxl; [|reflexivity].
    rewrite list.Forall_forall in Ft, Fp, Fx.
    apply rd_elem_of in Htv, Hpk, Hxl.
    rewrite (wrap_not_nan T pk tv (Fp _ Hpk) (Ft _ Htv)).
    rewrite (finite_not_nan T xl (Fx _ Hxl)). reflexivity. }
  split; [exact V|].
  destruct (Compute_valid T c batch N M V) as (st' & Hrun & _).
  exists (MkTensor (batch ++ [N]) (v_buf st')), (MkTensor (batch ++ [N]) (a_buf st')),
    (MkTensor (batch ++ [N]) (inds_buf st')).
  exists (with_out c (batch ++ [N]) st'). repeat split. exact Hrun.
Qed.

Lemma finite_call_valid_witness :
  let T := DT_FLOAT in
  let c := demo T in
  shaped_call c [2] 3 3 ∧
  Forall (λ e, finite T e = true) (flat (input_t c)) ∧
  Forall (λ e, finite T e = true) (flat (input_p c)) ∧
  Forall (λ e, finite T e = true) (flat (input_x c)) ∧
  valid_call T c [2] 3 3 ∧ ∃ v a inds, returns T c v a inds.
Proof.
  intros T c.
  assert (Forall (λ e, finite T e = true) (flat (input_t c))) as Ft
    by (repeat constructor).
  assert (Forall (λ e, finite T e = true) (flat (input_p c))) as Fp
    by (repeat constructor).
  assert (Forall (λ e, finite T e = true) (flat (input_x c))) as Fx
    by (repeat constructor).
  split; [exact (demo_shaped T)|]. split; [exact Ft|]. split; [exact Fp|].
  split; [exact Fx|].
  apply (finite_call_valid T c [2] 3 3 (demo_shaped T)); [lia | exact Ft | exact Fp | exact Fx].
Defined.
